(** * Patch sampling of 3D MRI volumes: a model of [experiments/datasets/MRI/mri.py]

    The development embeds the class [MRISegmentation]: the static planner
    [calc_patch_indices], the per-epoch index construction
    [initialize_patch_indices], the constructor with its padding pass, the
    accessor [__getitem__] (here [getitem]), [__len__] (here [len]) and
    [get_original].

    Conventions of the embedding.
    - A length-3 numpy vector is a [vec3]; numpy's elementwise operators are
      [vmap]/[vmap2].
    - The planner is written twice.  [calc_patch_indices] computes in exact
      arithmetic: integers are unbounded [Z], and numpy's true division [/]
      followed by [np.ceil] or by a comparison with a fraction is computed in
      rationals ([Q]).  [Machine.calc_patch_indices] computes as numpy does:
      int64 with wrap-around, float64 with rounding.  The two agree as long as
      no patch or volume extent exceeds 2^24 ([machine_planner_exact]).
      Properties of the planner that depend on rounded or wrapped quantities
      are stated for the second; the dataset object, whose volumes are arrays
      in memory, is modelled over the first.
    - The one narrowing conversion of the class, [dtype=np.int16] in
      [__getitem__], is written out as [wrap_int16].
    - A 3D array is its shape together with its voxel function; basic slicing
      follows Python's rules for negative and overshooting bounds.
    - [np.random.choice] reads from an explicit stream of draws.
    - Python exceptions are the constructors of [exn]; the two [while] loops
      of the planner are run with fuel.
    - The container file is read before the class does anything modelled here:
      the constructor [init] receives the loaded volumes. *)

From Stdlib Require Import ZArith QArith Qround Qabs Qpower Lqa Lia List Bool.
From Stdlib Require Floats.SpecFloat.
From stdpp Require Import base list.
Import ListNotations.

Local Open Scope Z_scope.

(** ** Length-3 vectors *)

Record vec3 (A : Type) : Type := V3 { ax0 : A; ax1 : A; ax2 : A }.
Arguments V3 {A} _ _ _.
Arguments ax0 {A} _.
Arguments ax1 {A} _.
Arguments ax2 {A} _.

Inductive axis : Type := Ax0 | Ax1 | Ax2.

Definition vnth {A : Type} (a : axis) (v : vec3 A) : A :=
  match a with
  | Ax0 => ax0 v
  | Ax1 => ax1 v
  | Ax2 => ax2 v
  end.

Definition vmap {A B : Type} (f : A -> B) (v : vec3 A) : vec3 B :=
  V3 (f (ax0 v)) (f (ax1 v)) (f (ax2 v)).

Definition vmap2 {A B C : Type} (f : A -> B -> C) (u : vec3 A) (v : vec3 B) : vec3 C :=
  V3 (f (ax0 u) (ax0 v)) (f (ax1 u) (ax1 v)) (f (ax2 u) (ax2 v)).

(** [np.repeat(x, 3)] *)
Definition vrepeat {A : Type} (x : A) : vec3 A := V3 x x x.

(** [b.any()] and [np.all(b)] on a boolean vector *)
Definition vany (b : vec3 bool) : bool := ax0 b || ax1 b || ax2 b.
Definition vall (b : vec3 bool) : bool := ax0 b && ax1 b && ax2 b.

Definition vadd : vec3 Z -> vec3 Z -> vec3 Z := vmap2 Z.add.
Definition vsub : vec3 Z -> vec3 Z -> vec3 Z := vmap2 Z.sub.
Definition vmul : vec3 Z -> vec3 Z -> vec3 Z := vmap2 Z.mul.
Definition vneg : vec3 Z -> vec3 Z := vmap Z.opp.

(** [v[a] = x] on a copy of [v] *)
Definition vset (a : axis) (x : Z) (v : vec3 Z) : vec3 Z :=
  match a with
  | Ax0 => V3 x (ax1 v) (ax2 v)
  | Ax1 => V3 (ax0 v) x (ax2 v)
  | Ax2 => V3 (ax0 v) (ax1 v) x
  end.

Definition axis_eq_dec (a b : axis) : {a = b} + {a <> b}.
Proof. decide equality. Defined.

(** A boolean vector used as a number ([True] is 1, [False] is 0). *)
Definition vb2z : vec3 bool -> vec3 Z := vmap Z.b2z.

(** ** Exceptions *)

Inductive exn : Type :=
| IndexError          (* list index out of range *)
| AssertionError      (* a failed [assert] *)
| ValueError          (* numpy: empty population, negative or unsupported pad, negative dimension *)
| DivideByZero        (* a zero divisor: numpy goes on with inf/nan, the model stops *)
| OutOfFuel.          (* a [while] loop that did not finish within the fuel *)

Inductive result (A : Type) : Type :=
| Ok (a : A)
| Raise (e : exn).
Arguments Ok {A} _.
Arguments Raise {A} _.

Definition bind {A B : Type} (r : result A) (k : A -> result B) : result B :=
  match r with
  | Ok a => k a
  | Raise e => Raise e
  end.

Definition result_map {A B : Type} (f : A -> B) (r : result A) : result B :=
  match r with
  | Ok a => Ok (f a)
  | Raise e => Raise e
  end.

Notation "'let*' p ':=' e 'in' k" := (bind e (fun x => match x with p => k end))
  (at level 10, p pattern, e at level 200, k at level 200, only parsing).

(** ** The random source

    The legacy global generator of numpy, as the stream of raw draws still to
    come.  [np.random.choice(n)] picks one of [0 .. n-1]; it raises for an
    empty population. *)

Definition rng : Type := nat -> Z.

Definition random_choice (n : Z) (g : rng) : result (Z * rng) :=
  if n <=? 0 then Raise ValueError
  else Ok (g O mod n, fun k => g (S k)).

(** [[np.random.choice(offset + 1) for offset in max_start_offset]] *)
Definition random_offsets (max_start_offset : vec3 Z) (g : rng) : result (vec3 Z * rng) :=
  let* (r0, g) := random_choice (ax0 max_start_offset + 1) g in
  let* (r1, g) := random_choice (ax1 max_start_offset + 1) g in
  let* (r2, g) := random_choice (ax2 max_start_offset + 1) g in
  Ok (V3 r0 r1 r2, g).

(** ** Exact arithmetic for [/], [np.ceil] and [<] *)

Definition true_div (a b : Z) : Q := (inject_Z a / inject_Z b)%Q.

Definition Qltb (x y : Q) : bool := negb (Qle_bool y x).

(** ** PatchGridPlanner: [calc_patch_indices] *)

(** The body shared by the two [while extra_patch.any()] loops:
    [overflow += extra_patch*eff_patch_shape; n_patches += extra_patch],
    with [extra_patch] recomputed by [cond] from the new overflow. *)
Fixpoint extra_patch_loop (fuel : nat) (cond : vec3 Z -> vec3 bool)
    (eff_patch_shape overflow n_patches : vec3 Z) : result (vec3 Z * vec3 Z) :=
  match fuel with
  | O => Raise OutOfFuel
  | S fuel' =>
      let extra_patch := cond overflow in
      if vany extra_patch then
        extra_patch_loop fuel' cond eff_patch_shape
          (vadd overflow (vmul (vb2z extra_patch) eff_patch_shape))
          (vadd n_patches (vb2z extra_patch))
      else Ok (overflow, n_patches)
  end.

(** [(overflow / patch_shape) < minimum_overflow_fraction] *)
Definition below_fraction (patch_shape : vec3 Z) (minimum_overflow_fraction : Q)
    (overflow : vec3 Z) : vec3 bool :=
  vmap (fun q => Qltb q minimum_overflow_fraction) (vmap2 true_div overflow patch_shape).

(** [(overflow < overlap)] *)
Definition below_overlap (overlap overflow : vec3 Z) : vec3 bool :=
  vmap2 Z.ltb overflow overlap.

(** One axis of [np.mgrid[start:stop:step]]: numpy takes
    [int(math.ceil((stop - start)/(step*1.0)))] points [i*step + start]. *)
Definition grid_size (start stop step : Z) : Z :=
  Qceiling (true_div (stop - start) step).

Definition grid_axis (start step size : Z) : list Z :=
  map (fun i : nat => Z.of_nat i * step + start) (seq 0 (Z.to_nat size)).

(** [np.mgrid[a0:b0:s0, a1:b1:s1, a2:b2:s2].reshape(3, -1).T]: the points of
    the Cartesian product in C order (last axis fastest).  A negative size is
    rejected by the array allocation. *)
Definition mgrid3 (start stop step : vec3 Z) : result (list (vec3 Z)) :=
  let size := V3 (grid_size (ax0 start) (ax0 stop) (ax0 step))
                 (grid_size (ax1 start) (ax1 stop) (ax1 step))
                 (grid_size (ax2 start) (ax2 stop) (ax2 step)) in
  if vany (vmap (Z.eqb 0) step) then Raise DivideByZero
  else if vany (vmap (fun s => s <? 0) size) then Raise ValueError
  else Ok (flat_map (fun x =>
             flat_map (fun y =>
               map (fun z => V3 x y z)
                   (grid_axis (ax2 start) (ax2 step) (ax2 size)))
               (grid_axis (ax1 start) (ax1 step) (ax1 size)))
             (grid_axis (ax0 start) (ax0 step) (ax0 size))).

(** Number of patches, rounding up (line 189). *)
Definition initial_n_patches (image_shape patch_shape eff_patch_shape : vec3 Z) : vec3 Z :=
  vmap Qceiling
    (vmap (fun q => (q + 1)%Q)
       (vmap2 true_div (vsub image_shape patch_shape) eff_patch_shape)).

(** Overflow of voxels beyond the image (line 192). *)
Definition initial_overflow (image_shape eff_patch_shape n_patches overlap : vec3 Z) : vec3 Z :=
  vadd (vsub (vmul eff_patch_shape n_patches) image_shape) overlap.

(** The two branches of [if randomize_offset]: each yields the start index,
    the final overflow and patch count, and the generator.  The randomized
    branch divides by [patch_shape]. *)
Definition place_random (fuel : nat) (patch_shape eff_patch_shape : vec3 Z)
    (minimum_overflow_fraction : Q) (overflow n_patches : vec3 Z) (g : rng)
  : result (vec3 Z * vec3 Z * vec3 Z * rng) :=
  if vany (vmap (Z.eqb 0) patch_shape) then Raise DivideByZero else
  let* (overflow, n_patches) :=
    extra_patch_loop fuel (below_fraction patch_shape minimum_overflow_fraction)
      eff_patch_shape overflow n_patches in
  let max_start_offset := overflow in
  let* (r, g) := random_offsets max_start_offset g in
  Ok (vneg r, overflow, n_patches, g).

Definition place_centred (fuel : nat) (overlap eff_patch_shape : vec3 Z)
    (overflow n_patches : vec3 Z) (g : rng)
  : result (vec3 Z * vec3 Z * vec3 Z * rng) :=
  let start_index := vneg (vmap Qceiling (vmap (fun o => true_div o 2) overflow)) in
  let* (overflow, n_patches) :=
    extra_patch_loop fuel (below_overlap overlap) eff_patch_shape overflow n_patches in
  Ok (start_index, overflow, n_patches, g).

(** [overlap] is always passed as a vector by the class.  The first division
    is by [eff_patch_shape]. *)
Definition calc_patch_indices (fuel : nat) (image_shape patch_shape overlap : vec3 Z)
    (randomize_offset : bool) (minimum_overflow_fraction : Q) (g : rng)
  : result (list (vec3 Z) * vec3 Z * rng) :=
  let eff_patch_shape := vsub patch_shape overlap in
  if vany (vmap (Z.eqb 0) eff_patch_shape) then Raise DivideByZero else
  let n_patches := initial_n_patches image_shape patch_shape eff_patch_shape in
  let overflow := initial_overflow image_shape eff_patch_shape n_patches overlap in
  let* (start_index, overflow, n_patches, g) :=
    (if randomize_offset
     then place_random fuel patch_shape eff_patch_shape minimum_overflow_fraction
            overflow n_patches g
     else place_centred fuel overlap eff_patch_shape overflow n_patches g) in
  let step_size := eff_patch_shape in
  let stop_index := vadd start_index (vmul step_size n_patches) in
  let* grid := mgrid3 start_index stop_index step_size in
  Ok (grid, overflow, g).

(** The default of [minimum_overflow_fraction]. *)
Definition default_minimum_overflow_fraction : Q := 1 # 4.

(** ** The planner as numpy evaluates it

    The same function once more, with the arithmetic of numpy written out:
    integer arrays are int64 and wrap around, [/] converts both operands to
    float64 and rounds the quotient, [+ 1] rounds again, [np.ceil] and
    [astype(int)] are exact on the values that occur.  A finite float64 is the
    rational it denotes.  Quotients of non-zero 64-bit integers stay far from
    the limits of the exponent range, so rounding to 53 significant bits is all
    there is to float64 here; a zero divisor (numpy goes on with inf or nan)
    stops the model with [DivideByZero], as above.

    [machine_planner_exact] below shows that this planner and the one in exact
    arithmetic agree when no extent exceeds 2^24.  The dataset object, whose
    volumes are arrays held in memory, is modelled over the exact one. *)

Module Machine.

(** int64 arithmetic wraps around. *)
Definition wrap_int64 (x : Z) : Z := (x + 2 ^ 63) mod 2 ^ 64 - 2 ^ 63.

Definition add64 (x y : Z) : Z := wrap_int64 (x + y).
Definition sub64 (x y : Z) : Z := wrap_int64 (x - y).
Definition mul64 (x y : Z) : Z := wrap_int64 (x * y).
Definition neg64 (x : Z) : Z := wrap_int64 (- x).

Definition vadd64 : vec3 Z -> vec3 Z -> vec3 Z := vmap2 add64.
Definition vsub64 : vec3 Z -> vec3 Z -> vec3 Z := vmap2 sub64.
Definition vmul64 : vec3 Z -> vec3 Z -> vec3 Z := vmap2 mul64.
Definition vneg64 : vec3 Z -> vec3 Z := vmap neg64.

(** The nearest integer, ties to the even one. *)
Definition round_half_even (x : Q) : Z :=
  let f := Qfloor x in
  match (x - inject_Z f ?= 1 # 2)%Q with
  | Lt => f
  | Eq => if Z.even f then f else f + 1
  | Gt => f + 1
  end.

(** [floor (log2 |x|)] for a non-zero [x]: the quotient of the bit lengths of
    numerator and denominator, corrected by one comparison. *)
Definition binade (x : Q) : Z :=
  let e0 := Z.log2 (Z.abs (Qnum x)) - Z.log2 (Z.pos (Qden x)) in
  if Qle_bool (2 ^ e0) (Qabs x) then e0 else e0 - 1.

(** The float64 nearest to a rational: 53 significant bits, ties to even. *)
Definition round64 (x : Q) : Q :=
  let x := Qred x in
  if Qeq_bool x 0 then 0
  else let k := 52 - binade x in
       (inject_Z (round_half_even (x * 2 ^ k)) * 2 ^ (- k))%Q.

(** An int64 converted to float64. *)
Definition float64_of_int (z : Z) : Q := round64 (inject_Z z).

(** [a / b] on int64 operands: numpy's true division. *)
Definition true_div (a b : Z) : Q := round64 (float64_of_int a / float64_of_int b).

(** [np.ceil(x).astype(int)]: the ceiling of a float64 is a float64; the
    conversion is exact within int64 (at 2^63, the one value beyond it that a
    quotient of int64 operands plus one can reach, it gives what x86-64
    gives). *)
Definition ceil_int (x : Q) : Z := wrap_int64 (Qceiling x).

(** [np.ceil((image_shape - patch_shape) / eff_patch_shape + 1).astype(int)]
    (line 189) *)
Definition initial_n_patches (image_shape patch_shape eff_patch_shape : vec3 Z) : vec3 Z :=
  vmap ceil_int
    (vmap (fun q => round64 (q + 1))
       (vmap2 true_div (vsub64 image_shape patch_shape) eff_patch_shape)).

(** [eff_patch_shape * n_patches - image_shape + overlap] (line 192) *)
Definition initial_overflow (image_shape eff_patch_shape n_patches overlap : vec3 Z) : vec3 Z :=
  vadd64 (vsub64 (vmul64 eff_patch_shape n_patches) image_shape) overlap.

(** [overflow += extra_patch*eff_patch_shape; n_patches += extra_patch] *)
Fixpoint extra_patch_loop (fuel : nat) (cond : vec3 Z -> vec3 bool)
    (eff_patch_shape overflow n_patches : vec3 Z) : result (vec3 Z * vec3 Z) :=
  match fuel with
  | O => Raise OutOfFuel
  | S fuel' =>
      let extra_patch := cond overflow in
      if vany extra_patch then
        extra_patch_loop fuel' cond eff_patch_shape
          (vadd64 overflow (vmul64 (vb2z extra_patch) eff_patch_shape))
          (vadd64 n_patches (vb2z extra_patch))
      else Ok (overflow, n_patches)
  end.

(** [(overflow / patch_shape) < minimum_overflow_fraction], a comparison of
    two float64 values *)
Definition below_fraction (patch_shape : vec3 Z) (minimum_overflow_fraction : Q)
    (overflow : vec3 Z) : vec3 bool :=
  vmap (fun q => Qltb q minimum_overflow_fraction) (vmap2 true_div overflow patch_shape).

(** [[np.random.choice(offset + 1) for offset in max_start_offset]] *)
Definition random_offsets (max_start_offset : vec3 Z) (g : rng) : result (vec3 Z * rng) :=
  let* (r0, g) := random_choice (add64 (ax0 max_start_offset) 1) g in
  let* (r1, g) := random_choice (add64 (ax1 max_start_offset) 1) g in
  let* (r2, g) := random_choice (add64 (ax2 max_start_offset) 1) g in
  Ok (V3 r0 r1 r2, g).

(** One axis of [np.mgrid[start:stop:step]]: the size is
    [int(math.ceil((stop - start)/(step*1.0)))], a float64 division; the
    points [i*step + start] are int64. *)
Definition grid_size (start stop step : Z) : Z :=
  Qceiling (round64 (float64_of_int (sub64 stop start) / round64 (float64_of_int step * 1))).

Definition grid_axis (start step size : Z) : list Z :=
  map (fun i : nat => add64 (mul64 (Z.of_nat i) step) start) (seq 0 (Z.to_nat size)).

Definition mgrid3 (start stop step : vec3 Z) : result (list (vec3 Z)) :=
  let size := V3 (grid_size (ax0 start) (ax0 stop) (ax0 step))
                 (grid_size (ax1 start) (ax1 stop) (ax1 step))
                 (grid_size (ax2 start) (ax2 stop) (ax2 step)) in
  if vany (vmap (Z.eqb 0) step) then Raise DivideByZero
  else if vany (vmap (fun s => s <? 0) size) then Raise ValueError
  else Ok (flat_map (fun x =>
             flat_map (fun y =>
               map (fun z => V3 x y z)
                   (grid_axis (ax2 start) (ax2 step) (ax2 size)))
               (grid_axis (ax1 start) (ax1 step) (ax1 size)))
             (grid_axis (ax0 start) (ax0 step) (ax0 size))).

Definition place_random (fuel : nat) (patch_shape eff_patch_shape : vec3 Z)
    (minimum_overflow_fraction : Q) (overflow n_patches : vec3 Z) (g : rng)
  : result (vec3 Z * vec3 Z * vec3 Z * rng) :=
  if vany (vmap (Z.eqb 0) patch_shape) then Raise DivideByZero else
  let* (overflow, n_patches) :=
    extra_patch_loop fuel (below_fraction patch_shape minimum_overflow_fraction)
      eff_patch_shape overflow n_patches in
  let max_start_offset := overflow in
  let* (r, g) := random_offsets max_start_offset g in
  Ok (vneg64 r, overflow, n_patches, g).

(** [-np.ceil(overflow/2).astype(int)], then the loop on [overflow < overlap] *)
Definition place_centred (fuel : nat) (overlap eff_patch_shape : vec3 Z)
    (overflow n_patches : vec3 Z) (g : rng)
  : result (vec3 Z * vec3 Z * vec3 Z * rng) :=
  let start_index := vneg64 (vmap ceil_int (vmap (fun o => true_div o 2) overflow)) in
  let* (overflow, n_patches) :=
    extra_patch_loop fuel (below_overlap overlap) eff_patch_shape overflow n_patches in
  Ok (start_index, overflow, n_patches, g).

Definition calc_patch_indices (fuel : nat) (image_shape patch_shape overlap : vec3 Z)
    (randomize_offset : bool) (minimum_overflow_fraction : Q) (g : rng)
  : result (list (vec3 Z) * vec3 Z * rng) :=
  let eff_patch_shape := vsub64 patch_shape overlap in
  if vany (vmap (Z.eqb 0) eff_patch_shape) then Raise DivideByZero else
  let n_patches := initial_n_patches image_shape patch_shape eff_patch_shape in
  let overflow := initial_overflow image_shape eff_patch_shape n_patches overlap in
  let* (start_index, overflow, n_patches, g) :=
    (if randomize_offset
     then place_random fuel patch_shape eff_patch_shape minimum_overflow_fraction
            overflow n_patches g
     else place_centred fuel overlap eff_patch_shape overflow n_patches g) in
  let step_size := eff_patch_shape in
  let stop_index := vadd64 start_index (vmul64 step_size n_patches) in
  let* grid := mgrid3 start_index stop_index step_size in
  Ok (grid, overflow, g).

End Machine.

(** *** The binary64 operations of the Standard Library, for comparison *)

(** An integer as a binary64 number of [SpecFloat], and the rational a finite
    binary64 number denotes. *)
Definition binary64_of_int (z : Z) : SpecFloat.spec_float :=
  SpecFloat.binary_normalize 53 1024 z 0 false.

Definition binary64_value (x : SpecFloat.spec_float) : option Q :=
  match x with
  | SpecFloat.S754_zero _ => Some 0%Q
  | SpecFloat.S754_finite s m e =>
      Some ((if s then - inject_Z (Z.pos m) else inject_Z (Z.pos m)) * 2 ^ e)%Q
  | _ => None
  end.

Definition denotes (x : option Q) (y : Q) : bool :=
  match x with
  | Some q => Qeq_bool q y
  | None => false
  end.

(** Numerators and denominators, among them those of the examples below. *)
Definition division_samples : list (Z * Z) :=
  [(3 - 2 ^ 60, 2 ^ 60); (2, 2 ^ 60); (2 ^ 60 - 1, 2 ^ 62);
   (10 - 2 ^ 62, 3 * 2 ^ 60 - 9); (3 * (2 ^ 53 + 1), 2 ^ 53 + 1);
   (1, 3); (22, 7); (-100, 7); (2 ^ 53 + 1, 1); (2 ^ 53 + 3, 1);
   (123456789123456789, 987654321); (-6, 3); (22, 8)].

(** ** Notions used to state the properties of the planner *)

(** Both loop conditions look at each axis on its own. *)
Definition axiswise (cond : vec3 Z -> vec3 bool) (c : axis -> Z -> bool) : Prop :=
  forall ov a, vnth a (cond ov) = c a (vnth a ov).

(** How far the overflow still is from a bound, summed over the axes. *)
Definition slack (bound ov : vec3 Z) : Z :=
  Z.max 0 (ax0 bound - ax0 ov) + Z.max 0 (ax1 bound - ax1 ov) + Z.max 0 (ax2 bound - ax2 ov).

(** The sizes [np.mgrid] computes for the three axes. *)
Definition grid_sizes (start stop step : vec3 Z) : vec3 Z :=
  V3 (grid_size (ax0 start) (ax0 stop) (ax0 step))
     (grid_size (ax1 start) (ax1 stop) (ax1 step))
     (grid_size (ax2 start) (ax2 stop) (ax2 step)).

(** Geometry accepted by the planner: [0 <= overlap < patch_shape]. *)
Definition geometry_ok (patch overlap : vec3 Z) : Prop :=
  forall a, 0 <= vnth a overlap < vnth a patch.

(** The overflow at which each loop stops adding patches at the latest, and
    fuel that is enough to get there. *)
Definition loop_bound (rand : bool) (patch overlap : vec3 Z) : vec3 Z :=
  if rand then patch else overlap.

Definition enough_fuel (fuel : nat) (bound : vec3 Z) : Prop :=
  ax0 bound + ax1 bound + ax2 bound < Z.of_nat fuel.

(** Extents for which float64 and int64 are exact throughout the planner:
    valid geometry, and no patch or volume extent above 2^24 = 16777216. *)
Definition small_extents (image patch overlap : vec3 Z) : Prop :=
  forall a, 0 <= vnth a overlap < vnth a patch /\ vnth a patch <= 2 ^ 24 /\
            0 <= vnth a image <= 2 ^ 24.

(** The state of either loop: the overflow has not passed the bound by a
    stride, and it is still the overflow of [n] patches. *)
Definition loop_state (image overlap eff bound ov n : vec3 Z) : Prop :=
  forall a, 0 <= vnth a ov < vnth a bound + vnth a eff /\
            vnth a eff * vnth a n - vnth a image + vnth a overlap = vnth a ov.

(** What is known of one axis of a finished plan. *)
Record axis_plan (rand : bool) (image patch overlap start n ov : Z) : Prop := {
  plan_overflow_nonneg : 0 <= ov;
  plan_start_range : - ov <= start <= 0;
  plan_overflow_eq : (patch - overlap) * n - image + overlap = ov;
  plan_overflow_bound : 4 * ov < 5 * patch;
  plan_n_grows : Qceiling (true_div (image - patch) (patch - overlap) + 1) <= n;
  plan_random_fraction : rand = true -> patch <= 4 * ov;
  plan_centred_start : rand = false ->
    overlap <= ov /\
    start = - Qceiling (true_div
                ((patch - overlap)
                 * Qceiling (true_div (image - patch) (patch - overlap) + 1)
                 - image + overlap) 2);
  plan_no_overlap : overlap = 0 -> rand = false ->
    n = Qceiling (true_div (image - patch) (patch - overlap) + 1)
}.

(** ** Python list indexing *)

(** [l[i]] for a Python list: a negative index counts from the end, anything
    else out of range raises [IndexError]. *)
Definition py_index {A : Type} (l : list A) (i : Z) : result A :=
  let n := Z.of_nat (length l) in
  let j := if i <? 0 then i + n else i in
  if (j <? 0) || (n <=? j) then Raise IndexError
  else match l !! Z.to_nat j with
       | Some x => Ok x
       | None => Raise IndexError
       end.

(** ** The 16-bit conversion of [__getitem__] *)

(** [np.array(x, dtype=np.int16)] on a Python integer, as in the numpy
    releases this code was written for: the value modulo [2^16], read as a
    signed 16-bit number. *)
Definition wrap_int16 (x : Z) : Z := (x + 32768) mod 65536 - 32768.

Definition fits_int16 (x : Z) : Prop := -32768 <= x <= 32767.

(** ** Arrays, padding and slicing *)

Section Dataset.

(** The voxel type, with the two casts the class applies:
    [.astype(np.float32)] to signal patches and [.astype(np.int64)] to padded
    label volumes. *)
Context {V : Type}.
Variable astype_float32 : V -> V.
Variable astype_int64 : V -> V.

Record ndarray : Type := NdArray { shape : vec3 Z; voxel : Z -> Z -> Z -> V }.

(** Two arrays are equal element for element. *)
Definition array_eq (a b : ndarray) : Prop :=
  shape a = shape b /\
  forall i j k : Z,
    0 <= i < ax0 (shape a) -> 0 <= j < ax1 (shape a) -> 0 <= k < ax2 (shape a) ->
    voxel a i j k = voxel b i j k.

Definition astype (cast : V -> V) (a : ndarray) : ndarray :=
  {| shape := shape a; voxel := fun i j k => cast (voxel a i j k) |}.

(** A [pad_width] is a 3x2 table: per axis the (low, high) widths. *)
Definition pad_table : Type := vec3 (Z * Z).

(** [np.stack([overflow, overflow], axis=1)] *)
Definition stack_columns (low high : vec3 Z) : pad_table := vmap2 pair low high.

(** [pad_width[:,0]] *)
Definition column0 (pad_width : pad_table) : vec3 Z := vmap fst pad_width.
Definition column1 (pad_width : pad_table) : vec3 Z := vmap snd pad_width.

(** [pad_mode], as the class hands it to [np.pad] together with
    [constant_values]: ['constant'], or the name of another mode.  numpy
    rejects every other mode name here, because no other mode takes the
    keyword [constant_values]. *)
Inductive pad_rule : Type :=
| pad_constant_rule
| pad_other_rule.

Definition inside (lo len i : Z) : bool := (lo <=? i) && (i <? lo + len).

(** [np.pad(a, pad_width, mode=..., constant_values=...)]: negative widths
    are rejected, and so is every mode but ['constant']; the array then sits in
    the centre, [low] voxels from the origin on each axis, inside a border of
    [constant_values]. *)
Definition np_pad (a : ndarray) (pad_width : pad_table) (mode : pad_rule)
    (constant_values : V) : result ndarray :=
  if vany (vmap (fun p : Z * Z => (fst p <? 0) || (snd p <? 0)) pad_width)
  then Raise ValueError
  else
    match mode with
    | pad_other_rule => Raise ValueError
    | pad_constant_rule =>
        let low := column0 pad_width in
        Ok {| shape := vadd (vadd low (shape a)) (column1 pad_width);
              voxel := fun i j k =>
                if inside (ax0 low) (ax0 (shape a)) i
                   && inside (ax1 low) (ax1 (shape a)) j
                   && inside (ax2 low) (ax2 (shape a)) k
                then voxel a (i - ax0 low) (j - ax1 low) (k - ax2 low)
                else constant_values |}
    end.

(** One bound of a slice [a:b] on an axis of length [len]. *)
Definition slice_bound (i len : Z) : Z :=
  if i <? 0 then Z.max (i + len) 0 else Z.min i len.

(** First index and length of [start:stop] on an axis of length [len]. *)
Definition slice_axis (start stop len : Z) : Z * Z :=
  let lo := slice_bound start len in
  let hi := slice_bound stop len in
  (lo, Z.max 0 (hi - lo)).

(** [a[s0:e0, s1:e1, s2:e2]] *)
Definition slice3 (a : ndarray) (start stop : vec3 Z) : ndarray :=
  let s := vmap2 (fun se len => slice_axis (fst se) (snd se) len)
             (vmap2 pair start stop) (shape a) in
  {| shape := vmap snd s;
     voxel := fun i j k =>
       voxel a (fst (ax0 s) + i) (fst (ax1 s) + j) (fst (ax2 s) + k) |}.

(** [np.expand_dims(x, axis=0)]: an array with one leading channel. *)
Definition expand_dims0 (x : ndarray) : list ndarray := [x].

(** [x.clip(min=0, max=hi)] on a vector *)
Definition clip0 (hi x : vec3 Z) : vec3 Z :=
  vmap2 Z.min (vmap (Z.max 0) x) hi.

(** [np.all(x.shape == patch_shape)] *)
Definition shape_matches (x : ndarray) (patch_shape : vec3 Z) : bool :=
  vall (vmap2 Z.eqb (shape x) patch_shape).

(** ** The dataset object *)

(** One volume as read from the container: a 4D array [(X, Y, Z, 2)] whose
    last axis separates signal (0) from label (1). *)
Record loaded_volume : Type := Loaded {
  vol_shape : vec3 Z;
  vol_signal : Z -> Z -> Z -> V;
  vol_label : Z -> Z -> Z -> V
}.

Definition signal_volume (v : loaded_volume) : ndarray :=
  {| shape := vol_shape v; voxel := vol_signal v |}.
Definition label_volume (v : loaded_volume) : ndarray :=
  {| shape := vol_shape v; voxel := vol_label v |}.

(** A row [[i, s0, s1, s2]] of [self.patch_indices]. *)
Definition index_row : Type := (nat * vec3 Z)%type.

Record MRISegmentation : Type := Build_MRISegmentation {
  patch_shape : vec3 Z;
  patch_overlap : vec3 Z;
  randomize_patch_offsets : bool;
  pad_mode : pad_rule;
  pad_constant : V;
  data : list ndarray;
  labels : list ndarray;
  unpadded_data_shape : list (vec3 Z);
  padding_boundary : list (option pad_table);
  patch_indices : list index_row;
  class_count : list Z
}.

Definition set_data (x : list ndarray) (self : MRISegmentation) : MRISegmentation :=
  Build_MRISegmentation (patch_shape self) (patch_overlap self)
    (randomize_patch_offsets self) (pad_mode self) (pad_constant self)
    x (labels self) (unpadded_data_shape self) (padding_boundary self)
    (patch_indices self) (class_count self).

Definition set_labels (x : list ndarray) (self : MRISegmentation) : MRISegmentation :=
  Build_MRISegmentation (patch_shape self) (patch_overlap self)
    (randomize_patch_offsets self) (pad_mode self) (pad_constant self)
    (data self) x (unpadded_data_shape self) (padding_boundary self)
    (patch_indices self) (class_count self).

Definition set_padding_boundary (x : list (option pad_table)) (self : MRISegmentation)
  : MRISegmentation :=
  Build_MRISegmentation (patch_shape self) (patch_overlap self)
    (randomize_patch_offsets self) (pad_mode self) (pad_constant self)
    (data self) (labels self) (unpadded_data_shape self) x
    (patch_indices self) (class_count self).

Definition set_patch_indices (x : list index_row) (self : MRISegmentation)
  : MRISegmentation :=
  Build_MRISegmentation (patch_shape self) (patch_overlap self)
    (randomize_patch_offsets self) (pad_mode self) (pad_constant self)
    (data self) (labels self) (unpadded_data_shape self) (padding_boundary self)
    x (class_count self).

(** *** [initialize_patch_indices] *)

(** The body of [for i, image in enumerate(self.data)], on the images still
    to visit. *)
Fixpoint initialize_loop (fuel : nat) (images : list ndarray) (i : nat)
    (self : MRISegmentation) (g : rng) : result (MRISegmentation * rng) :=
  match images with
  | [] => Ok (self, g)
  | _ :: images' =>
      let* image_shape := py_index (unpadded_data_shape self) (Z.of_nat i) in
      let* (patch_indices_i, overflow, g) :=
        calc_patch_indices fuel image_shape (patch_shape self) (patch_overlap self)
          (randomize_patch_offsets self) default_minimum_overflow_fraction g in
      let rows := map (fun p => (i, p)) patch_indices_i in
      let self := set_patch_indices (patch_indices self ++ rows) self in
      let* boundary := py_index (padding_boundary self) (Z.of_nat i) in
      let self :=
        match boundary with
        | None =>
            let pad_width := stack_columns overflow overflow in
            set_padding_boundary (<[i := Some pad_width]> (padding_boundary self)) self
        | Some _ => self
        end in
      initialize_loop fuel images' (S i) self g
  end.

Definition initialize_patch_indices (fuel : nat) (self : MRISegmentation) (g : rng)
  : result (MRISegmentation * rng) :=
  let self := set_patch_indices [] self in
  initialize_loop fuel (data self) O self g.

(** *** [__init__] *)

(** [patch_shape] and [patch_overlap] may be given as one integer. *)
Inductive int_or_vec : Type :=
| Integral (n : Z)
| Vector (v : vec3 Z).

Definition as_vec3 (x : int_or_vec) : vec3 Z :=
  match x with
  | Integral n => vrepeat n
  | Vector v => v
  end.

(** [.squeeze()] drops every axis of length 1; such a volume is no longer
    three-dimensional and the constructor does not get past planning. *)
Definition squeezes (v : loaded_volume) : bool :=
  vany (vmap (Z.eqb 1) (vol_shape v)).

(** The padding pass: [for i, image in enumerate(self.data)]. *)
Fixpoint padding_loop (images : list ndarray) (i : nat) (self : MRISegmentation)
  : result MRISegmentation :=
  match images with
  | [] => Ok self
  | _ :: images' =>
      let* boundary := py_index (padding_boundary self) (Z.of_nat i) in
      match boundary with
      | None => Raise ValueError
      | Some pad_width =>
          let* data_i := py_index (data self) (Z.of_nat i) in
          let* padded := np_pad data_i pad_width (pad_mode self) (pad_constant self) in
          let self := set_data (<[i := padded]> (data self)) self in
          let* labels_i := py_index (labels self) (Z.of_nat i) in
          let* padded := np_pad labels_i pad_width (pad_mode self) (pad_constant self) in
          let self := set_labels (<[i := astype astype_int64 padded]> (labels self)) self in
          padding_loop images' (S i) self
      end
  end.

Definition init (fuel : nat) (volumes : list loaded_volume) (class_counts : list Z)
    (patch_shape patch_overlap : int_or_vec) (randomize_patch_offsets : bool)
    (pad_mode : pad_rule) (pad_constant : V) (g : rng)
  : result (MRISegmentation * rng) :=
  if existsb squeezes volumes then Raise ValueError else
  let self :=
    {| patch_shape := as_vec3 patch_shape;
       patch_overlap := as_vec3 patch_overlap;
       randomize_patch_offsets := randomize_patch_offsets;
       pad_mode := pad_mode;
       pad_constant := pad_constant;
       data := map signal_volume volumes;
       labels := map label_volume volumes;
       unpadded_data_shape := map vol_shape volumes;
       padding_boundary := map (fun _ => None) volumes;
       patch_indices := [];
       class_count := class_counts |} in
  let* (self, g) := initialize_patch_indices fuel self g in
  let* self := padding_loop (data self) O self in
  Ok (self, g).

(** *** [get_original] *)

Definition get_original (self : MRISegmentation) (dataset_index : Z)
  : result (ndarray * ndarray) :=
  let* size := py_index (unpadded_data_shape self) dataset_index in
  let* boundary := py_index (padding_boundary self) dataset_index in
  match boundary with
  | None => Raise ValueError
  | Some pad_width =>
      let patch_index_start := column0 pad_width in
      let patch_index_end := vadd patch_index_start size in
      let* image := py_index (data self) dataset_index in
      let* labels := py_index (labels self) dataset_index in
      Ok (slice3 image patch_index_start patch_index_end,
          slice3 labels patch_index_start patch_index_end)
  end.

(** *** [__getitem__] and [__len__] *)

(** What [__getitem__] returns: the two patches (with their channel axis),
    the volume index, [patch_index] (rows start, end) and [patch_valid]. *)
Record patch_item : Type := PatchItem {
  image_patch : list ndarray;
  labels_patch : list ndarray;
  item_dataset_index : nat;
  item_patch_index : vec3 Z * vec3 Z;
  item_patch_valid : vec3 Z * vec3 Z
}.

Definition getitem (self : MRISegmentation) (index : Z) : result patch_item :=
  let* row := py_index (patch_indices self) index in
  let dataset_index := fst row in
  let* image := py_index (data self) (Z.of_nat dataset_index) in
  let* labels := py_index (labels self) (Z.of_nat dataset_index) in
  let patch_index_start := vmap wrap_int16 (snd row) in
  let patch_index_end := vadd patch_index_start (patch_shape self) in
  let patch_index := (patch_index_start, patch_index_end) in
  let* unpadded := py_index (unpadded_data_shape self) (Z.of_nat dataset_index) in
  let patch_valid :=
    (vsub (clip0 unpadded (fst patch_index)) (fst patch_index),
     vsub (clip0 unpadded (snd patch_index)) (fst patch_index)) in
  let* boundary := py_index (padding_boundary self) (Z.of_nat dataset_index) in
  match boundary with
  | None => Raise ValueError
  | Some pad_width =>
      let patch_index_padded :=
        (vadd (fst patch_index) (column0 pad_width),
         vadd (snd patch_index) (column0 pad_width)) in
      let image_patch :=
        map (astype astype_float32)
          (expand_dims0 (slice3 image (fst patch_index_padded) (snd patch_index_padded))) in
      let labels_patch :=
        expand_dims0 (slice3 labels (fst patch_index_padded) (snd patch_index_padded)) in
      let* image0 := py_index image_patch 0 in
      if negb (shape_matches image0 (patch_shape self)) then Raise AssertionError else
      let* labels0 := py_index labels_patch 0 in
      if negb (shape_matches labels0 (patch_shape self)) then Raise AssertionError else
      Ok {| image_patch := image_patch;
            labels_patch := labels_patch;
            item_dataset_index := dataset_index;
            item_patch_index := patch_index;
            item_patch_valid := patch_valid |}
  end.

Definition len (self : MRISegmentation) : Z := Z.of_nat (length (patch_indices self)).

(** ** Invariants of the dataset object *)

Variable fuel : nat.

Local Abbreviation array := ndarray.
Local Abbreviation dataset := MRISegmentation.
Local Abbreviation volume := loaded_volume.

(** The fields that index construction does not assign. *)
Definition same_volumes (self self' : dataset) : Prop :=
  patch_shape self' = patch_shape self /\
  patch_overlap self' = patch_overlap self /\
  randomize_patch_offsets self' = randomize_patch_offsets self /\
  pad_mode self' = pad_mode self /\
  pad_constant self' = pad_constant self /\
  data self' = data self /\
  labels self' = labels self /\
  unpadded_data_shape self' = unpadded_data_shape self /\
  class_count self' = class_count self.

(** Some planning call of this dataset on [image] returned overflow [ov]. *)
Definition planned_overflow (self : dataset) (image ov : vec3 Z) : Prop :=
  exists g l g',
    calc_patch_indices fuel image (patch_shape self) (patch_overlap self)
      (randomize_patch_offsets self) default_minimum_overflow_fraction g = Ok (l, ov, g').

(** Some planning call of this dataset on [image] produced placement [p]. *)
Definition planned_row (self : dataset) (image p : vec3 Z) : Prop :=
  exists g l ov g',
    calc_patch_indices fuel image (patch_shape self) (patch_overlap self)
      (randomize_patch_offsets self) default_minimum_overflow_fraction g = Ok (l, ov, g')
    /\ In p l.

(** The fields that the padding pass does not assign. *)
Definition same_index (self self' : dataset) : Prop :=
  patch_shape self' = patch_shape self /\
  patch_overlap self' = patch_overlap self /\
  randomize_patch_offsets self' = randomize_patch_offsets self /\
  pad_mode self' = pad_mode self /\
  pad_constant self' = pad_constant self /\
  unpadded_data_shape self' = unpadded_data_shape self /\
  padding_boundary self' = padding_boundary self /\
  patch_indices self' = patch_indices self /\
  class_count self' = class_count self.

(** What holds of a dataset built from the loaded volumes [vols]: each volume
    is stored padded on both sides by its planned overflow, and every row of the
    patch index is a placement of some plan of its volume. *)
Record consistent (vols : list volume) (ds : dataset) : Prop := {
  cons_shapes : unpadded_data_shape ds = map vol_shape vols;
  cons_boundary_length : length (padding_boundary ds) = length vols;
  cons_data_length : length (data ds) = length vols;
  cons_volume : forall j vol, vols !! j = Some vol ->
    exists ov sig lab,
      padding_boundary ds !! j = Some (Some (stack_columns ov ov)) /\
      planned_overflow ds (vol_shape vol) ov /\
      np_pad (signal_volume vol) (stack_columns ov ov) (pad_mode ds) (pad_constant ds)
        = Ok sig /\
      data ds !! j = Some sig /\
      np_pad (label_volume vol) (stack_columns ov ov) (pad_mode ds) (pad_constant ds)
        = Ok lab /\
      labels ds !! j = Some (astype astype_int64 lab);
  cons_rows : forall row, In row (patch_indices ds) ->
    exists vol, vols !! fst row = Some vol /\ planned_row ds (vol_shape vol) (snd row)
}.

(** The arguments of the constructor, kept by the object. *)
Definition configured (ds : dataset) (patch overlap : vec3 Z) (rand : bool)
    (mode : pad_rule) (c : V) : Prop :=
  patch_shape ds = patch /\ patch_overlap ds = overlap /\
  randomize_patch_offsets ds = rand /\ pad_mode ds = mode /\ pad_constant ds = c.

(** The states of a dataset object: the constructed one, and those obtained
    from it by rebuilding the patch index any number of times. *)
Inductive reachable (vols : list volume) (cc : list Z) (ps po : int_or_vec) (rand : bool)
    (mode : pad_rule) (c : V) : dataset -> Prop :=
| reach_init (g : rng) (ds : dataset) (g' : rng) :
    init fuel vols cc ps po rand mode c g = Ok (ds, g') ->
    reachable vols cc ps po rand mode c ds
| reach_epoch (ds : dataset) (g : rng) (ds' : dataset) (g' : rng) :
    reachable vols cc ps po rand mode c ds ->
    initialize_patch_indices fuel ds g = Ok (ds', g') ->
    reachable vols cc ps po rand mode c ds'.

(** The input-level condition under which no stored coordinate leaves the
    16-bit range. *)
Definition volumes_fit (vols : list volume) (patch : vec3 Z) : Prop :=
  forall vol, In vol vols ->
    forall a, 0 <= vnth a (vol_shape vol) /\
              vnth a (vol_shape vol) + 2 * vnth a patch <= 32767.

End Dataset.

(** ** Example datasets *)

(** Voxels are integers here: the float cast keeps them, the int64 cast wraps
    to 64 bits. *)
Definition keep (x : Z) : Z := x.

Definition to_int64 (x : Z) : Z := (x + 2 ^ 63) mod 2 ^ 64 - 2 ^ 63.

(** A volume whose signal encodes its coordinates, with labels 0, 1, 2. *)
Definition ramp_volume (s : vec3 Z) : @loaded_volume Z :=
  Loaded s (fun i j k => i * 10000 + j * 100 + k) (fun i j k => (i + j + k) mod 3).

(** Two streams of draws. *)
Definition demo_rng : rng := fun k => 7 * Z.of_nat k + 3.
Definition demo_rng2 : rng := fun k => 11 * Z.of_nat k + 1.

(** The dataset of a successful construction (an empty one otherwise). *)
Definition empty_dataset : @MRISegmentation Z :=
  Build_MRISegmentation (vrepeat 0) (vrepeat 0) false pad_constant_rule 0 [] [] [] [] [] [].

Definition dataset_of (r : result (@MRISegmentation Z * rng)) : @MRISegmentation Z :=
  match r with
  | Ok (ds, _) => ds
  | Raise _ => empty_dataset
  end.

(** Two small volumes, patch 8, overlap 2, randomized, padded with zeros. *)
Definition small_volumes : list (@loaded_volume Z) :=
  [ramp_volume (V3 30 20 10); ramp_volume (V3 9 9 9)].

Definition small_dataset : @MRISegmentation Z :=
  dataset_of (init to_int64 32 small_volumes [] (Integral 8) (Integral 2) true
                pad_constant_rule 0 demo_rng).

(** The same object after one more epoch. *)
Definition small_dataset_epoch2 : @MRISegmentation Z :=
  dataset_of (initialize_patch_indices 32 small_dataset demo_rng2).

(** One long volume whose first axis exceeds the 16-bit range. *)
Definition long_dataset : @MRISegmentation Z :=
  dataset_of (init to_int64 32 [ramp_volume (V3 65544 8 8)] [] (Integral 8) (Integral 0) false
                pad_constant_rule 0 demo_rng).

(** Volumes of extent 73728 and 40960 cut into patches of 8192. *)
Definition tall_dataset : @MRISegmentation Z :=
  dataset_of (init to_int64 32 [ramp_volume (V3 73728 4 4)] [] (Vector (V3 8192 4 4))
                (Integral 0) false pad_constant_rule 0 demo_rng).

Definition wide_dataset : @MRISegmentation Z :=
  dataset_of (init to_int64 32 [ramp_volume (V3 40960 4 4)] [] (Vector (V3 8192 4 4))
                (Integral 0) false pad_constant_rule 0 demo_rng).

(** A volume of extent 14 cut into patches of 10 without overlap: the first
    patch starts at -3 on every axis. *)
Definition edge_dataset : @MRISegmentation Z :=
  dataset_of (init to_int64 32 [ramp_volume (V3 14 14 14)] [] (Integral 10) (Integral 0) false
                pad_constant_rule 0 demo_rng).

(** ** The patch index as a concatenation *)

(** The rows obtained by tagging the placements of consecutive volumes,
    starting with volume [i]: what the loop of [initialize_patch_indices]
    appends to [self.patch_indices]. *)
Fixpoint tagged_plans (i : nat) (plans : list (list (vec3 Z))) : list index_row :=
  match plans with
  | [] => []
  | l :: plans' => map (fun p => (i, p)) l ++ tagged_plans (S i) plans'
  end.

(** The patch index of a dataset is the concatenation, in volume order, of
    the tagged placements of one plan per volume. *)
Definition index_of_plans {V : Type} (fuel : nat) (vols : list (@loaded_volume V))
    (ds : @MRISegmentation V) (plans : list (list (vec3 Z))) : Prop :=
  length plans = length vols /\
  patch_indices ds = tagged_plans 0 plans /\
  forall k l, plans !! k = Some l ->
    exists vol g0 ov g0',
      vols !! k = Some vol /\
      calc_patch_indices fuel (vol_shape vol) (patch_shape ds) (patch_overlap ds)
        (randomize_patch_offsets ds) default_minimum_overflow_fraction g0
      = Ok (l, ov, g0').

(** ** An example with fractional labels *)

(** Voxels as rationals.  [astype(np.int64)] on a float truncates towards
    zero. *)
Definition int64_of_float (x : Q) : Q :=
  inject_Z (if Qle_bool 0 x then Qfloor x else Qceiling x).

(** A 2x2x2 volume whose label channel holds 0.5 everywhere. *)
Definition half_labels : @loaded_volume Q :=
  Loaded (V3 2 2 2) (fun i j k => inject_Z (i + j + k)) (fun _ _ _ => 1 # 2).

(** * Properties *)

(** ** Vectors, axis by axis *)

Lemma vnth_vmap {A B : Type} (f : A -> B) (v : vec3 A) (a : axis) :
  vnth a (vmap f v) = f (vnth a v).
Proof. destruct a; reflexivity. Qed.

Lemma vnth_vmap2 {A B C : Type} (f : A -> B -> C) (u : vec3 A) (v : vec3 B) (a : axis) :
  vnth a (vmap2 f u v) = f (vnth a u) (vnth a v).
Proof. destruct a; reflexivity. Qed.

Lemma vec3_ext {A : Type} (u v : vec3 A) :
  (forall a, vnth a u = vnth a v) -> u = v.
Proof.
  intros H. destruct u as [u0 u1 u2], v as [v0 v1 v2].
  pose proof (H Ax0) as H0. pose proof (H Ax1) as H1. pose proof (H Ax2) as H2.
  simpl in *. congruence.
Qed.

Lemma vany_true (b : vec3 bool) : vany b = true <-> exists a, vnth a b = true.
Proof.
  unfold vany. split.
  - intros H. apply orb_true_iff in H as [H|H]; [apply orb_true_iff in H as [H|H]|].
    + exists Ax0; exact H.
    + exists Ax1; exact H.
    + exists Ax2; exact H.
  - intros [[] H]; simpl in H; rewrite H; rewrite ?orb_true_r; reflexivity.
Qed.

Lemma vany_false (b : vec3 bool) : vany b = false <-> forall a, vnth a b = false.
Proof.
  unfold vany. split.
  - intros H a. apply orb_false_iff in H as [H H2]. apply orb_false_iff in H as [H0 H1].
    destruct a; assumption.
  - intros H. rewrite (H Ax0 : ax0 b = false), (H Ax1 : ax1 b = false),
      (H Ax2 : ax2 b = false). reflexivity.
Qed.

Lemma vall_true (b : vec3 bool) : vall b = true <-> forall a, vnth a b = true.
Proof.
  unfold vall. split.
  - intros H a. apply andb_true_iff in H as [H H2]. apply andb_true_iff in H as [H0 H1].
    destruct a; assumption.
  - intros H. rewrite (H Ax0 : ax0 b = true), (H Ax1 : ax1 b = true),
      (H Ax2 : ax2 b = true). reflexivity.
Qed.

Lemma vnth_vadd (u v : vec3 Z) (a : axis) : vnth a (vadd u v) = vnth a u + vnth a v.
Proof. apply vnth_vmap2. Qed.

Lemma vnth_vsub (u v : vec3 Z) (a : axis) : vnth a (vsub u v) = vnth a u - vnth a v.
Proof. apply vnth_vmap2. Qed.

Lemma vnth_vmul (u v : vec3 Z) (a : axis) : vnth a (vmul u v) = vnth a u * vnth a v.
Proof. apply vnth_vmap2. Qed.

Lemma vnth_vneg (u : vec3 Z) (a : axis) : vnth a (vneg u) = - vnth a u.
Proof. apply vnth_vmap. Qed.

Lemma vnth_vb2z (b : vec3 bool) (a : axis) : vnth a (vb2z b) = Z.b2z (vnth a b).
Proof. apply vnth_vmap. Qed.

Create Rewrite HintDb vnth.
#[export] Hint Rewrite @vnth_vmap @vnth_vmap2 vnth_vadd vnth_vsub vnth_vmul vnth_vneg
  vnth_vb2z : vnth.

(** ** Exact division, ceiling and comparison *)

Lemma true_div_pos (a : Z) (p : positive) : (true_div a (Z.pos p) == a # p)%Q.
Proof. unfold true_div, Qdiv, Qinv, Qmult, Qeq, inject_Z. simpl. lia. Qed.

Lemma Qceiling_unique (x : Q) (z : Z) :
  (inject_Z (z - 1) < x)%Q -> (x <= inject_Z z)%Q -> Qceiling x = z.
Proof.
  intros Hlo Hhi.
  pose proof (Qle_ceiling x) as H1. pose proof (Qceiling_lt x) as H2.
  assert (A : (inject_Z (z - 1) < inject_Z (Qceiling x))%Q)
    by (eapply Qlt_le_trans; eauto).
  assert (B : (inject_Z (Qceiling x - 1) < inject_Z z)%Q)
    by (eapply Qlt_le_trans; eauto).
  rewrite <- Zlt_Qlt in A, B. lia.
Qed.

Lemma Qceiling_plus_1 (x : Q) : Qceiling (x + 1) = Qceiling x + 1.
Proof.
  apply Qceiling_unique.
  - replace (Qceiling x + 1 - 1) with (Qceiling x - 1 + 1) by lia.
    rewrite inject_Z_plus.
    apply Qplus_lt_le_compat; [apply Qceiling_lt | apply Qle_refl].
  - rewrite inject_Z_plus.
    apply Qplus_le_compat; [apply Qle_ceiling | apply Qle_refl].
Qed.

(** The ceiling of a quotient by a positive divisor, in integer terms. *)
Lemma Qceiling_true_div_spec (a b : Z) :
  0 < b ->
  (Qceiling (true_div a b) - 1) * b < a <= Qceiling (true_div a b) * b.
Proof.
  intros Hb. destruct b as [|p|p]; try lia.
  rewrite (Qceiling_comp _ _ (true_div_pos a p)).
  pose proof (Qle_ceiling (a # p)) as H1. pose proof (Qceiling_lt (a # p)) as H2.
  unfold Qle, Qlt, inject_Z in H1, H2. simpl in H1, H2. lia.
Qed.

Lemma Qceiling_true_div_exact (n b : Z) : b <> 0 -> Qceiling (true_div (b * n) b) = n.
Proof.
  intros Hb. unfold true_div.
  rewrite <- (Qceiling_Z n) at 2. apply Qceiling_comp.
  rewrite inject_Z_mult. rewrite Qmult_comm. apply Qdiv_mult_l.
  intros E. apply Hb. unfold Qeq, inject_Z in E. simpl in E. lia.
Qed.

Lemma Qltb_true_div (o p num : Z) (den : positive) :
  0 < p -> Qltb (true_div o p) (num # den) = (o * Z.pos den <? num * p).
Proof.
  intros Hp. destruct p as [|p|p]; try lia. unfold Qltb.
  rewrite (Qleb_comp _ _ (Qeq_refl (num # den)) _ _ (true_div_pos o p)).
  unfold Qle_bool. simpl.
  destruct (Z.leb_spec (num * Z.pos p) (o * Z.pos den));
    destruct (Z.ltb_spec (o * Z.pos den) (num * Z.pos p)); simpl; try reflexivity; lia.
Qed.

(** [np.ceil(overflow/2)] *)
Lemma Qceiling_half (o : Z) : 2 * Qceiling (true_div o 2) - 1 <= o <= 2 * Qceiling (true_div o 2).
Proof. pose proof (Qceiling_true_div_spec o 2 ltac:(lia)). lia. Qed.

(** ** Step 2 and step 3 of the planner, on one axis *)

Section OneAxis.

Variables image patch overlap : Z.
Hypothesis stride_positive : overlap < patch.

Let eff := patch - overlap.
Let n0 := Qceiling (true_div (image - patch) eff + 1).
Let ov0 := eff * n0 - image + overlap.

Lemma n_patches_spec : eff * (n0 - 2) < image - patch <= eff * (n0 - 1).
Proof.
  subst n0. rewrite Qceiling_plus_1.
  pose proof (Qceiling_true_div_spec (image - patch) eff ltac:(subst eff; lia)). nia.
Qed.

Lemma overflow_range : 0 <= ov0 < eff.
Proof. pose proof n_patches_spec. subst ov0 eff. nia. Qed.

Lemma n_patches_positive : overlap < image -> 1 <= n0.
Proof. intros H. pose proof n_patches_spec. subst eff. nia. Qed.

Lemma n_patches_nonpositive : image <= overlap -> n0 <= 0.
Proof. intros H. pose proof n_patches_spec. subst eff. nia. Qed.

End OneAxis.

(** ** The [while extra_patch.any()] loops *)

Lemma below_fraction_axiswise (patch : vec3 Z) (f : Q) :
  axiswise (below_fraction patch f) (fun a o => Qltb (true_div o (vnth a patch)) f).
Proof. intros ov a. unfold below_fraction. autorewrite with vnth. reflexivity. Qed.

Lemma below_overlap_axiswise (overlap : vec3 Z) :
  axiswise (below_overlap overlap) (fun a o => o <? vnth a overlap).
Proof. intros ov a. unfold below_overlap. autorewrite with vnth. reflexivity. Qed.

(** What a finished loop did on each axis: it added the stride [k] times,
    stopped with the condition false, and (if it added at all) the condition
    held one stride earlier. *)
Lemma extra_patch_loop_Ok (cond : vec3 Z -> vec3 bool) (c : axis -> Z -> bool)
    (eff : vec3 Z) :
  axiswise cond c ->
  forall fuel ov n ov' n',
    extra_patch_loop fuel cond eff ov n = Ok (ov', n') ->
    forall a,
      c a (vnth a ov') = false /\
      exists k : Z,
        0 <= k /\ vnth a ov' = vnth a ov + k * vnth a eff /\
        vnth a n' = vnth a n + k /\
        (k = 0 \/ c a (vnth a ov' - vnth a eff) = true).
Proof.
  intros Hc. induction fuel as [|fuel IH]; intros ov n ov' n' H a; simpl in H.
  - discriminate.
  - destruct (vany (cond ov)) eqn:E.
    + destruct (IH _ _ _ _ H a) as [Hstop (k & Hk & Hov & Hn & Hprev)].
      split; [exact Hstop|].
      autorewrite with vnth in Hov, Hn. rewrite Hc in Hov, Hn.
      destruct (c a (vnth a ov)) eqn:Ea; simpl in Hov, Hn.
      * exists (k + 1). repeat split; try lia.
        right. destruct Hprev as [->|Hprev]; [|exact Hprev].
        replace (vnth a ov' - vnth a eff) with (vnth a ov) by lia. exact Ea.
      * exists k. repeat split; try lia. exact Hprev.
    + inversion H; subst. split.
      * rewrite <- Hc. apply vany_false. exact E.
      * exists 0. repeat split; lia.
Qed.

(** With a positive stride on every axis the loop ends: each round brings
    every axis still below its bound at least one voxel closer. *)
Lemma extra_patch_loop_terminates (cond : vec3 Z -> vec3 bool) (c : axis -> Z -> bool)
    (eff bound : vec3 Z) :
  axiswise cond c ->
  (forall a, 0 < vnth a eff) ->
  (forall a o, c a o = true -> o < vnth a bound) ->
  forall fuel ov n,
    slack bound ov < Z.of_nat fuel ->
    exists r, extra_patch_loop fuel cond eff ov n = Ok r.
Proof.
  intros Hc Heff Hb. induction fuel as [|fuel IH]; intros ov n Hfuel.
  - unfold slack in Hfuel. lia.
  - simpl. destruct (vany (cond ov)) eqn:E; [|eauto].
    apply IH.
    assert (Hstep : forall a,
      (vnth a (cond ov) = true ->
         Z.max 0 (vnth a bound - vnth a (vadd ov (vmul (vb2z (cond ov)) eff)))
         < Z.max 0 (vnth a bound - vnth a ov)) /\
      Z.max 0 (vnth a bound - vnth a (vadd ov (vmul (vb2z (cond ov)) eff)))
         <= Z.max 0 (vnth a bound - vnth a ov)).
    { intros a. autorewrite with vnth. pose proof (Heff a) as He.
      destruct (vnth a (cond ov)) eqn:Ea; simpl.
      - rewrite Hc in Ea. apply Hb in Ea. split; [intros _|]; nia.
      - split; [discriminate|]. lia. }
    apply vany_true in E as [a Ea].
    pose proof (Hstep Ax0) as [S0 L0]. pose proof (Hstep Ax1) as [S1 L1].
    pose proof (Hstep Ax2) as [S2 L2]. unfold slack in *. simpl in *.
    destruct a; simpl in Ea;
      [specialize (S0 Ea) | specialize (S1 Ea) | specialize (S2 Ea)]; lia.
Qed.

(** ** The grid *)

Lemma grid_axis_In (start step size x : Z) :
  In x (grid_axis start step size) <->
  exists k : Z, 0 <= k < size /\ x = k * step + start.
Proof.
  unfold grid_axis. rewrite in_map_iff. split.
  - intros (i & <- & Hi). apply in_seq in Hi. exists (Z.of_nat i). split; [lia|reflexivity].
  - intros (k & Hk & ->). exists (Z.to_nat k). split.
    + rewrite Z2Nat.id by lia. reflexivity.
    + apply in_seq. lia.
Qed.

Lemma grid_axis_length (start step size : Z) :
  length (grid_axis start step size) = Z.to_nat size.
Proof. unfold grid_axis. rewrite length_map, length_seq. reflexivity. Qed.

Lemma grid_size_stride (start step n : Z) :
  step <> 0 -> grid_size start (start + step * n) step = n.
Proof.
  intros H. unfold grid_size.
  replace (start + step * n - start) with (step * n) by lia.
  apply Qceiling_true_div_exact. exact H.
Qed.

Lemma length_flat_map_const {A B : Type} (f : A -> list B) (m : nat) (l : list A) :
  (forall x, length (f x) = m) -> length (flat_map f l) = (length l * m)%nat.
Proof.
  intros H. induction l as [|x l IH]; simpl; [reflexivity|].
  rewrite length_app, H, IH. reflexivity.
Qed.

Lemma mgrid3_Ok (start stop step : vec3 Z) (l : list (vec3 Z)) :
  mgrid3 start stop step = Ok l ->
  (forall a, vnth a step <> 0) /\
  (forall a, 0 <= vnth a (grid_sizes start stop step)) /\
  (forall p, In p l <->
     forall a, In (vnth a p)
                 (grid_axis (vnth a start) (vnth a step)
                    (vnth a (grid_sizes start stop step)))) /\
  length l = (Z.to_nat (ax0 (grid_sizes start stop step))
              * (Z.to_nat (ax1 (grid_sizes start stop step))
                 * Z.to_nat (ax2 (grid_sizes start stop step))))%nat.
Proof.
  unfold mgrid3. fold (grid_sizes start stop step).
  destruct (vany (vmap (Z.eqb 0) step)) eqn:E0; [discriminate|].
  destruct (vany (vmap (fun s => s <? 0) (grid_sizes start stop step))) eqn:E1;
    [discriminate|].
  intros H. inversion H; subst l; clear H.
  split; [|split; [|split]].
  - intros a E. pose proof (proj1 (vany_false _) E0 a) as Ha.
    rewrite vnth_vmap in Ha. apply Z.eqb_neq in Ha. congruence.
  - intros a. pose proof (proj1 (vany_false _) E1 a) as Ha.
    rewrite vnth_vmap in Ha. apply Z.ltb_ge in Ha. exact Ha.
  - intros p. split.
    + intros Hp a. apply in_flat_map in Hp as (x & Hx & Hp).
      apply in_flat_map in Hp as (y & Hy & Hp).
      apply in_map_iff in Hp as (z & <- & Hz). destruct a; assumption.
    + intros Hp. destruct p as [x y z].
      apply in_flat_map. exists x. split; [exact (Hp Ax0)|].
      apply in_flat_map. exists y. split; [exact (Hp Ax1)|].
      apply in_map_iff. exists z. split; [reflexivity|exact (Hp Ax2)].
  - rewrite (length_flat_map_const _
               (Z.to_nat (ax1 (grid_sizes start stop step))
                * Z.to_nat (ax2 (grid_sizes start stop step)))).
    + rewrite grid_axis_length. reflexivity.
    + intros x. rewrite (length_flat_map_const _
               (Z.to_nat (ax2 (grid_sizes start stop step)))).
      * rewrite grid_axis_length. reflexivity.
      * intros y. rewrite length_map, grid_axis_length. reflexivity.
Qed.

(** ** The planner, axis by axis *)

Lemma vnth_initial_n_patches (image patch eff : vec3 Z) (a : axis) :
  vnth a (initial_n_patches image patch eff)
  = Qceiling (true_div (vnth a image - vnth a patch) (vnth a eff) + 1).
Proof. unfold initial_n_patches. autorewrite with vnth. reflexivity. Qed.

Lemma vnth_initial_overflow (image eff n overlap : vec3 Z) (a : axis) :
  vnth a (initial_overflow image eff n overlap)
  = vnth a eff * vnth a n - vnth a image + vnth a overlap.
Proof. unfold initial_overflow. autorewrite with vnth. reflexivity. Qed.

Lemma random_choice_Ok (n : Z) (g : rng) (r : Z) (g' : rng) :
  random_choice n g = Ok (r, g') -> 0 <= r < n /\ r = g O mod n /\ g' = (fun k => g (S k)).
Proof.
  unfold random_choice. destruct (Z.leb_spec n 0); [discriminate|].
  intros Hr. inversion Hr; subst. split; [apply Z.mod_pos_bound; lia|auto].
Qed.

Lemma random_offsets_Ok (m : vec3 Z) (g : rng) (r : vec3 Z) (g' : rng) :
  random_offsets m g = Ok (r, g') -> forall a, 0 <= vnth a r <= vnth a m.
Proof.
  unfold random_offsets. intros H.
  destruct (random_choice (ax0 m + 1) g) as [[r0 g0]|] eqn:E0; [simpl in H|discriminate].
  destruct (random_choice (ax1 m + 1) g0) as [[r1 g1]|] eqn:E1; [simpl in H|discriminate].
  destruct (random_choice (ax2 m + 1) g1) as [[r2 g2]|] eqn:E2; [simpl in H|discriminate].
  inversion H; subst.
  apply random_choice_Ok in E0 as [? _].
  apply random_choice_Ok in E1 as [? _].
  apply random_choice_Ok in E2 as [? _].
  intros []; simpl; lia.
Qed.

Lemma random_offsets_total (m : vec3 Z) (g : rng) :
  (forall a, 0 <= vnth a m) -> exists r g', random_offsets m g = Ok (r, g').
Proof.
  intros H. pose proof (H Ax0) as H0. pose proof (H Ax1) as H1. pose proof (H Ax2) as H2.
  simpl in *. unfold random_offsets, random_choice.
  destruct (Z.leb_spec (ax0 m + 1) 0); [lia|]. simpl.
  destruct (Z.leb_spec (ax1 m + 1) 0); [lia|]. simpl.
  destruct (Z.leb_spec (ax2 m + 1) 0); [lia|]. simpl. eauto.
Qed.

(** The unfolding of a successful planning call. *)
Lemma calc_patch_indices_Ok (fuel : nat) (image patch overlap : vec3 Z) (rand : bool)
    (f : Q) (g : rng) (l : list (vec3 Z)) (ov : vec3 Z) (g' : rng) :
  calc_patch_indices fuel image patch overlap rand f g = Ok (l, ov, g') ->
  let eff := vsub patch overlap in
  let n0 := initial_n_patches image patch eff in
  let ov0 := initial_overflow image eff n0 overlap in
  exists start n,
    (if rand then place_random fuel patch eff f ov0 n0 g
     else place_centred fuel overlap eff ov0 n0 g) = Ok (start, ov, n, g') /\
    mgrid3 start (vadd start (vmul eff n)) eff = Ok l.
Proof.
  intros H eff n0 ov0. unfold calc_patch_indices in H.
  fold eff in H. fold n0 in H. fold ov0 in H.
  destruct (vany (vmap (Z.eqb 0) eff)); [discriminate|].
  destruct (if rand then place_random fuel patch eff f ov0 n0 g
            else place_centred fuel overlap eff ov0 n0 g)
    as [[[[start ov1] n] g1]|] eqn:E; [|discriminate].
  simpl in H.
  destruct (mgrid3 start (vadd start (vmul eff n)) eff) as [grid|] eqn:Eg; [|discriminate].
  simpl in H. inversion H; subst. eauto.
Qed.

Lemma calc_patch_indices_plan (fuel : nat) (image patch overlap : vec3 Z) (rand : bool)
    (g : rng) (l : list (vec3 Z)) (ov : vec3 Z) (g' : rng) :
  geometry_ok patch overlap ->
  calc_patch_indices fuel image patch overlap rand default_minimum_overflow_fraction g
    = Ok (l, ov, g') ->
  exists start n,
    mgrid3 start (vadd start (vmul (vsub patch overlap) n)) (vsub patch overlap) = Ok l /\
    forall a, axis_plan rand (vnth a image) (vnth a patch) (vnth a overlap)
                (vnth a start) (vnth a n) (vnth a ov).
Proof.
  intros Hgeo H. apply calc_patch_indices_Ok in H as (start & n & Hplace & Hgrid).
  exists start, n. split; [exact Hgrid|]. clear Hgrid. intros a.
  pose proof (Hgeo a) as Ha.
  pose proof (overflow_range (vnth a image) (vnth a patch) (vnth a overlap) ltac:(lia)) as Hov0.
  pose proof (Qceiling_half
    ((vnth a patch - vnth a overlap)
     * Qceiling (true_div (vnth a image - vnth a patch) (vnth a patch - vnth a overlap) + 1)
     - vnth a image + vnth a overlap)) as Hhalf.
  destruct rand.
  - unfold place_random in Hplace.
    destruct (vany (vmap (Z.eqb 0) patch)); [discriminate|].
    destruct (extra_patch_loop _ _ _ _ _) as [[ov1 n1]|] eqn:Eloop; [|discriminate].
    simpl in Hplace.
    destruct (random_offsets ov1 g) as [[r g1]|] eqn:Er; [|discriminate].
    simpl in Hplace. inversion Hplace; subst; clear Hplace.
    pose proof (random_offsets_Ok _ _ _ _ Er a) as Hr.
    destruct (extra_patch_loop_Ok _ _ _ (below_fraction_axiswise patch _) _ _ _ _ _ Eloop a)
      as [Hstop (k & Hk & Hov & Hn & Hprev)].
    rewrite vnth_initial_overflow, vnth_initial_n_patches in Hov.
    rewrite vnth_initial_n_patches in Hn. autorewrite with vnth in Hov, Hn, Hprev.
    unfold default_minimum_overflow_fraction in Hstop, Hprev.
    rewrite Qltb_true_div in Hstop by lia. apply Z.ltb_ge in Hstop.
    assert (Hb : 4 * vnth a ov < 5 * vnth a patch).
    { destruct Hprev as [->|Hprev]; [lia|].
      rewrite Qltb_true_div in Hprev by lia. apply Z.ltb_lt in Hprev. lia. }
    autorewrite with vnth.
    constructor; try lia; try discriminate.
  - unfold place_centred in Hplace.
    destruct (extra_patch_loop _ _ _ _ _) as [[ov1 n1]|] eqn:Eloop; [|discriminate].
    simpl in Hplace. inversion Hplace; subst; clear Hplace.
    destruct (extra_patch_loop_Ok _ _ _ (below_overlap_axiswise overlap) _ _ _ _ _ Eloop a)
      as [Hstop (k & Hk & Hov & Hn & Hprev)].
    rewrite vnth_initial_overflow, vnth_initial_n_patches in Hov.
    rewrite vnth_initial_n_patches in Hn. autorewrite with vnth in Hov, Hn, Hprev.
    apply Z.ltb_ge in Hstop.
    assert (Hb : 4 * vnth a ov < 5 * vnth a patch /\ (vnth a overlap = 0 -> k = 0)).
    { destruct Hprev as [->|Hprev]; [lia|]. apply Z.ltb_lt in Hprev. nia. }
    autorewrite with vnth. rewrite vnth_initial_overflow, vnth_initial_n_patches.
    autorewrite with vnth.
    assert (Hke : 0 <= k * (vnth a patch - vnth a overlap)) by nia.
    constructor; try lia; try discriminate.
Qed.

Lemma grid_sizes_stride (start step n : vec3 Z) :
  (forall a, vnth a step <> 0) ->
  grid_sizes start (vadd start (vmul step n)) step = n.
Proof.
  intros H. apply vec3_ext. intros a.
  pose proof (grid_size_stride (vnth a start) (vnth a step) (vnth a n) (H a)) as E.
  destruct a; simpl in *; exact E.
Qed.

Lemma nonzero_guard (v : vec3 Z) :
  vany (vmap (Z.eqb 0) v) = false <-> forall a, vnth a v <> 0.
Proof.
  rewrite vany_false. split; intros H a; specialize (H a); rewrite vnth_vmap in *.
  - apply Z.eqb_neq in H. congruence.
  - apply Z.eqb_neq. congruence.
Qed.

Lemma mgrid3_total (start step n : vec3 Z) :
  (forall a, vnth a step <> 0) ->
  (forall a, 0 <= vnth a n) ->
  exists l, mgrid3 start (vadd start (vmul step n)) step = Ok l.
Proof.
  intros Hs Hn. unfold mgrid3.
  fold (grid_sizes start (vadd start (vmul step n)) step).
  rewrite (proj2 (nonzero_guard step) Hs), (grid_sizes_stride _ _ _ Hs).
  replace (vany (vmap (fun s => s <? 0) n)) with false; [eauto|].
  symmetry. apply vany_false. intros a. rewrite vnth_vmap. apply Z.ltb_ge. apply Hn.
Qed.

Lemma mgrid3_stride_sizes (start step n : vec3 Z) (l : list (vec3 Z)) :
  mgrid3 start (vadd start (vmul step n)) step = Ok l ->
  (forall a, vnth a step <> 0) /\ (forall a, 0 <= vnth a n) /\
  (forall p, In p l <->
     forall a, exists k, 0 <= k < vnth a n /\ vnth a p = k * vnth a step + vnth a start) /\
  length l = (Z.to_nat (ax0 n) * (Z.to_nat (ax1 n) * Z.to_nat (ax2 n)))%nat.
Proof.
  intros H. apply mgrid3_Ok in H as (Hs & Hn & Hin & Hlen).
  rewrite (grid_sizes_stride _ _ _ Hs) in Hn, Hin, Hlen.
  repeat split; try assumption.
  - intros Hp a. apply grid_axis_In. apply Hin. exact Hp.
  - intros Hp. apply Hin. intros a. apply grid_axis_In. apply Hp.
Qed.

(** Whether a planning call succeeds, and the overflow it returns, do not
    depend on the random draws. *)
Lemma calc_patch_indices_rng_indep (fuel : nat) (image patch overlap : vec3 Z)
    (rand : bool) (f : Q) (g1 g2 : rng) (l1 : list (vec3 Z)) (ov : vec3 Z) (g1' : rng) :
  calc_patch_indices fuel image patch overlap rand f g1 = Ok (l1, ov, g1') ->
  exists l2 g2', calc_patch_indices fuel image patch overlap rand f g2 = Ok (l2, ov, g2').
Proof.
  intros H. pose proof H as H'. apply calc_patch_indices_Ok in H' as (start & n & Hplace & Hgrid).
  unfold calc_patch_indices in *.
  destruct (vany (vmap (Z.eqb 0) (vsub patch overlap))); [discriminate|].
  apply mgrid3_stride_sizes in Hgrid as (Hs & Hn & _).
  destruct rand.
  - unfold place_random in *.
    destruct (vany (vmap (Z.eqb 0) patch)); [discriminate|].
    destruct (extra_patch_loop _ _ _ _ _) as [[ov1 n1]|]; [|discriminate].
    simpl in *.
    destruct (random_offsets ov1 g1) as [[r1 g1'']|] eqn:Er; [|discriminate].
    simpl in Hplace. inversion Hplace; subst; clear Hplace.
    destruct (random_offsets_total ov g2) as (r2 & g2' & Er2).
    { intros a. pose proof (random_offsets_Ok _ _ _ _ Er a). lia. }
    rewrite Er2. simpl.
    destruct (mgrid3_total (vneg r2) (vsub patch overlap) n Hs Hn) as [l2 Hl2].
    rewrite Hl2. simpl. eauto.
  - unfold place_centred in *.
    destruct (extra_patch_loop _ _ _ _ _) as [[ov1 n1]|]; [|discriminate].
    simpl in *. inversion Hplace; subst; clear Hplace.
    destruct (mgrid3 _ _ _) as [l|]; [|discriminate].
    simpl in *. inversion H; subst. eauto.
Qed.

Lemma calc_patch_indices_overflow_det (fuel : nat) (image patch overlap : vec3 Z)
    (rand : bool) (f : Q) (g1 g2 : rng) l1 l2 ov1 ov2 g1' g2' :
  calc_patch_indices fuel image patch overlap rand f g1 = Ok (l1, ov1, g1') ->
  calc_patch_indices fuel image patch overlap rand f g2 = Ok (l2, ov2, g2') ->
  ov1 = ov2.
Proof.
  intros H1 H2.
  destruct (calc_patch_indices_rng_indep _ _ _ _ _ _ _ g2 _ _ _ H1) as (l & g & H).
  congruence.
Qed.

(** With valid geometry, enough fuel and a volume wider than the overlap on every
    axis, planning returns. *)
Lemma calc_patch_indices_total (fuel : nat) (image patch overlap : vec3 Z)
    (rand : bool) (g : rng) :
  geometry_ok patch overlap ->
  enough_fuel fuel (loop_bound rand patch overlap) ->
  (forall a, vnth a overlap < vnth a image) ->
  exists l ov g',
    calc_patch_indices fuel image patch overlap rand default_minimum_overflow_fraction g
    = Ok (l, ov, g').
Proof.
  intros Hgeo Hfuel Himg.
  set (eff := vsub patch overlap).
  set (n0 := initial_n_patches image patch eff).
  set (ov0 := initial_overflow image eff n0 overlap).
  assert (Heff : forall a, 0 < vnth a eff).
  { intros a. subst eff. rewrite vnth_vsub. specialize (Hgeo a). lia. }
  assert (Hov0 : forall a, 0 <= vnth a ov0 < vnth a eff).
  { intros a. subst ov0 n0 eff.
    rewrite vnth_initial_overflow, vnth_initial_n_patches, vnth_vsub.
    apply overflow_range. specialize (Hgeo a). lia. }
  assert (Hn0 : forall a, 1 <= vnth a n0).
  { intros a. subst n0 eff. rewrite vnth_initial_n_patches, vnth_vsub.
    apply n_patches_positive; [specialize (Hgeo a); lia | apply Himg]. }
  assert (Hslack : slack (loop_bound rand patch overlap) ov0 < Z.of_nat fuel).
  { unfold slack, enough_fuel in *.
    pose proof (Hov0 Ax0). pose proof (Hov0 Ax1). pose proof (Hov0 Ax2).
    pose proof (Hgeo Ax0). pose proof (Hgeo Ax1). pose proof (Hgeo Ax2).
    destruct rand; simpl in *; lia. }
  unfold calc_patch_indices. fold eff. fold n0. fold ov0.
  replace (vany (vmap (Z.eqb 0) eff)) with false
    by (symmetry; apply nonzero_guard; intros a; specialize (Heff a); lia).
  destruct rand.
  - unfold place_random.
    replace (vany (vmap (Z.eqb 0) patch)) with false
      by (symmetry; apply nonzero_guard; intros a; specialize (Hgeo a); lia).
    destruct (extra_patch_loop_terminates _ _ eff patch
                (below_fraction_axiswise patch default_minimum_overflow_fraction)
                Heff) with (fuel := fuel) (ov := ov0) (n := n0) as [[ov n] Hloop].
    + intros a o Ho. unfold default_minimum_overflow_fraction in Ho.
      specialize (Hgeo a). rewrite Qltb_true_div in Ho by lia.
      apply Z.ltb_lt in Ho. lia.
    + exact Hslack.
    + rewrite Hloop. simpl.
      pose proof (extra_patch_loop_Ok _ _ _
                    (below_fraction_axiswise patch default_minimum_overflow_fraction)
                    _ _ _ _ _ Hloop) as Hax.
      destruct (random_offsets_total ov g) as (r & g' & Hr).
      { intros a. destruct (Hax a) as [_ (k & Hk & Hov & _)].
        specialize (Hov0 a). specialize (Heff a). nia. }
      rewrite Hr. simpl.
      destruct (mgrid3_total (vneg r) eff n) as [l Hl].
      * intros a. specialize (Heff a). lia.
      * intros a. destruct (Hax a) as [_ (k & Hk & _ & Hn & _)]. specialize (Hn0 a). lia.
      * rewrite Hl. simpl. eauto.
  - unfold place_centred.
    destruct (extra_patch_loop_terminates _ _ eff overlap
                (below_overlap_axiswise overlap) Heff)
      with (fuel := fuel) (ov := ov0) (n := n0) as [[ov n] Hloop].
    + intros a o Ho. apply Z.ltb_lt in Ho. exact Ho.
    + exact Hslack.
    + rewrite Hloop. simpl.
      pose proof (extra_patch_loop_Ok _ _ _ (below_overlap_axiswise overlap)
                    _ _ _ _ _ Hloop) as Hax.
      destruct (mgrid3_total
                  (vneg (vmap Qceiling (vmap (fun o => true_div o 2) ov0))) eff n)
        as [l Hl].
      * intros a. specialize (Heff a). lia.
      * intros a. destruct (Hax a) as [_ (k & Hk & _ & Hn & _)]. specialize (Hn0 a). lia.
      * rewrite Hl. simpl. eauto.
Qed.

(** Every placement of a plan, shifted by the overflow, lies inside the volume
    extended by the overflow on both sides. *)
Lemma calc_patch_indices_bounds (fuel : nat) (image patch overlap : vec3 Z) (rand : bool)
    (g : rng) (l : list (vec3 Z)) (ov : vec3 Z) (g' : rng) :
  geometry_ok patch overlap ->
  calc_patch_indices fuel image patch overlap rand default_minimum_overflow_fraction g
    = Ok (l, ov, g') ->
  (forall a, 0 <= vnth a ov /\ 4 * vnth a ov < 5 * vnth a patch) /\
  forall p, In p l ->
    forall a, - vnth a ov <= vnth a p /\ vnth a p + vnth a patch <= vnth a image + vnth a ov.
Proof.
  intros Hgeo H. destruct (calc_patch_indices_plan _ _ _ _ _ _ _ _ _ Hgeo H)
    as (start & n & Hgrid & Hplan).
  apply mgrid3_stride_sizes in Hgrid as (_ & _ & Hin & _). split.
  - intros a. destruct (Hplan a). lia.
  - intros p Hp a. destruct (proj1 (Hin p) Hp a) as (k & Hk & Hpa).
    destruct (Hplan a) as [H0 H1 H2 _ _ _ _ _]. specialize (Hgeo a).
    rewrite vnth_vsub in Hpa. nia.
Qed.

(** ** Python indexing *)

Lemma py_index_nat {A : Type} (l : list A) (i : nat) (x : A) :
  py_index l (Z.of_nat i) = Ok x <-> l !! i = Some x.
Proof.
  unfold py_index.
  assert (E : (Z.of_nat i <? 0) = false) by (apply Z.ltb_ge; lia).
  rewrite !E, Nat2Z.id, orb_false_l.
  destruct (Z.leb_spec (Z.of_nat (length l)) (Z.of_nat i)).
  - split; [discriminate|]. intros Hx. apply lookup_lt_Some in Hx. lia.
  - destruct (l !! i); split; congruence.
Qed.

Lemma py_index_in_range {A : Type} (l : list A) (i : Z) :
  0 <= i < Z.of_nat (length l) ->
  exists x, py_index l i = Ok x /\ l !! Z.to_nat i = Some x.
Proof.
  intros Hi. destruct (lookup_lt_is_Some_2 l (Z.to_nat i)) as [x Hx]; [lia|].
  exists x. split; [|exact Hx].
  rewrite <- (Z2Nat.id i) by lia. apply py_index_nat. exact Hx.
Qed.

Lemma py_index_beyond {A : Type} (l : list A) (i : Z) :
  Z.of_nat (length l) <= i -> py_index l i = Raise IndexError.
Proof.
  intros Hi. unfold py_index.
  assert (E : (i <? 0) = false) by (apply Z.ltb_ge; lia).
  rewrite !E. destruct (Z.leb_spec (Z.of_nat (length l)) i); [|lia].
  reflexivity.
Qed.

(** ** The 16-bit conversion *)

Lemma wrap_int16_fits (x : Z) : fits_int16 x -> wrap_int16 x = x.
Proof.
  unfold fits_int16, wrap_int16. intros H.
  rewrite Z.mod_small by lia. lia.
Qed.

Lemma wrap_int16_range (x : Z) : fits_int16 (wrap_int16 x).
Proof.
  unfold fits_int16, wrap_int16.
  pose proof (Z.mod_pos_bound (x + 32768) 65536 ltac:(lia)). lia.
Qed.

Lemma wrap_int16_congruent (x : Z) : exists q : Z, wrap_int16 x = x + q * 65536.
Proof.
  unfold wrap_int16. exists (- ((x + 32768) / 65536)).
  pose proof (Z.div_mod (x + 32768) 65536 ltac:(lia)). lia.
Qed.

(** ** Arrays *)

Section DatasetFacts.

Context {V : Type}.
Variable astype_int64 : V -> V.
Variable fuel : nat.

Local Abbreviation array := (@ndarray V).
Local Abbreviation dataset := (@MRISegmentation V).

Lemma array_eq_refl (a : array) : array_eq a a.
Proof. split; [reflexivity|auto]. Qed.

Lemma inside_offset (lo len i : Z) : 0 <= i < len -> inside lo len (lo + i) = true.
Proof.
  intros H. unfold inside. apply andb_true_iff. split; [apply Z.leb_le|apply Z.ltb_lt]; lia.
Qed.

Lemma np_pad_Ok (a : array) (pw : pad_table) (mode : pad_rule) (c : V) (a' : array) :
  np_pad a pw mode c = Ok a' ->
  (forall x, 0 <= fst (vnth x pw) /\ 0 <= snd (vnth x pw)) /\
  shape a' = vadd (vadd (column0 pw) (shape a)) (column1 pw) /\
  forall i j k,
    0 <= i < ax0 (shape a) -> 0 <= j < ax1 (shape a) -> 0 <= k < ax2 (shape a) ->
    voxel a' (ax0 (column0 pw) + i) (ax1 (column0 pw) + j) (ax2 (column0 pw) + k)
    = voxel a i j k.
Proof.
  unfold np_pad.
  destruct (vany (vmap (fun p : Z * Z => (fst p <? 0) || (snd p <? 0)) pw)) eqn:E;
    [discriminate|].
  destruct mode; [|discriminate].
  intros H. inversion H; subst a'; clear H. cbn [shape voxel].
  split; [|split; [reflexivity|]].
  - intros x. pose proof (proj1 (vany_false _) E x) as Hx. rewrite vnth_vmap in Hx.
    apply orb_false_iff in Hx as [H1 H2]. apply Z.ltb_ge in H1, H2. lia.
  - intros i j k Hi Hj Hk. rewrite !inside_offset by assumption. simpl.
    f_equal; lia.
Qed.

Lemma slice_axis_inside (start stop len : Z) :
  0 <= start <= stop -> stop <= len -> slice_axis start stop len = (start, stop - start).
Proof.
  intros H1 H2. unfold slice_axis, slice_bound.
  destruct (Z.ltb_spec start 0); [lia|]. destruct (Z.ltb_spec stop 0); [lia|].
  f_equal; lia.
Qed.

(** A slice whose bounds lie inside the array has extent [stop - start] and
    reads the array from [start]. *)
Lemma slice3_inside (arr : array) (start stop : vec3 Z) :
  (forall x, 0 <= vnth x start <= vnth x stop /\ vnth x stop <= vnth x (shape arr)) ->
  shape (slice3 arr start stop) = vsub stop start /\
  forall i j k,
    voxel (slice3 arr start stop) i j k
    = voxel arr (ax0 start + i) (ax1 start + j) (ax2 start + k).
Proof.
  intros H.
  pose proof (H Ax0) as [H0 H0']. pose proof (H Ax1) as [H1 H1'].
  pose proof (H Ax2) as [H2 H2']. cbn [vnth] in *.
  unfold slice3, vmap2, vmap. cbn [ax0 ax1 ax2 fst snd shape voxel].
  rewrite !slice_axis_inside by assumption. split; reflexivity.
Qed.

(** ** [initialize_patch_indices] *)

Lemma initialize_loop_spec (images : list array) :
  forall (i : nat) (self : dataset) (g : rng) (self' : dataset) (g' : rng),
    initialize_loop fuel images i self g = Ok (self', g') ->
    same_volumes self self' /\
    length (padding_boundary self') = length (padding_boundary self) /\
    (forall j, (j < i \/ i + length images <= j)%nat ->
               padding_boundary self' !! j = padding_boundary self !! j) /\
    (forall j, (i <= j < i + length images)%nat ->
       exists image ov,
         unpadded_data_shape self !! j = Some image /\
         planned_overflow fuel self image ov /\
         ((exists pw, padding_boundary self !! j = Some (Some pw) /\
                      padding_boundary self' !! j = Some (Some pw)) \/
          (padding_boundary self !! j = Some None /\
           padding_boundary self' !! j = Some (Some (stack_columns ov ov))))) /\
    exists rows,
      patch_indices self' = patch_indices self ++ rows /\
      forall row, In row rows ->
        (i <= fst row < i + length images)%nat /\
        exists image, unpadded_data_shape self !! fst row = Some image /\
                      planned_row fuel self image (snd row).
Proof.
  induction images as [|im images IH]; intros i self g self' g' H; simpl in H.
  - inversion H; subst. split; [unfold same_volumes; tauto|].
    split; [reflexivity|]. split; [reflexivity|]. split; [simpl; intros; lia|].
    exists []. split; [rewrite app_nil_r; reflexivity|]. intros row [].
  - destruct (py_index (unpadded_data_shape self) (Z.of_nat i)) as [image|] eqn:Eshape;
      [simpl in H|discriminate].
    apply py_index_nat in Eshape.
    destruct (calc_patch_indices fuel image (patch_shape self) (patch_overlap self)
                (randomize_patch_offsets self) default_minimum_overflow_fraction g)
      as [[[l ov] g1]|] eqn:Ecalc; [simpl in H|discriminate].
    destruct (py_index (padding_boundary self) (Z.of_nat i)) as [boundary|] eqn:Eb;
      [simpl in H|discriminate].
    apply py_index_nat in Eb.
    apply IH in H as (Hsame & Hlen & Hout & Hin & rows & Hrows & Hrow). clear IH.
    assert (Hsame' : same_volumes self self').
    { destruct boundary; unfold same_volumes in *; simpl in *; tauto. }
    assert (Hunp : forall x : dataset,
              unpadded_data_shape
                match boundary with
                | Some _ => set_patch_indices (patch_indices self ++ map (fun p => (i, p)) l) self
                | None => set_padding_boundary
                            (<[i := Some (stack_columns ov ov)]> (padding_boundary self))
                            (set_patch_indices (patch_indices self ++ map (fun p => (i, p)) l) self)
                end = unpadded_data_shape self).
    { intros _. destruct boundary; reflexivity. }
    split; [exact Hsame'|]. split; [|split; [|split]].
    + rewrite Hlen. destruct boundary; simpl; [reflexivity|]. apply length_insert.
    + intros j Hj. simpl in Hj. rewrite Hout by lia.
      destruct boundary; simpl; [reflexivity|].
      apply list_lookup_insert_ne. lia.
    + intros j Hj. simpl in Hj. destruct (Nat.eq_dec j i) as [->|Hne].
      * exists image, ov. split; [exact Eshape|]. split; [exists g, l, g1; exact Ecalc|].
        rewrite Hout by lia. destruct boundary as [pw|]; simpl.
        -- left. exists pw. split; assumption.
        -- right. split; [assumption|]. apply list_lookup_insert_eq.
           apply lookup_lt_Some in Eb. exact Eb.
      * destruct (Hin j) as (image' & ov' & Hs & Hp & Hcase); [lia|].
        exists image', ov'. rewrite Hunp in Hs by exact self. split; [exact Hs|].
        split.
        { destruct boundary; exact Hp. }
        destruct boundary as [pw|]; simpl in Hcase; [exact Hcase|].
        rewrite list_lookup_insert_ne in Hcase by lia. exact Hcase.
    + exists (map (fun p => (i, p)) l ++ rows). split.
      * rewrite Hrows. destruct boundary; simpl; rewrite app_assoc; reflexivity.
      * intros row Hr. apply in_app_or in Hr as [Hr|Hr].
        -- apply in_map_iff in Hr as (p & <- & Hp). simpl. split; [lia|].
           exists image. split; [exact Eshape|]. exists g, l, ov, g1. split; assumption.
        -- destruct (Hrow row Hr) as (Hi & image' & Hs & Hp). split; [simpl; lia|].
           exists image'. rewrite Hunp in Hs by exact self. split; [exact Hs|].
           destruct boundary; exact Hp.
Qed.

Lemma initialize_loop_total (images : list array) :
  forall (i : nat) (self : dataset) (g : rng),
    (forall j, (i <= j < i + length images)%nat ->
       (exists image ov, unpadded_data_shape self !! j = Some image /\
                         planned_overflow fuel self image ov) /\
       exists b, padding_boundary self !! j = Some b) ->
    exists self' g', initialize_loop fuel images i self g = Ok (self', g').
Proof.
  induction images as [|im images IH]; intros i self g H; simpl.
  - eauto.
  - destruct (H i) as [(image & ov & Hs & (g0 & l0 & g0' & Hp)) [b Hb]]; [simpl; lia|].
    rewrite (proj2 (py_index_nat _ _ _) Hs). simpl.
    destruct (calc_patch_indices_rng_indep _ _ _ _ _ _ _ g _ _ _ Hp) as (l & g1 & Hcalc).
    rewrite Hcalc. simpl.
    rewrite (proj2 (py_index_nat _ _ _) Hb). simpl.
    apply IH. intros j Hj. destruct (H j) as [Hplan [b' Hb']]; [simpl; lia|].
    destruct b; simpl; split; try exact Hplan; try (exists b'; exact Hb').
    exists b'. rewrite list_lookup_insert_ne by lia. exact Hb'.
Qed.

(** ** The padding pass *)

Lemma padding_loop_spec (images : list array) :
  forall (i : nat) (self self' : dataset),
    padding_loop astype_int64 images i self = Ok self' ->
    same_index self self' /\
    length (data self') = length (data self) /\
    length (labels self') = length (labels self) /\
    (forall j, (j < i \/ i + length images <= j)%nat ->
               data self' !! j = data self !! j /\ labels self' !! j = labels self !! j) /\
    (forall j, (i <= j < i + length images)%nat ->
       exists pw a b a' b',
         padding_boundary self !! j = Some (Some pw) /\
         data self !! j = Some a /\ labels self !! j = Some b /\
         np_pad a pw (pad_mode self) (pad_constant self) = Ok a' /\
         np_pad b pw (pad_mode self) (pad_constant self) = Ok b' /\
         data self' !! j = Some a' /\
         labels self' !! j = Some (astype astype_int64 b')).
Proof.
  induction images as [|im images IH]; intros i self self' H; simpl in H.
  - inversion H; subst. split; [unfold same_index; tauto|].
    split; [reflexivity|]. split; [reflexivity|]. split; [tauto|]. simpl; intros; lia.
  - destruct (py_index (padding_boundary self) (Z.of_nat i)) as [[pw|]|] eqn:Eb;
      [simpl in H|discriminate|discriminate].
    apply py_index_nat in Eb.
    destruct (py_index (data self) (Z.of_nat i)) as [a|] eqn:Ea; [simpl in H|discriminate].
    apply py_index_nat in Ea.
    destruct (np_pad a pw (pad_mode self) (pad_constant self)) as [a'|] eqn:Epa;
      [simpl in H|discriminate].
    destruct (py_index (labels self) (Z.of_nat i)) as [b|] eqn:El; [simpl in H|discriminate].
    apply py_index_nat in El.
    destruct (np_pad b pw (pad_mode self) (pad_constant self)) as [b'|] eqn:Epb;
      [simpl in H|discriminate].
    apply IH in H as (Hsame & Hld & Hll & Hout & Hin). clear IH. simpl in *.
    split; [unfold same_index in *; simpl in *; tauto|].
    split; [rewrite Hld; apply length_insert|].
    split; [rewrite Hll; apply length_insert|]. split.
    + intros j Hj. destruct (Hout j) as [Hd Hl]; [lia|]. rewrite Hd, Hl.
      split; apply list_lookup_insert_ne; lia.
    + intros j Hj. destruct (Nat.eq_dec j i) as [->|Hne].
      * exists pw, a, b, a', b'. destruct (Hout i) as [Hd Hl]; [lia|]. rewrite Hd, Hl.
        repeat split; try assumption.
        -- apply list_lookup_insert_eq. apply lookup_lt_Some in Ea. exact Ea.
        -- apply list_lookup_insert_eq. apply lookup_lt_Some in El. exact El.
      * destruct (Hin j) as (pw' & a0 & b0 & a0' & b0' & H1 & H2 & H3 & H4 & H5 & H6 & H7);
          [lia|].
        rewrite list_lookup_insert_ne in H2, H3 by lia.
        exists pw', a0, b0, a0', b0'. repeat split; assumption.
Qed.

(** ** The invariant of a constructed dataset *)

Local Abbreviation volume := (@loaded_volume V).

Lemma init_consistent (vols : list volume) (cc : list Z) (ps po : int_or_vec)
    (rand : bool) (mode : pad_rule) (c : V) (g : rng) (ds : dataset) (g' : rng) :
  init astype_int64 fuel vols cc ps po rand mode c g = Ok (ds, g') ->
  consistent astype_int64 fuel vols ds /\ configured ds (as_vec3 ps) (as_vec3 po) rand mode c.
Proof.
  unfold init. destruct (existsb squeezes vols); [discriminate|].
  set (self0 := {| patch_shape := as_vec3 ps; patch_overlap := as_vec3 po;
                   randomize_patch_offsets := rand; pad_mode := mode; pad_constant := c;
                   data := map signal_volume vols; labels := map label_volume vols;
                   unpadded_data_shape := map vol_shape vols;
                   padding_boundary := map (fun _ => None) vols;
                   patch_indices := []; class_count := cc |}).
  destruct (initialize_patch_indices fuel self0 g) as [[self1 g1]|] eqn:E1;
    [simpl|discriminate].
  destruct (padding_loop astype_int64 (data self1) 0 self1) as [self2|] eqn:E2;
    [simpl|discriminate].
  intros H. inversion H; subst; clear H.
  unfold initialize_patch_indices in E1.
  apply initialize_loop_spec in E1 as (Hsame & Hlen & _ & Hin & rows & Hrows & Hrow).
  subst self0. unfold same_volumes, same_index in *. simpl in Hsame, Hlen, Hin, Hrows, Hrow.
  destruct Hsame as (Hps & Hpo & Hr & Hm & Hc & Hd & Hl & Hu & _).
  apply padding_loop_spec in E2 as (Hsame2 & Hld & Hll & _ & Hin2).
  destruct Hsame2 as (Hps2 & Hpo2 & Hr2 & Hm2 & Hc2 & Hu2 & Hb2 & Hi2 & _).
  rewrite Hd in Hld, Hin2. rewrite Hl in Hll, Hin2. rewrite Hm, Hc in Hin2.
  rewrite length_map in *.
  split; [constructor|].
  - rewrite Hu2, Hu. reflexivity.
  - rewrite Hb2, Hlen. reflexivity.
  - exact Hld.
  - intros j vol Hj. pose proof (lookup_lt_Some _ _ _ Hj) as Hlt.
    destruct (Hin j) as (image & ov & Hs & Hp & Hcase); [lia|].
    rewrite list_lookup_fmap, Hj in Hs. simpl in Hs. inversion Hs; subst image; clear Hs.
    destruct Hcase as [(pw & Hnone & _)|[_ Hset]].
    { rewrite list_lookup_fmap, Hj in Hnone. discriminate. }
    destruct (Hin2 j) as (pw & a & b & a' & b' & H1 & H2 & H3 & H4 & H5 & H6 & H7); [lia|].
    rewrite Hset in H1. inversion H1; subst pw; clear H1.
    rewrite list_lookup_fmap, Hj in H2, H3. simpl in H2, H3.
    inversion H2; subst a. inversion H3; subst b.
    exists ov, a', b'. rewrite Hb2, Hm2, Hc2, Hm, Hc. repeat split; auto.
    destruct Hp as (g0 & l0 & g0' & Hp). exists g0, l0, g0'.
    rewrite Hps2, Hpo2, Hr2, Hps, Hpo, Hr. exact Hp.
  - intros row Hr0. rewrite Hi2, Hrows in Hr0.
    destruct (Hrow row Hr0) as (Hi & image & Hs & Hp).
    rewrite list_lookup_fmap in Hs.
    destruct (vols !! fst row) as [vol|] eqn:Ev; [|discriminate].
    simpl in Hs. inversion Hs; subst image. exists vol. split; [reflexivity|].
    destruct Hp as (g0 & l0 & ov0 & g0' & Hp). exists g0, l0, ov0, g0'.
    rewrite Hps2, Hpo2, Hr2, Hps, Hpo, Hr. exact Hp.
  - unfold configured. rewrite Hps2, Hpo2, Hr2, Hm2, Hc2, Hps, Hpo, Hr, Hm, Hc. tauto.
Qed.

Lemma column0_stack (low high : vec3 Z) : column0 (stack_columns low high) = low.
Proof. destruct low, high; reflexivity. Qed.

Lemma column1_stack (low high : vec3 Z) : column1 (stack_columns low high) = high.
Proof. destruct low, high; reflexivity. Qed.

(** Re-running index construction on a constructed dataset. *)
Lemma reinit_spec (vols : list volume) (ds : dataset) (g : rng) (ds' : dataset) (g' : rng) :
  consistent astype_int64 fuel vols ds ->
  initialize_patch_indices fuel ds g = Ok (ds', g') ->
  consistent astype_int64 fuel vols ds' /\ same_volumes ds ds' /\
  padding_boundary ds' = padding_boundary ds.
Proof.
  intros [Hshapes Hblen Hdlen Hvol Hrows] H. unfold initialize_patch_indices in H.
  apply initialize_loop_spec in H as (Hsame & Hlen & Hout & Hin & rows & Hr & Hrow).
  unfold same_volumes in *. simpl in Hsame, Hlen, Hout, Hin, Hr, Hrow.
  destruct Hsame as (Hps & Hpo & Hrd & Hm & Hc & Hd & Hl & Hu & Hcc).
  assert (Hpb : padding_boundary ds' = padding_boundary ds).
  { apply list_eq. intros j. destruct (lt_dec j (length (data ds))) as [Hj|Hj].
    - destruct (Hin j) as (image & ov & _ & _ & [(pw & H1 & H2)|[H1 _]]); [lia| |].
      + congruence.
      + destruct (lookup_lt_is_Some_2 vols j) as [vol Hv]; [lia|].
        destruct (Hvol j vol Hv) as (ov' & _ & _ & Hb & _). congruence.
    - apply Hout. lia. }
  split; [|split; [tauto|exact Hpb]]. constructor.
  - congruence.
  - congruence.
  - congruence.
  - intros j vol Hj. destruct (Hvol j vol Hj) as (ov & sig & lab & H1 & H2 & H3 & H4 & H5 & H6).
    exists ov, sig, lab. rewrite Hpb, Hm, Hc, Hd, Hl. repeat split; try assumption.
    destruct H2 as (g0 & l0 & g0' & H2). exists g0, l0, g0'. rewrite Hps, Hpo, Hrd. exact H2.
  - intros row Hin'. rewrite Hr in Hin'.
    destruct (Hrow row Hin') as (_ & image & Hs & (g0 & l0 & ov0 & g0' & Hp)).
    rewrite Hshapes, list_lookup_fmap in Hs.
    destruct (vols !! fst row) as [vol|] eqn:Ev; [|discriminate].
    simpl in Hs. inversion Hs; subst image. exists vol. split; [reflexivity|].
    exists g0, l0, ov0, g0'. rewrite Hps, Hpo, Hrd. exact Hp.
Qed.

Lemma reinit_total (vols : list volume) (ds : dataset) (g : rng) :
  consistent astype_int64 fuel vols ds ->
  exists ds' g', initialize_patch_indices fuel ds g = Ok (ds', g').
Proof.
  intros [Hshapes Hblen Hdlen Hvol Hrows]. unfold initialize_patch_indices.
  apply initialize_loop_total. simpl. intros j Hj.
  destruct (lookup_lt_is_Some_2 vols j) as [vol Hv]; [lia|].
  destruct (Hvol j vol Hv) as (ov & _ & _ & Hb & Hp & _). split.
  - exists (vol_shape vol), ov. split; [|exact Hp].
    rewrite Hshapes, list_lookup_fmap, Hv. reflexivity.
  - eauto.
Qed.

Lemma reachable_consistent vols cc ps po rand mode c ds :
  reachable astype_int64 fuel vols cc ps po rand mode c ds ->
  consistent astype_int64 fuel vols ds /\ configured ds (as_vec3 ps) (as_vec3 po) rand mode c.
Proof.
  induction 1 as [g ds g' H|ds g ds' g' _ [IH1 IH2] H].
  - exact (init_consistent vols cc ps po rand mode c g ds g' H).
  - destruct (reinit_spec _ _ _ _ _ IH1 H) as (Hc & Hs & _). split; [exact Hc|].
    unfold configured, same_volumes in *. intuition congruence.
Qed.

(** ** [__getitem__] *)

(** The local variables of a call that returned. *)
Lemma getitem_Ok (astype_float32 : V -> V) (ds : dataset) (index : Z) (item : patch_item) :
  getitem astype_float32 ds index = Ok item ->
  exists row image lab unpadded pw,
    py_index (patch_indices ds) index = Ok row /\
    data ds !! fst row = Some image /\
    labels ds !! fst row = Some lab /\
    unpadded_data_shape ds !! fst row = Some unpadded /\
    padding_boundary ds !! fst row = Some (Some pw) /\
    let start := vmap wrap_int16 (snd row) in
    let stop := vadd start (patch_shape ds) in
    item_dataset_index item = fst row /\
    item_patch_index item = (start, stop) /\
    item_patch_valid item
      = (vsub (clip0 unpadded start) start, vsub (clip0 unpadded stop) start) /\
    image_patch item
      = [astype astype_float32
           (slice3 image (vadd start (column0 pw)) (vadd stop (column0 pw)))] /\
    labels_patch item
      = [slice3 lab (vadd start (column0 pw)) (vadd stop (column0 pw))] /\
    shape (slice3 image (vadd start (column0 pw)) (vadd stop (column0 pw))) = patch_shape ds /\
    shape (slice3 lab (vadd start (column0 pw)) (vadd stop (column0 pw))) = patch_shape ds.
Proof.
  unfold getitem. intros H.
  destruct (py_index (patch_indices ds) index) as [row|] eqn:Er; [simpl in H|discriminate].
  destruct (py_index (data ds) (Z.of_nat (fst row))) as [image|] eqn:Ei;
    [simpl in H|discriminate].
  destruct (py_index (labels ds) (Z.of_nat (fst row))) as [lab|] eqn:El;
    [simpl in H|discriminate].
  destruct (py_index (unpadded_data_shape ds) (Z.of_nat (fst row))) as [unpadded|] eqn:Eu;
    [simpl in H|discriminate].
  destruct (py_index (padding_boundary ds) (Z.of_nat (fst row))) as [[pw|]|] eqn:Eb;
    [simpl in H|discriminate|discriminate].
  apply py_index_nat in Ei, El, Eu, Eb.
  unfold py_index in H. simpl in H.
  destruct (shape_matches _ _) eqn:S1 in H; [simpl in H|discriminate].
  destruct (shape_matches _ _) eqn:S2 in H; [simpl in H|discriminate].
  inversion H; subst item; clear H. simpl.
  exists row, image, lab, unpadded, pw. repeat split; try assumption.
  - unfold shape_matches in S1. apply vec3_ext. intros a.
    pose proof (proj1 (vall_true _) S1 a) as Ha. rewrite vnth_vmap2 in Ha.
    apply Z.eqb_eq in Ha. exact Ha.
  - unfold shape_matches in S2. apply vec3_ext. intros a.
    pose proof (proj1 (vall_true _) S2 a) as Ha. rewrite vnth_vmap2 in Ha.
    apply Z.eqb_eq in Ha. exact Ha.
Qed.

(** Every stored row of a constructed dataset comes with its volume, the
    overflow that fixed the padding, and the bounds of its placement. *)
Lemma consistent_row (vols : list volume) (ds : dataset) (row : index_row) :
  consistent astype_int64 fuel vols ds ->
  geometry_ok (patch_shape ds) (patch_overlap ds) ->
  In row (patch_indices ds) ->
  exists vol ov sig lab,
    vols !! fst row = Some vol /\
    unpadded_data_shape ds !! fst row = Some (vol_shape vol) /\
    padding_boundary ds !! fst row = Some (Some (stack_columns ov ov)) /\
    data ds !! fst row = Some sig /\
    labels ds !! fst row = Some lab /\
    shape sig = vadd (vadd ov (vol_shape vol)) ov /\
    shape lab = vadd (vadd ov (vol_shape vol)) ov /\
    forall a,
      0 <= vnth a ov /\ 4 * vnth a ov < 5 * vnth a (patch_shape ds) /\
      - vnth a ov <= vnth a (snd row) /\
      vnth a (snd row) + vnth a (patch_shape ds) <= vnth a (vol_shape vol) + vnth a ov.
Proof.
  intros [Hshapes Hblen Hdlen Hvol Hrows] Hgeo Hin.
  destruct (Hrows row Hin) as (vol & Hv & (g & l & ov' & g' & Hcalc & Hp)).
  destruct (Hvol _ _ Hv) as (ov & sig & lab & Hb & (g0 & l0 & g0' & Hplan) & Hps & Hd & Hpl & Hl).
  assert (ov' = ov) by (eapply calc_patch_indices_overflow_det; eauto). subst ov'.
  destruct (calc_patch_indices_bounds _ _ _ _ _ _ _ _ _ Hgeo Hcalc) as [Hov Hbounds].
  apply np_pad_Ok in Hps as (_ & Hss & _). apply np_pad_Ok in Hpl as (_ & Hsl & _).
  rewrite column0_stack, column1_stack in Hss, Hsl.
  exists vol, ov, sig, (astype astype_int64 lab). repeat split; try assumption.
  - rewrite Hshapes, list_lookup_fmap, Hv. reflexivity.
  - apply Hov.
  - apply Hov.
  - apply (Hbounds _ Hp a).
  - apply (Hbounds _ Hp a).
Qed.

Lemma consistent_row_fits (vols : list volume) (ds : dataset) (row : index_row) :
  consistent astype_int64 fuel vols ds ->
  geometry_ok (patch_shape ds) (patch_overlap ds) ->
  volumes_fit vols (patch_shape ds) ->
  In row (patch_indices ds) ->
  forall a, fits_int16 (vnth a (snd row)).
Proof.
  intros Hc Hgeo Hfit Hin a.
  destruct (consistent_row _ _ _ Hc Hgeo Hin) as (vol & ov & _ & _ & Hv & _ & _ & _ & _ & _ & _ & H).
  apply list_elem_of_lookup_2, list_elem_of_In in Hv.
  specialize (Hfit vol Hv a). specialize (H a). specialize (Hgeo a).
  unfold fits_int16. lia.
Qed.

Lemma shape_matches_true (x : array) (p : vec3 Z) : shape x = p -> shape_matches x p = true.
Proof.
  intros <-. unfold shape_matches. apply vall_true. intros a.
  rewrite vnth_vmap2. apply Z.eqb_refl.
Qed.

Lemma py_index_singleton {A : Type} (x : A) : py_index [x] 0 = Ok x.
Proof. reflexivity. Qed.

(** An in-range access whose stored start fits in 16 bits returns, and both
    patches have the patch shape. *)
Lemma getitem_in_range (astype_float32 : V -> V) (vols : list volume) (ds : dataset)
    (index : Z) :
  consistent astype_int64 fuel vols ds ->
  geometry_ok (patch_shape ds) (patch_overlap ds) ->
  0 <= index < len ds ->
  (forall row, py_index (patch_indices ds) index = Ok row ->
               forall a, fits_int16 (vnth a (snd row))) ->
  exists item x y,
    getitem astype_float32 ds index = Ok item /\
    image_patch item = [x] /\ labels_patch item = [y] /\
    shape x = patch_shape ds /\ shape y = patch_shape ds.
Proof.
  intros Hc Hgeo Hidx Hfit. unfold len in Hidx.
  destruct (py_index_in_range _ _ Hidx) as (row & Hrow & Hlook).
  specialize (Hfit row Hrow).
  assert (Hin : In row (patch_indices ds)).
  { apply list_elem_of_In. eapply list_elem_of_lookup_2. exact Hlook. }
  destruct (consistent_row _ _ _ Hc Hgeo Hin)
    as (vol & ov & sig & lab & Hv & Hu & Hb & Hd & Hl & Hss & Hsl & Hbounds).
  assert (Hwrap : vmap wrap_int16 (snd row) = snd row).
  { apply vec3_ext. intros a. rewrite vnth_vmap. apply wrap_int16_fits. apply Hfit. }
  assert (Hslice : forall arr : array,
            shape arr = vadd (vadd ov (vol_shape vol)) ov ->
            shape (slice3 arr (vadd (snd row) ov) (vadd (vadd (snd row) (patch_shape ds)) ov))
            = patch_shape ds).
  { intros arr Hs. destruct (slice3_inside arr (vadd (snd row) ov)
                               (vadd (vadd (snd row) (patch_shape ds)) ov)) as [E _].
    - intros a. rewrite Hs. autorewrite with vnth.
      specialize (Hbounds a). specialize (Hgeo a). lia.
    - rewrite E. apply vec3_ext. intros a. autorewrite with vnth. lia. }
  unfold getitem. rewrite Hrow. cbn [bind].
  rewrite (proj2 (py_index_nat _ _ _) Hd). cbn [bind].
  rewrite (proj2 (py_index_nat _ _ _) Hl). cbn [bind].
  rewrite (proj2 (py_index_nat _ _ _) Hu). cbn [bind].
  rewrite (proj2 (py_index_nat _ _ _) Hb). cbn [bind fst snd].
  rewrite Hwrap, column0_stack. unfold expand_dims0. cbn [map].
  rewrite !py_index_singleton. cbn [bind].
  rewrite (shape_matches_true (astype astype_float32 _) _ (Hslice sig Hss)).
  rewrite (shape_matches_true _ _ (Hslice lab Hsl)). cbn [negb].
  eexists _, _, _. split; [reflexivity|]. cbn [image_patch labels_patch].
  split; [reflexivity|]. split; [reflexivity|]. split.
  - apply (Hslice sig Hss).
  - apply (Hslice lab Hsl).
Qed.

(** ** [get_original] *)

Lemma get_original_spec (vols : list volume) (ds : dataset) (j : nat) (vol : volume) :
  consistent astype_int64 fuel vols ds ->
  vols !! j = Some vol ->
  (forall a, 0 <= vnth a (vol_shape vol)) ->
  exists s l,
    get_original ds (Z.of_nat j) = Ok (s, l) /\
    array_eq s (signal_volume vol) /\
    array_eq l (astype astype_int64 (label_volume vol)).
Proof.
  intros [Hshapes Hblen Hdlen Hvol Hrows] Hv Hnonneg.
  destruct (Hvol _ _ Hv) as (ov & sig & lab & Hb & _ & Hps & Hd & Hpl & Hl).
  assert (Hu : unpadded_data_shape ds !! j = Some (vol_shape vol)).
  { rewrite Hshapes, list_lookup_fmap, Hv. reflexivity. }
  unfold get_original.
  rewrite (proj2 (py_index_nat _ _ _) Hu). simpl.
  rewrite (proj2 (py_index_nat _ _ _) Hb). simpl.
  rewrite (proj2 (py_index_nat _ _ _) Hd). simpl.
  rewrite (proj2 (py_index_nat _ _ _) Hl). simpl.
  rewrite column0_stack.
  apply np_pad_Ok in Hps as (Hpos & Hss & Hvs). apply np_pad_Ok in Hpl as (_ & Hsl & Hvl).
  rewrite column0_stack, column1_stack in *.
  assert (Hov : forall a, 0 <= vnth a ov).
  { intros a. specialize (Hpos a). unfold stack_columns in Hpos.
    rewrite vnth_vmap2 in Hpos. simpl in Hpos. lia. }
  assert (Hslice : forall arr : array,
            shape arr = vadd (vadd ov (vol_shape vol)) ov ->
            shape (slice3 arr ov (vadd ov (vol_shape vol))) = vol_shape vol /\
            forall i j k, voxel (slice3 arr ov (vadd ov (vol_shape vol))) i j k
                          = voxel arr (ax0 ov + i) (ax1 ov + j) (ax2 ov + k)).
  { intros arr Hs. destruct (slice3_inside arr ov (vadd ov (vol_shape vol))) as [E1 E2].
    - intros a. rewrite Hs. autorewrite with vnth.
      specialize (Hov a). specialize (Hnonneg a). lia.
    - split; [|exact E2]. rewrite E1. apply vec3_ext. intros a. autorewrite with vnth. lia. }
  eexists _, _. split; [reflexivity|]. split.
  - destruct (Hslice sig Hss) as [E1 E2]. split; [exact E1|].
    intros i j' k Hi Hj Hk. rewrite E1 in Hi, Hj, Hk. rewrite E2. apply Hvs; assumption.
  - destruct (Hslice (astype astype_int64 lab) Hsl) as [E1 E2]. split; [exact E1|].
    intros i j' k Hi Hj Hk. rewrite E1 in Hi, Hj, Hk. rewrite E2. simpl.
    f_equal. apply Hvl; assumption.
Qed.

End DatasetFacts.

(** ** When the constructor returns *)

Section Construction.

Context {V : Type}.
Variable astype_int64 : V -> V.
Variable fuel : nat.

Local Abbreviation array := (@ndarray V).
Local Abbreviation dataset := (@MRISegmentation V).
Local Abbreviation volume := (@loaded_volume V).

Lemma np_pad_total (a : array) (ov : vec3 Z) (c : V) :
  (forall x, 0 <= vnth x ov) ->
  exists a', np_pad a (stack_columns ov ov) pad_constant_rule c = Ok a'.
Proof.
  intros Hov. unfold np_pad.
  assert (E : vany (vmap (fun p : Z * Z => (fst p <? 0) || (snd p <? 0))
                      (stack_columns ov ov)) = false).
  { apply vany_false. intros x. unfold stack_columns. autorewrite with vnth. simpl.
    specialize (Hov x). apply orb_false_iff. split; apply Z.ltb_ge; lia. }
  rewrite E. eauto.
Qed.

(** The padding pass in mode ['constant'] returns when every volume still to
    visit has a table of non-negative widths. *)
Lemma padding_loop_total (images : list array) :
  forall (i : nat) (self : dataset),
    pad_mode self = pad_constant_rule ->
    (forall j, (i <= j < i + length images)%nat ->
       exists ov, padding_boundary self !! j = Some (Some (stack_columns ov ov)) /\
                  forall x, 0 <= vnth x ov) ->
    (i + length images <= length (data self))%nat ->
    (i + length images <= length (labels self))%nat ->
    exists self', padding_loop astype_int64 images i self = Ok self'.
Proof.
  induction images as [|im images IH]; intros i self Hm Hb Hd Hl; simpl.
  - eauto.
  - simpl in Hd, Hl.
    destruct (Hb i) as (ov & Hpw & Hov); [simpl; lia|].
    rewrite (proj2 (py_index_nat _ _ _) Hpw). simpl.
    destruct (lookup_lt_is_Some_2 (data self) i) as [a Ea]; [lia|].
    rewrite (proj2 (py_index_nat _ _ _) Ea). simpl. rewrite Hm.
    destruct (np_pad_total a ov (pad_constant self) Hov) as [a' Ha'].
    rewrite Ha'. simpl.
    destruct (lookup_lt_is_Some_2 (labels self) i) as [b Eb]; [lia|].
    rewrite (proj2 (py_index_nat _ _ _) Eb). simpl.
    destruct (np_pad_total b ov (pad_constant self) Hov) as [b' Hb'].
    rewrite Hb'. simpl.
    apply IH; simpl.
    + exact Hm.
    + intros j Hj. apply Hb. simpl. lia.
    + rewrite length_insert. lia.
    + rewrite length_insert. lia.
Qed.

(** Reading and planning succeed on volumes that keep three axes and exceed
    the overlap; then so does padding in mode ['constant']. *)
Lemma init_total (vols : list volume) (cc : list Z) (ps po : int_or_vec)
    (rand : bool) (c : V) (g : rng) :
  geometry_ok (as_vec3 ps) (as_vec3 po) ->
  enough_fuel fuel (loop_bound rand (as_vec3 ps) (as_vec3 po)) ->
  (forall vol, In vol vols ->
     forall a, vnth a (vol_shape vol) <> 1 /\ vnth a (as_vec3 po) < vnth a (vol_shape vol)) ->
  exists ds g', init astype_int64 fuel vols cc ps po rand pad_constant_rule c g = Ok (ds, g').
Proof.
  intros Hgeo Hfuel Hvols. unfold init.
  assert (Esq : existsb squeezes vols = false).
  { destruct (existsb squeezes vols) eqn:E; [|reflexivity].
    apply existsb_exists in E as (vol & Hin & Hs). unfold squeezes in Hs.
    apply vany_true in Hs as [a Ha]. autorewrite with vnth in Ha.
    apply Z.eqb_eq in Ha. destruct (Hvols vol Hin a). congruence. }
  rewrite Esq.
  match goal with
  | |- context [initialize_patch_indices fuel ?s g] => set (self0 := s)
  end.
  assert (Hplan : forall j vol, vols !! j = Some vol ->
            exists ov, planned_overflow fuel self0 (vol_shape vol) ov).
  { intros j vol Hj.
    assert (Hin : In vol vols).
    { apply list_elem_of_In. eapply list_elem_of_lookup_2. exact Hj. }
    destruct (calc_patch_indices_total fuel (vol_shape vol) (as_vec3 ps) (as_vec3 po) rand g
                Hgeo Hfuel) as (l & ov & g' & Hcalc).
    - intros a. apply (Hvols vol Hin a).
    - exists ov, g, l, g'. exact Hcalc. }
  destruct (initialize_loop_total fuel (data (set_patch_indices [] self0)) 0
              (set_patch_indices [] self0) g) as (self1 & g1 & E1).
  { simpl. intros j Hj. rewrite length_map in Hj.
    destruct (lookup_lt_is_Some_2 vols j) as [vol Hv]; [lia|].
    destruct (Hplan j vol Hv) as [ov Hov]. split.
    - exists (vol_shape vol), ov. split; [|exact Hov].
      rewrite list_lookup_fmap, Hv. reflexivity.
    - exists None. rewrite list_lookup_fmap, Hv. reflexivity. }
  unfold initialize_patch_indices. rewrite E1. simpl.
  apply initialize_loop_spec in E1 as (Hsame & Hlen & _ & Hin & _).
  simpl in Hsame, Hlen, Hin. rewrite length_map in Hin.
  destruct Hsame as (Hps & Hpo & Hr & Hmode & _ & Hd & Hl & _).
  change (data self1 = map signal_volume vols) in Hd.
  change (labels self1 = map label_volume vols) in Hl.
  destruct (padding_loop_total (data self1) 0 self1) as [self2 E2].
  - exact Hmode.
  - rewrite Hd, length_map. simpl. intros j Hj.
    destruct (Hin j) as (image & ov & _ & Hp & [(pw & Hnone & _)|[_ Hset]]); [lia| |].
    + destruct (lookup_lt_is_Some_2 vols j) as [vol Hv]; [lia|].
      rewrite list_lookup_fmap, Hv in Hnone. discriminate.
    + exists ov. split; [exact Hset|].
      destruct Hp as (g0 & l0 & g0' & Hp). simpl in Hp.
      destruct (calc_patch_indices_bounds _ _ _ _ _ _ _ _ _ Hgeo Hp) as [Hb _].
      intros x. apply (Hb x).
  - simpl. lia.
  - simpl. rewrite Hl, Hd. simpl. rewrite !length_map. lia.
  - rewrite E2. simpl. eauto.
Qed.

End Construction.

(** ** The planner in exact arithmetic: minimum overflow, coverage, patch count *)

(** In exact arithmetic: with [randomize_offset=True], the default fraction
    0.25 and [0 <= overlap < patch_shape], every returned overflow is at least
    a quarter of the patch on every axis; the call returns when the volume is
    wider than the overlap; and for volume 32, patch 8, overlap 0 a fifth
    patch is forced on every axis, with overflow 8. *)
Lemma exact_minimum_overflow (fuel : nat) (image patch overlap : vec3 Z) :
  geometry_ok patch overlap ->
  (forall g l ov g',
      calc_patch_indices fuel image patch overlap true
        default_minimum_overflow_fraction g = Ok (l, ov, g') ->
      forall a, (default_minimum_overflow_fraction * inject_Z (vnth a patch)
                 <= inject_Z (vnth a ov))%Q) /\
  (enough_fuel fuel (loop_bound true patch overlap) ->
   (forall a, vnth a overlap < vnth a image) ->
   forall g, exists l ov g',
       calc_patch_indices fuel image patch overlap true
         default_minimum_overflow_fraction g = Ok (l, ov, g')) /\
  (image = vrepeat 32 -> patch = vrepeat 8 -> overlap = vrepeat 0 ->
   forall g l ov g',
       calc_patch_indices fuel image patch overlap true
         default_minimum_overflow_fraction g = Ok (l, ov, g') ->
       ov = vrepeat 8 /\ length l = 125%nat).
Proof.
  intros Hgeo. split; [|split].
  - intros g l ov g' H a.
    destruct (calc_patch_indices_plan _ _ _ _ _ _ _ _ _ Hgeo H) as (start & n & _ & Hplan).
    destruct (Hplan a) as [_ _ _ _ _ Hfrac _ _]. specialize (Hfrac eq_refl).
    unfold default_minimum_overflow_fraction, Qle, Qmult, inject_Z. simpl. lia.
  - intros Hfuel Himg g. apply calc_patch_indices_total; assumption.
  - intros -> -> -> g l ov g' H.
    destruct (calc_patch_indices_plan _ _ _ _ _ _ _ _ _ Hgeo H) as (start & n & Hgrid & Hplan).
    apply mgrid3_stride_sizes in Hgrid as (_ & _ & _ & Hlen).
    assert (Hax : forall a, vnth a n = 5 /\ vnth a ov = 8).
    { intros a. destruct (Hplan a) as [_ _ Heq Hb _ Hfrac _ _]. specialize (Hfrac eq_refl).
      destruct a; simpl in *; lia. }
    split.
    + apply vec3_ext. intros a. destruct (Hax a) as [_ E]. rewrite E. destruct a; reflexivity.
    + rewrite Hlen.
      rewrite (proj1 (Hax Ax0) : ax0 n = 5), (proj1 (Hax Ax1) : ax1 n = 5),
        (proj1 (Hax Ax2) : ax2 n = 5). reflexivity.
Qed.

(** One axis of the coverage argument: the patches [k*patch + start],
    [0 <= k < n], leave no coordinate of the volume out. *)
Lemma axis_cover (patch start n c : Z) :
  0 < patch -> start <= 0 -> 0 <= c -> c < n * patch + start ->
  exists k, 0 <= k < n /\ k * patch + start <= c < k * patch + start + patch.
Proof.
  intros Hp Hs Hc Hn. exists ((c - start) / patch).
  pose proof (Z.div_pos (c - start) patch ltac:(lia) Hp).
  pose proof (Z.mul_div_le (c - start) patch Hp).
  pose proof (Z.mul_succ_div_gt (c - start) patch Hp).
  assert ((c - start) / patch < n) by (apply Z.div_lt_upper_bound; lia).
  lia.
Qed.

Lemma vnth_vset_eq (a : axis) (x : Z) (v : vec3 Z) : vnth a (vset a x v) = x.
Proof. destruct a; reflexivity. Qed.

Lemma vnth_vset_ne (a b : axis) (x : Z) (v : vec3 Z) :
  b <> a -> vnth b (vset a x v) = vnth b v.
Proof. destruct a, b; intros H; try reflexivity; congruence. Qed.

(** In exact arithmetic: with overlap 0 and [randomize_offset=False], for a
    patch no larger than the volume, planning returns placements such that
    every voxel coordinate of the volume lies inside some placement, and a
    placement that ends before the far edge of an axis is followed, exactly
    one patch further on that axis, by another placement. *)
Lemma exact_placements_cover (fuel : nat) (image patch : vec3 Z) (g : rng) :
  (forall a, 1 <= vnth a patch <= vnth a image) ->
  (0 < fuel)%nat ->
  exists l ov g',
    calc_patch_indices fuel image patch (vrepeat 0) false
      default_minimum_overflow_fraction g = Ok (l, ov, g') /\
    (forall c, (forall a, 0 <= vnth a c < vnth a image) ->
       exists p, In p l /\ forall a, vnth a p <= vnth a c < vnth a p + vnth a patch) /\
    (forall p a, In p l -> vnth a p + vnth a patch < vnth a image ->
       In (vset a (vnth a p + vnth a patch) p) l).
Proof.
  intros Hsize Hfuel.
  assert (Hgeo : geometry_ok patch (vrepeat 0)).
  { intros a. specialize (Hsize a). destruct a; simpl in *; lia. }
  destruct (calc_patch_indices_total fuel image patch (vrepeat 0) false g Hgeo)
    as (l & ov & g' & H).
  { unfold enough_fuel. simpl. lia. }
  { intros a. specialize (Hsize a). destruct a; simpl in *; lia. }
  exists l, ov, g'. split; [exact H|].
  destruct (calc_patch_indices_plan _ _ _ _ _ _ _ _ _ Hgeo H) as (start & n & Hgrid & Hplan).
  apply mgrid3_stride_sizes in Hgrid as (_ & _ & Hin & _).
  assert (Hax : forall a,
            vnth a (vsub patch (vrepeat 0)) = vnth a patch /\
            vnth a start <= 0 /\ vnth a image <= vnth a n * vnth a patch + vnth a start).
  { intros a. destruct (Hplan a) as [_ Hs Heq _ _ _ _ _]. rewrite vnth_vsub.
    replace (vnth a (vrepeat 0)) with 0 in * by (destruct a; reflexivity). nia. }
  split.
  - intros c Hc.
    assert (Hk : forall a, exists k, 0 <= k < vnth a n /\
                vnth a patch * k + vnth a start <= vnth a c
                < vnth a patch * k + vnth a start + vnth a patch).
    { intros a. destruct (Hax a) as (_ & Hs & Hn). specialize (Hsize a). specialize (Hc a).
      destruct (axis_cover (vnth a patch) (vnth a start) (vnth a n) (vnth a c))
        as (k & Hk & Hcov); try lia.
      exists k. split; [exact Hk|lia]. }
    destruct (Hk Ax0) as (k0 & Hk0 & Hc0). destruct (Hk Ax1) as (k1 & Hk1 & Hc1).
    destruct (Hk Ax2) as (k2 & Hk2 & Hc2).
    exists (V3 (ax0 patch * k0 + ax0 start) (ax1 patch * k1 + ax1 start)
               (ax2 patch * k2 + ax2 start)).
    split.
    + apply Hin. intros a. destruct (Hax a) as (E & _). rewrite E.
      destruct a; [exists k0|exists k1|exists k2]; simpl in *; split; lia.
    + intros []; simpl in *; lia.
  - intros p a Hp Hend. apply Hin. intros b.
    destruct (proj1 (Hin p) Hp b) as (k & Hk & Hpb).
    destruct (Hax b) as (E & Hs & Hn). rewrite E in *.
    destruct (axis_eq_dec b a) as [->|Hne].
    + rewrite vnth_vset_eq. exists (k + 1). destruct (Hplan a) as [_ Hs' Heq _ _ _ _ _].
      specialize (Hsize a).
      replace (vnth a (vrepeat 0)) with 0 in * by (destruct a; reflexivity).
      split; [nia|lia].
    + rewrite vnth_vset_ne by exact Hne. exists k. split; [exact Hk|exact Hpb].
Qed.

(** In exact arithmetic: for [0 <= overlap < patch_shape] and a volume wider
    than the overlap on every axis (the patch may still exceed the volume),
    step 2 yields [n_patches >= 1] on every axis, planning returns at least one
    placement, and the overflow is non-negative and at least the excess of the
    patch over the volume. *)
Lemma exact_at_least_one_patch (fuel : nat) (image patch overlap : vec3 Z)
    (rand : bool) (g : rng) :
  geometry_ok patch overlap ->
  (forall a, vnth a overlap < vnth a image) ->
  enough_fuel fuel (loop_bound rand patch overlap) ->
  (forall a, 1 <= vnth a (initial_n_patches image patch (vsub patch overlap))) /\
  exists l ov g',
    calc_patch_indices fuel image patch overlap rand
      default_minimum_overflow_fraction g = Ok (l, ov, g') /\
    (1 <= length l)%nat /\
    forall a, 0 <= vnth a ov /\ vnth a patch - vnth a image <= vnth a ov.
Proof.
  intros Hgeo Himg Hfuel.
  assert (Hn0 : forall a, 1 <= vnth a (initial_n_patches image patch (vsub patch overlap))).
  { intros a. rewrite vnth_initial_n_patches, vnth_vsub.
    apply n_patches_positive; [specialize (Hgeo a); lia|apply Himg]. }
  split; [exact Hn0|].
  destruct (calc_patch_indices_total fuel image patch overlap rand g Hgeo Hfuel Himg)
    as (l & ov & g' & H).
  exists l, ov, g'. split; [exact H|].
  destruct (calc_patch_indices_plan _ _ _ _ _ _ _ _ _ Hgeo H) as (start & n & Hgrid & Hplan).
  apply mgrid3_stride_sizes in Hgrid as (_ & _ & _ & Hlen).
  assert (Hn : forall a, 1 <= vnth a n).
  { intros a. destruct (Hplan a) as [_ _ _ _ Hgrow _ _ _]. specialize (Hn0 a).
    rewrite vnth_initial_n_patches, vnth_vsub in Hn0. lia. }
  split.
  - rewrite Hlen. pose proof (Hn Ax0). pose proof (Hn Ax1). pose proof (Hn Ax2).
    simpl in *. nia.
  - intros a. destruct (Hplan a) as [H0 _ Heq _ _ _ _ _]. specialize (Hn a).
    specialize (Hgeo a). split; [exact H0|nia].
Qed.

(** * numpy's arithmetic within range *)

(** ** [Machine.true_div] and the binary64 division of the Standard Library *)

(** On the samples, the quotient and the quotient plus one are what the
    binary64 division and addition of [SpecFloat] give. *)
Lemma machine_true_div_binary64_samples :
  forallb (fun ab =>
             denotes (binary64_value
                        (SpecFloat.SFdiv 53 1024 (binary64_of_int (fst ab))
                           (binary64_of_int (snd ab))))
                     (Machine.true_div (fst ab) (snd ab)))
          division_samples = true.
Proof. vm_compute. reflexivity. Qed.

Lemma machine_add_one_binary64_samples :
  forallb (fun ab =>
             denotes (binary64_value
                        (SpecFloat.SFadd 53 1024
                           (SpecFloat.SFdiv 53 1024 (binary64_of_int (fst ab))
                              (binary64_of_int (snd ab)))
                           (binary64_of_int 1)))
                     (Machine.round64 (Machine.true_div (fst ab) (snd ab) + 1)))
          division_samples = true.
Proof. vm_compute. reflexivity. Qed.

(** ** int64 and float64 within range *)

Lemma wrap_int64_small (x : Z) : - 2 ^ 63 <= x < 2 ^ 63 -> Machine.wrap_int64 x = x.
Proof. intros H. unfold Machine.wrap_int64. rewrite Z.mod_small; lia. Qed.

Lemma round_half_even_error (x : Q) :
  (Qabs (inject_Z (Machine.round_half_even x) - x) <= 1 # 2)%Q.
Proof.
  unfold Machine.round_half_even.
  pose proof (Qfloor_le x) as Hlo. pose proof (Qlt_floor x) as Hhi.
  rewrite inject_Z_plus in Hhi. change (inject_Z 1) with 1%Q in Hhi.
  apply Qabs_Qle_condition.
  destruct (x - inject_Z (Qfloor x) ?= 1 # 2)%Q eqn:E.
  - apply Qeq_alt in E.
    destruct (Z.even (Qfloor x)); rewrite ?inject_Z_plus; change (inject_Z 1) with 1%Q; lra.
  - apply Qlt_alt in E. lra.
  - apply Qgt_alt in E. rewrite inject_Z_plus. change (inject_Z 1) with 1%Q. lra.
Qed.

Lemma round_half_even_Z (x : Q) (z : Z) :
  (x == inject_Z z)%Q -> Machine.round_half_even x = z.
Proof.
  intros H. unfold Machine.round_half_even.
  assert (Ef : Qfloor x = z) by (rewrite H; apply Qfloor_Z).
  rewrite Ef.
  assert (E : (x - inject_Z z ?= 1 # 2)%Q = Lt) by (apply Qlt_alt; rewrite H; unfold Qminus; rewrite Qplus_opp_r; reflexivity).
  rewrite E. reflexivity.
Qed.

Lemma Qpow2_pos (e : Z) : (0 < 2 ^ e)%Q.
Proof. apply Qpower_0_lt. reflexivity. Qed.

Lemma Qpow2_Z (e : Z) : 0 <= e -> (2 ^ e == inject_Z (2 ^ e))%Q.
Proof. intros H. rewrite (Zpower_Qpower 2 e H). reflexivity. Qed.

Lemma Qpow2_le (a b : Z) : a <= b -> (2 ^ a <= 2 ^ b)%Q.
Proof. intros H. apply Qpower_le_compat_l; [exact H|]. discriminate. Qed.

Lemma Qpow2_lt (a b : Z) : a < b -> (2 ^ a < 2 ^ b)%Q.
Proof. intros H. apply Qpower_lt_compat_l; [exact H|]. reflexivity. Qed.

Lemma Qpow2_plus (a b : Z) : (2 ^ (a + b) == 2 ^ a * 2 ^ b)%Q.
Proof. apply Qpower_plus. discriminate. Qed.

(** A quotient of positive integers against a quotient of powers of two. *)
Lemma Qfrac_le (P R A : Z) (d : positive) :
  0 < R -> P * Z.pos d <= A * R -> (inject_Z P / inject_Z R <= A # d)%Q.
Proof.
  intros HR H. destruct R as [|r|r]; try lia.
  unfold Qle, Qdiv, Qmult, Qinv, inject_Z. simpl. lia.
Qed.

Lemma Qfrac_lt (P R A : Z) (d : positive) :
  0 < R -> A * R < P * Z.pos d -> (A # d < inject_Z P / inject_Z R)%Q.
Proof.
  intros HR H. destruct R as [|r|r]; try lia.
  unfold Qlt, Qdiv, Qmult, Qinv, inject_Z. simpl. lia.
Qed.

Lemma Qpow2_minus_Z (a b : Z) :
  0 <= a -> 0 <= b -> (2 ^ (a - b) == inject_Z (2 ^ a) / inject_Z (2 ^ b))%Q.
Proof.
  intros Ha Hb. rewrite Qpower_minus by discriminate.
  rewrite (Qpow2_Z a Ha), (Qpow2_Z b Hb). reflexivity.
Qed.

(** [binade x] is the exponent of the binade of [x]. *)
Lemma binade_spec (x : Q) :
  ~ (x == 0)%Q ->
  (2 ^ Machine.binade x <= Qabs x)%Q /\ (Qabs x < 2 ^ (Machine.binade x + 1))%Q.
Proof.
  intros Hx. destruct x as [n d].
  assert (Hn : 0 < Z.abs n).
  { assert (n <> 0); [|lia]. intros ->. apply Hx. reflexivity. }
  pose proof (Z.log2_spec (Z.abs n) Hn) as [Hn1 Hn2].
  pose proof (Z.log2_spec (Z.pos d) ltac:(lia)) as [Hd1 Hd2].
  pose proof (Z.log2_nonneg (Z.abs n)) as Ha. pose proof (Z.log2_nonneg (Z.pos d)) as Hb.
  assert (Habs : (Qabs (n # d) == Z.abs n # d)%Q) by (symmetry; apply Zabs_Qabs).
  unfold Machine.binade. cbn [Qnum Qden].
  set (a := Z.log2 (Z.abs n)) in *. set (b := Z.log2 (Z.pos d)) in *.
  assert (P1 : 0 < 2 ^ a) by (apply Z.pow_pos_nonneg; lia).
  assert (P2 : 0 < 2 ^ b) by (apply Z.pow_pos_nonneg; lia).
  destruct (Qle_bool (2 ^ (a - b)) (Qabs (n # d))) eqn:E.
  - apply Qle_bool_iff in E. split; [exact E|].
    replace (a - b + 1) with ((a + 1) - b) by lia.
    rewrite Habs, Qpow2_minus_Z by lia.
    apply Qfrac_lt; [lia|]. nia.
  - assert (E' : ~ (2 ^ (a - b) <= Qabs (n # d))%Q).
    { intros H. apply Qle_bool_iff in H. congruence. }
    apply Qnot_le_lt in E'. split.
    + replace (a - b - 1) with (a - (b + 1)) by lia.
      rewrite Habs, Qpow2_minus_Z by lia.
      apply Qfrac_le; [apply Z.pow_pos_nonneg; lia|]. nia.
    + replace (a - b - 1 + 1) with (a - b) by lia. exact E'.
Qed.

Lemma Qinv_le (a b : Q) : (0 < a -> a <= b -> / b <= / a)%Q.
Proof.
  intros Ha Hab. apply Qle_shift_inv_r; [eapply Qlt_le_trans; eauto|].
  rewrite Qmult_comm. apply (Qle_shift_div_l 1 b a Ha). rewrite Qmult_1_l. exact Hab.
Qed.

(** [round64] does not depend on how its argument is written. *)
Lemma round64_comp (x y : Q) : (x == y)%Q -> Machine.round64 x = Machine.round64 y.
Proof. intros H. unfold Machine.round64. rewrite (Qred_complete x y H). reflexivity. Qed.

Lemma round64_zero (x : Q) : (x == 0)%Q -> (Machine.round64 x == 0)%Q.
Proof.
  intros H. unfold Machine.round64.
  assert (E : Qeq_bool (Qred x) 0 = true) by (apply Qeq_bool_iff; rewrite Qred_correct; exact H).
  rewrite E. reflexivity.
Qed.

(** The scaling used for a non-zero argument of moderate size. *)
Lemma round64_scaled (x : Q) :
  ~ (x == 0)%Q -> (Qabs x <= 2 ^ 26)%Q ->
  exists k, 26 <= k /\
    (Machine.round64 x
     == inject_Z (Machine.round_half_even (Qred x * 2 ^ k)) * 2 ^ (- k))%Q.
Proof.
  intros Hx Hb. unfold Machine.round64.
  assert (E : Qeq_bool (Qred x) 0 = false).
  { destruct (Qeq_bool (Qred x) 0) eqn:E; [|reflexivity].
    apply Qeq_bool_iff in E. rewrite Qred_correct in E. contradiction. }
  rewrite E. exists (52 - Machine.binade (Qred x)). split; [|reflexivity].
  assert (Hx' : ~ (Qred x == 0)%Q) by (rewrite Qred_correct; exact Hx).
  destruct (binade_spec (Qred x) Hx') as [Hlo _].
  rewrite (Qabs_wd _ _ (Qred_correct x)) in Hlo.
  destruct (Z_le_gt_dec (Machine.binade (Qred x)) 26) as [H|H]; [lia|].
  exfalso. pose proof (Qpow2_lt 26 (Machine.binade (Qred x)) ltac:(lia)) as Hlt.
  apply (Qlt_irrefl (2 ^ 26)).
  eapply Qlt_le_trans; [exact Hlt|]. eapply Qle_trans; [exact Hlo|exact Hb].
Qed.

(** Rounding moves a number of magnitude up to 2^26 by at most 2^-27. *)
Lemma round64_error (x : Q) :
  (Qabs x <= 2 ^ 26)%Q -> (Qabs (Machine.round64 x - x) <= 1 # 2 ^ 27)%Q.
Proof.
  intros Hb. destruct (Qeq_dec x 0) as [Hx|Hx].
  - rewrite (round64_zero x Hx), Hx. discriminate.
  - destruct (round64_scaled x Hx Hb) as (k & Hk & ->).
    set (m := Machine.round_half_even (Qred x * 2 ^ k)).
    pose proof (round_half_even_error (Qred x * 2 ^ k)) as He. fold m in He.
    rewrite Qred_correct in He.
    pose proof (Qpow2_pos k) as Hp. pose proof (Qpow2_le 26 k Hk) as Hp26.
    rewrite Qpower_opp.
    set (P := (2 ^ k)%Q) in *.
    assert (E : (inject_Z m * / P - x == (inject_Z m - x * P) * / P)%Q).
    { field. intros H0. rewrite H0 in Hp. discriminate. }
    rewrite E, Qabs_Qmult, Qabs_Qinv, (Qabs_pos P) by (apply Qlt_le_weak; exact Hp).
    apply Qle_trans with ((1 # 2) * / 2 ^ 26)%Q.
    + apply Qmult_le_compat_nonneg.
      * split; [apply Qabs_nonneg|exact He].
      * split; [apply Qlt_le_weak, Qinv_lt_0_compat; exact Hp|].
        apply Qinv_le; [reflexivity|exact Hp26].
    + discriminate.
Qed.

(** Numbers with at most 26 fractional bits and magnitude up to 2^26 are
    float64 values. *)
Lemma round64_exact (x : Q) (M j : Z) :
  0 <= j <= 26 -> (x == inject_Z M * 2 ^ (- j))%Q -> (Qabs x <= 2 ^ 26)%Q ->
  (Machine.round64 x == x)%Q.
Proof.
  intros Hj HM Hb. destruct (Qeq_dec x 0) as [Hx|Hx].
  - rewrite (round64_zero x Hx), Hx. reflexivity.
  - destruct (round64_scaled x Hx Hb) as (k & Hk & ->).
    assert (E : (Qred x * 2 ^ k == inject_Z (M * 2 ^ (k - j)))%Q).
    { rewrite Qred_correct, HM, inject_Z_mult, <- (Qpow2_Z (k - j)) by lia.
      replace (k - j) with (- j + k) by lia. rewrite Qpow2_plus. ring. }
    rewrite (round_half_even_Z _ _ E), inject_Z_mult, <- (Qpow2_Z (k - j)), HM by lia.
    replace (k - j) with (- j + k) by lia. rewrite Qpow2_plus, Qpower_opp, (Qpower_opp 2 k).
    field. split; intros H0; [pose proof (Qpow2_pos j) as H|pose proof (Qpow2_pos k) as H];
      rewrite H0 in H; discriminate.
Qed.

Lemma round64_int (z : Z) :
  Z.abs z <= 2 ^ 26 -> (Machine.round64 (inject_Z z) == inject_Z z)%Q.
Proof.
  intros H. apply (round64_exact _ z 0); [lia| |].
  - change (2 ^ (- 0))%Q with 1%Q. ring.
  - rewrite (Qpow2_Z 26) by lia.
    apply Qabs_Qle_condition. rewrite <- inject_Z_opp, <- !Zle_Qle. lia.
Qed.

(** The two facts in the form used below: 2^26 = 67108864, 2^27 = 134217728. *)
Lemma round64_near (x : Q) :
  (- (67108864 # 1) <= x <= 67108864 # 1)%Q ->
  (x - (1 # 134217728) <= Machine.round64 x <= x + (1 # 134217728))%Q.
Proof.
  intros H.
  assert (Hb : (Qabs x <= 2 ^ 26)%Q) by (apply Qabs_Qle_condition; exact H).
  pose proof (round64_error x Hb) as He.
  apply Qabs_Qle_condition in He. change (1 # 2 ^ 27)%Q with (1 # 134217728)%Q in He.
  lra.
Qed.

Lemma float64_of_int_exact (z : Z) :
  Z.abs z <= 2 ^ 26 -> (Machine.float64_of_int z == inject_Z z)%Q.
Proof. apply round64_int. Qed.

Lemma machine_true_div_round (a b : Z) :
  Z.abs a <= 2 ^ 26 -> Z.abs b <= 2 ^ 26 ->
  Machine.true_div a b = Machine.round64 (true_div a b).
Proof.
  intros Ha Hb. unfold Machine.true_div, true_div. apply round64_comp.
  rewrite (float64_of_int_exact a Ha), (float64_of_int_exact b Hb). reflexivity.
Qed.

(** A quotient that is not an integer stays 1/b away from the integers. *)
Lemma true_div_between (a b m : Z) :
  0 < b <= 2 ^ 25 -> m * b < a < (m + 1) * b ->
  (inject_Z m + (1 # 33554432) <= true_div a b
   /\ true_div a b <= inject_Z m + 1 - (1 # 33554432))%Q.
Proof.
  intros Hb Ha. destruct b as [|p|p]; try lia.
  rewrite (true_div_pos a p).
  unfold Qle, Qplus, Qminus, Qopp, inject_Z. simpl. split; lia.
Qed.

Lemma true_div_multiple (m b : Z) : b <> 0 -> (true_div (m * b) b == inject_Z m)%Q.
Proof.
  intros Hb. unfold true_div. rewrite inject_Z_mult. apply Qdiv_mult_l.
  intros E. apply Hb. unfold Qeq, inject_Z in E. simpl in E. lia.
Qed.

Lemma inject_Z_range (z lo hi : Z) :
  lo <= z <= hi -> (lo # 1 <= inject_Z z <= hi # 1)%Q.
Proof.
  intros [H1 H2]. change (inject_Z lo <= inject_Z z <= inject_Z hi)%Q.
  split; rewrite <- Zle_Qle; assumption.
Qed.

(** Step 2 of the planner: the rounded computation gives the exact ceiling. *)
Lemma machine_n_patches_exact (a b : Z) :
  Z.abs a <= 2 ^ 24 -> 0 < b <= 2 ^ 24 ->
  Machine.ceil_int (Machine.round64 (Machine.true_div a b + 1))
  = Qceiling (true_div a b + 1).
Proof.
  intros Ha Hb.
  rewrite machine_true_div_round by lia.
  pose proof (Z.div_mod a b ltac:(lia)) as Hdm.
  pose proof (Z.mod_pos_bound a b ltac:(lia)) as Hr.
  set (m := a / b) in *. set (r := a mod b) in *.
  assert (Hm : - 16777216 <= m <= 16777216) by (subst m; split;
    [apply Z.div_le_lower_bound|apply Z.div_le_upper_bound]; nia).
  pose proof (inject_Z_range m _ _ Hm) as Hmq.
  destruct (Z.eq_dec r 0) as [Hr0|Hr0].
  - assert (Eq : (true_div a b == inject_Z m)%Q).
    { replace a with (m * b) by lia. apply true_div_multiple. lia. }
    rewrite (round64_comp _ _ Eq).
    assert (E1 : (Machine.round64 (inject_Z m) + 1 == inject_Z (m + 1))%Q).
    { rewrite round64_int by lia. rewrite inject_Z_plus. reflexivity. }
    rewrite (round64_comp _ _ E1). unfold Machine.ceil_int.
    rewrite (Qceiling_comp _ _ (round64_int (m + 1) ltac:(lia))), Qceiling_Z.
    assert (E2 : (true_div a b + 1 == inject_Z (m + 1))%Q).
    { rewrite Eq, inject_Z_plus. reflexivity. }
    rewrite (Qceiling_comp _ _ E2), Qceiling_Z.
    apply wrap_int64_small. lia.
  - destruct (true_div_between a b m ltac:(lia) ltac:(nia)) as [Hlo Hhi].
    set (q := true_div a b) in *.
    destruct (round64_near q ltac:(lra)) as [Hy1 Hy2].
    set (y := Machine.round64 q) in *.
    destruct (round64_near (y + 1) ltac:(lra)) as [Hz1 Hz2].
    set (z := Machine.round64 (y + 1)) in *.
    assert (Ez : Qceiling z = m + 2).
    { apply Qceiling_unique.
      - replace (m + 2 - 1) with (m + 1) by lia. rewrite inject_Z_plus.
        change (inject_Z 1) with 1%Q. lra.
      - rewrite inject_Z_plus. change (inject_Z 2) with 2%Q. lra. }
    assert (Eq : Qceiling (q + 1) = m + 2).
    { apply Qceiling_unique.
      - replace (m + 2 - 1) with (m + 1) by lia. rewrite inject_Z_plus.
        change (inject_Z 1) with 1%Q. lra.
      - rewrite inject_Z_plus. change (inject_Z 2) with 2%Q. lra. }
    unfold Machine.ceil_int. rewrite Ez, Eq. apply wrap_int64_small. lia.
Qed.

(** The test of the minimum-overflow loop. *)
Lemma machine_below_quarter_exact (ov p : Z) :
  0 <= ov <= 2 ^ 25 -> 0 < p <= 2 ^ 24 ->
  Qltb (Machine.true_div ov p) (1 # 4) = Qltb (true_div ov p) (1 # 4).
Proof.
  intros Hov Hp. rewrite machine_true_div_round by lia.
  rewrite (Qltb_true_div ov p 1 4) by lia.
  set (q := true_div ov p).
  assert (Hq : (q == ov # Z.to_pos p)%Q).
  { subst q. destruct p as [|p|p]; try lia. apply true_div_pos. }
  assert (Hq0 : (0 <= q <= 33554432 # 1)%Q).
  { rewrite Hq. unfold Qle. simpl. rewrite Z2Pos.id by lia. split; nia. }
  destruct (round64_near q ltac:(lra)) as [Hy1 Hy2].
  unfold Qltb.
  destruct (Z.ltb_spec (ov * 4) (1 * p)) as [H|H].
  - assert (Hlt : (q <= (1 # 4) - (1 # 67108864))%Q).
    { rewrite Hq. unfold Qle, Qminus, Qplus, Qopp. simpl. rewrite Z2Pos.id by lia. lia. }
    destruct (Qle_bool (1 # 4) (Machine.round64 q)) eqn:E; [|reflexivity].
    apply Qle_bool_iff in E. lra.
  - destruct (Z.eq_dec (ov * 4) p) as [He|Hne].
    + assert (Eq : (q == 1 # 4)%Q).
      { rewrite Hq. unfold Qeq. simpl. rewrite Z2Pos.id by lia. lia. }
      rewrite (round64_comp _ _ Eq). reflexivity.
    + assert (Hgt : ((1 # 4) + (1 # 67108864) <= q)%Q).
      { rewrite Hq. unfold Qle, Qplus. simpl. rewrite Z2Pos.id by lia. lia. }
      assert (E : Qle_bool (1 # 4) (Machine.round64 q) = true)
        by (apply Qle_bool_iff; lra).
      rewrite E. reflexivity.
Qed.

(** [np.ceil(overflow/2)] *)
Lemma machine_half_exact (ov : Z) :
  0 <= ov <= 2 ^ 25 ->
  Machine.ceil_int (Machine.true_div ov 2) = Qceiling (true_div ov 2).
Proof.
  intros Hov. rewrite machine_true_div_round by lia.
  assert (E : (Machine.round64 (true_div ov 2) == true_div ov 2)%Q).
  { apply (round64_exact _ ov 1); [lia| |].
    - unfold true_div. reflexivity.
    - rewrite (true_div_pos ov 2). apply Qabs_Qle_condition.
      unfold Qle, Qopp. simpl. lia. }
  unfold Machine.ceil_int. rewrite (Qceiling_comp _ _ E).
  pose proof (Qceiling_half ov). apply wrap_int64_small. lia.
Qed.

(** The number of grid points on an axis whose stop is [n] strides away. *)
Lemma machine_grid_size_exact (start step n : Z) :
  0 < step <= 2 ^ 26 -> Z.abs (step * n) <= 2 ^ 26 -> Z.abs start <= 2 ^ 26 ->
  Machine.grid_size start (start + step * n) step = n.
Proof.
  intros Hs Hn Hst. unfold Machine.grid_size, Machine.sub64.
  replace (start + step * n - start) with (n * step) by lia.
  rewrite wrap_int64_small by lia.
  assert (E : (Machine.float64_of_int (n * step)
               / Machine.round64 (Machine.float64_of_int step * 1) == inject_Z n)%Q).
  { assert (Es : (Machine.float64_of_int step * 1 == inject_Z step)%Q).
    { rewrite float64_of_int_exact by lia. ring. }
    rewrite (round64_comp _ _ Es), round64_int by lia.
    rewrite float64_of_int_exact by lia. apply (true_div_multiple n step). lia. }
  rewrite (round64_comp _ _ E).
  rewrite (Qceiling_comp _ _ (round64_int n ltac:(nia))). apply Qceiling_Z.
Qed.

(** ** The planner of numpy and the planner in exact arithmetic *)

Lemma vnth_vadd64 (u v : vec3 Z) (a : axis) :
  vnth a (Machine.vadd64 u v) = Machine.wrap_int64 (vnth a u + vnth a v).
Proof. destruct a; reflexivity. Qed.

Lemma vnth_vsub64 (u v : vec3 Z) (a : axis) :
  vnth a (Machine.vsub64 u v) = Machine.wrap_int64 (vnth a u - vnth a v).
Proof. destruct a; reflexivity. Qed.

Lemma vnth_vmul64 (u v : vec3 Z) (a : axis) :
  vnth a (Machine.vmul64 u v) = Machine.wrap_int64 (vnth a u * vnth a v).
Proof. destruct a; reflexivity. Qed.

Lemma vnth_vneg64 (u : vec3 Z) (a : axis) :
  vnth a (Machine.vneg64 u) = Machine.wrap_int64 (- vnth a u).
Proof. destruct a; reflexivity. Qed.

#[export] Hint Rewrite vnth_vadd64 vnth_vsub64 vnth_vmul64 vnth_vneg64 : vnth.

(** While the state stays where the machine operations are exact, the two
    loops run in step. *)
Lemma machine_loop_exact (condM cond : vec3 Z -> vec3 bool) (eff : vec3 Z)
    (Inv : vec3 Z -> vec3 Z -> Prop) :
  (forall ov n, Inv ov n ->
     condM ov = cond ov /\
     Machine.vadd64 ov (Machine.vmul64 (vb2z (cond ov)) eff)
       = vadd ov (vmul (vb2z (cond ov)) eff) /\
     Machine.vadd64 n (vb2z (cond ov)) = vadd n (vb2z (cond ov)) /\
     (vany (cond ov) = true ->
      Inv (vadd ov (vmul (vb2z (cond ov)) eff)) (vadd n (vb2z (cond ov))))) ->
  forall fuel ov n, Inv ov n ->
    Machine.extra_patch_loop fuel condM eff ov n = extra_patch_loop fuel cond eff ov n /\
    forall ov' n', extra_patch_loop fuel cond eff ov n = Ok (ov', n') -> Inv ov' n'.
Proof.
  intros Hstep. induction fuel as [|fuel IH]; intros ov n Hinv; simpl.
  - split; [reflexivity|discriminate].
  - destruct (Hstep ov n Hinv) as (Ec & Eov & En & Hnext).
    rewrite Ec, Eov, En.
    destruct (vany (cond ov)) eqn:E.
    + apply IH. apply Hnext. reflexivity.
    + split; [reflexivity|]. intros ov' n' H. inversion H; subst. exact Hinv.
Qed.

Lemma loop_state_step (c : axis -> Z -> bool) (cond : vec3 Z -> vec3 bool)
    (image patch overlap bound ov n : vec3 Z) :
  small_extents image patch overlap ->
  axiswise cond c ->
  (forall a, 0 <= vnth a bound <= 2 ^ 24) ->
  (forall a o, c a o = true -> o < vnth a bound) ->
  loop_state image overlap (vsub patch overlap) bound ov n ->
  Machine.vadd64 ov (Machine.vmul64 (vb2z (cond ov)) (vsub patch overlap))
    = vadd ov (vmul (vb2z (cond ov)) (vsub patch overlap)) /\
  Machine.vadd64 n (vb2z (cond ov)) = vadd n (vb2z (cond ov)) /\
  loop_state image overlap (vsub patch overlap) bound
    (vadd ov (vmul (vb2z (cond ov)) (vsub patch overlap))) (vadd n (vb2z (cond ov))).
Proof.
  intros Hsmall Hc Hbound Hb Hinv.
  assert (Hax : forall a,
    let b := Z.b2z (vnth a (cond ov)) in
    0 <= b <= 1 /\
    0 <= vnth a ov + b * (vnth a patch - vnth a overlap)
      < vnth a bound + (vnth a patch - vnth a overlap) /\
    (vnth a patch - vnth a overlap) * (vnth a n + b) - vnth a image + vnth a overlap
      = vnth a ov + b * (vnth a patch - vnth a overlap) /\
    - 2 ^ 27 <= vnth a n <= 2 ^ 27).
  { intros a. cbv zeta. destruct (Hsmall a) as (Ho & Hp & Hi).
    destruct (Hinv a) as [Hov Heq]. autorewrite with vnth in Hov, Heq.
    specialize (Hbound a).
    assert (Hn : - 2 ^ 27 <= vnth a n <= 2 ^ 27) by nia.
    rewrite Hc. destruct (c a (vnth a ov)) eqn:E; simpl.
    - apply Hb in E. repeat split; try lia.
    - repeat split; try lia. }
  split; [|split].
  - apply vec3_ext. intros a. destruct (Hax a) as (Hb01 & Hr & _ & _).
    destruct (Hsmall a) as (Ho & Hp & Hi). specialize (Hbound a).
    autorewrite with vnth. rewrite (wrap_int64_small (_ * _)) by nia.
    apply wrap_int64_small. lia.
  - apply vec3_ext. intros a. destruct (Hax a) as (Hb01 & _ & _ & Hn).
    autorewrite with vnth. apply wrap_int64_small. lia.
  - intros a. destruct (Hax a) as (_ & Hr & Heq & _). autorewrite with vnth.
    split; [exact Hr|exact Heq].
Qed.

Lemma machine_grid_axis_exact (start step n : Z) :
  0 <= step -> Z.abs (step * n) <= 2 ^ 26 -> Z.abs start <= 2 ^ 26 ->
  Machine.grid_axis start step n = grid_axis start step n.
Proof.
  intros Hs Hn Hst. unfold Machine.grid_axis, grid_axis. apply map_ext_in.
  intros i Hi. apply in_seq in Hi. unfold Machine.add64, Machine.mul64.
  assert (0 <= Z.of_nat i * step <= 2 ^ 26) by nia.
  rewrite (wrap_int64_small (_ * _)) by lia. apply wrap_int64_small. lia.
Qed.

Lemma machine_mgrid3_exact (start step n : vec3 Z) :
  (forall a, 0 < vnth a step <= 2 ^ 26 /\ Z.abs (vnth a step * vnth a n) <= 2 ^ 26 /\
             Z.abs (vnth a start) <= 2 ^ 26) ->
  Machine.mgrid3 start (Machine.vadd64 start (Machine.vmul64 step n)) step
  = mgrid3 start (vadd start (vmul step n)) step.
Proof.
  intros H.
  assert (Estop : Machine.vadd64 start (Machine.vmul64 step n) = vadd start (vmul step n)).
  { apply vec3_ext. intros a. destruct (H a) as (Hs & Hn & Hst). autorewrite with vnth.
    rewrite (wrap_int64_small (_ * _)) by lia. apply wrap_int64_small. lia. }
  rewrite Estop. unfold Machine.mgrid3, mgrid3.
  pose proof (H Ax0) as (Hs0 & Hn0 & Hst0). pose proof (H Ax1) as (Hs1 & Hn1 & Hst1).
  pose proof (H Ax2) as (Hs2 & Hn2 & Hst2).
  destruct start as [s0 s1 s2], step as [e0 e1 e2], n as [n0 n1 n2].
  cbn [ax0 ax1 ax2 vadd vmul vmap2 vnth] in *.
  rewrite !machine_grid_size_exact, !grid_size_stride by lia.
  rewrite !machine_grid_axis_exact by lia. reflexivity.
Qed.

Lemma machine_random_offsets_exact (m : vec3 Z) (g : rng) :
  (forall a, - 2 ^ 62 <= vnth a m <= 2 ^ 62) ->
  Machine.random_offsets m g = random_offsets m g.
Proof.
  intros H. unfold Machine.random_offsets, random_offsets, Machine.add64.
  pose proof (H Ax0). pose proof (H Ax1). pose proof (H Ax2). simpl in *.
  rewrite !wrap_int64_small by lia. reflexivity.
Qed.

Lemma small_extents_geometry (image patch overlap : vec3 Z) :
  small_extents image patch overlap -> geometry_ok patch overlap.
Proof. intros H a. destruct (H a) as (Ho & _). exact Ho. Qed.

Lemma machine_stride_exact (image patch overlap : vec3 Z) :
  small_extents image patch overlap -> Machine.vsub64 patch overlap = vsub patch overlap.
Proof.
  intros Hsmall. apply vec3_ext. intros a. destruct (Hsmall a) as (Ho & Hp & Hi).
  autorewrite with vnth. apply wrap_int64_small. lia.
Qed.

Lemma machine_initial_n_patches_exact (image patch overlap : vec3 Z) :
  small_extents image patch overlap ->
  Machine.initial_n_patches image patch (Machine.vsub64 patch overlap)
  = initial_n_patches image patch (vsub patch overlap).
Proof.
  intros Hsmall. rewrite (machine_stride_exact image patch overlap Hsmall).
  apply vec3_ext. intros a. destruct (Hsmall a) as (Ho & Hp & Hi).
  unfold Machine.initial_n_patches, initial_n_patches. autorewrite with vnth.
  rewrite wrap_int64_small by lia. apply machine_n_patches_exact; lia.
Qed.

(** For extents up to 2^24 the float64 and int64 steps of the planner are
    exact: numpy's planner and the planner in exact arithmetic return the
    same placements, overflow and generator, or fail alike. *)
Lemma machine_planner_exact (fuel : nat) (image patch overlap : vec3 Z) (rand : bool)
    (g : rng) :
  small_extents image patch overlap ->
  Machine.calc_patch_indices fuel image patch overlap rand
    default_minimum_overflow_fraction g
  = calc_patch_indices fuel image patch overlap rand default_minimum_overflow_fraction g.
Proof.
  intros Hsmall. unfold Machine.calc_patch_indices, calc_patch_indices.
  rewrite (machine_initial_n_patches_exact image patch overlap Hsmall).
  rewrite (machine_stride_exact image patch overlap Hsmall). set (eff := vsub patch overlap).
  destruct (vany (vmap (Z.eqb 0) eff)); [reflexivity|].
  assert (Heff : forall a, vnth a eff = vnth a patch - vnth a overlap)
    by (intros a; subst eff; autorewrite with vnth; reflexivity).
  set (n0 := initial_n_patches image patch eff).
  assert (Hn0 : forall a,
            0 <= vnth a eff * vnth a n0 - vnth a image + vnth a overlap < vnth a eff).
  { intros a. destruct (Hsmall a) as (Ho & Hp & Hi). subst n0.
    rewrite vnth_initial_n_patches, Heff.
    apply (overflow_range (vnth a image) (vnth a patch) (vnth a overlap)). lia. }
  assert (Eov : Machine.initial_overflow image eff n0 overlap
                = initial_overflow image eff n0 overlap).
  { apply vec3_ext. intros a. destruct (Hsmall a) as (Ho & Hp & Hi).
    specialize (Hn0 a). rewrite Heff in Hn0.
    unfold Machine.initial_overflow, initial_overflow. autorewrite with vnth.
    rewrite Heff. rewrite (wrap_int64_small (_ * _)) by nia.
    rewrite (wrap_int64_small (_ - _)) by nia. apply wrap_int64_small. lia. }
  rewrite Eov. set (ov0 := initial_overflow image eff n0 overlap).
  assert (Hov0 : forall bound, (forall a, 0 <= vnth a bound) ->
            loop_state image overlap eff bound ov0 n0).
  { intros bound Hb a. specialize (Hn0 a). specialize (Hb a). subst ov0.
    rewrite vnth_initial_overflow. split; lia. }
  assert (Hgrid : forall start ov n bound,
            (forall a, 0 <= vnth a bound <= 2 ^ 24) ->
            loop_state image overlap eff bound ov n ->
            (forall a, Z.abs (vnth a start) <= 2 ^ 26) ->
            Machine.mgrid3 start (Machine.vadd64 start (Machine.vmul64 eff n)) eff
            = mgrid3 start (vadd start (vmul eff n)) eff).
  { intros start ov n bound Hb Hst Hstart. apply machine_mgrid3_exact. intros a.
    destruct (Hsmall a) as (Ho & Hp & Hi). destruct (Hst a) as [Hov Heq].
    specialize (Hb a). specialize (Hstart a). rewrite Heff in *.
    repeat split; try lia. }
  destruct rand.
  - unfold Machine.place_random, place_random.
    destruct (vany (vmap (Z.eqb 0) patch)); [reflexivity|].
    assert (Hpb : forall a, 0 <= vnth a patch <= 2 ^ 24)
      by (intros a; destruct (Hsmall a) as (Ho & Hp & Hi); lia).
    destruct (machine_loop_exact
                (Machine.below_fraction patch default_minimum_overflow_fraction)
                (below_fraction patch default_minimum_overflow_fraction) eff
                (loop_state image overlap eff patch)) with (fuel := fuel) (ov := ov0) (n := n0)
      as [Eloop Hexit].
    { intros ov n Hinv.
      destruct (loop_state_step _ _ image patch overlap patch ov n Hsmall
                  (below_fraction_axiswise patch default_minimum_overflow_fraction) Hpb)
        as (E1 & E2 & E3); [|exact Hinv|].
      - intros a o Hc. destruct (Hsmall a) as (Ho & Hp & Hi).
        unfold default_minimum_overflow_fraction in Hc.
        rewrite Qltb_true_div in Hc by lia. apply Z.ltb_lt in Hc. lia.
      - split; [|split; [exact E1|split; [exact E2|intros _; exact E3]]].
        apply vec3_ext. intros a. destruct (Hsmall a) as (Ho & Hp & Hi).
        destruct (Hinv a) as [Hov _]. rewrite Heff in Hov.
        unfold Machine.below_fraction, below_fraction. autorewrite with vnth.
        apply machine_below_quarter_exact; lia. }
    { apply Hov0. intros a. apply Hpb. }
    rewrite Eloop.
    destruct (extra_patch_loop fuel _ eff ov0 n0) as [[ov n]|e] eqn:El; [|reflexivity].
    specialize (Hexit ov n eq_refl). simpl.
    rewrite machine_random_offsets_exact.
    2:{ intros a. destruct (Hsmall a) as (Ho & Hp & Hi). destruct (Hexit a) as [Hov _].
        rewrite Heff in Hov. lia. }
    destruct (random_offsets ov g) as [[r g1]|e] eqn:Er; [|reflexivity]. simpl.
    assert (Hr : forall a, 0 <= vnth a r <= vnth a ov) by (eapply random_offsets_Ok; eauto).
    assert (Estart : Machine.vneg64 r = vneg r).
    { apply vec3_ext. intros a. destruct (Hsmall a) as (Ho & Hp & Hi).
      destruct (Hexit a) as [Hov _]. specialize (Hr a). rewrite Heff in Hov.
      autorewrite with vnth. apply wrap_int64_small. lia. }
    rewrite Estart, (Hgrid (vneg r) ov n patch Hpb Hexit); [reflexivity|].
    intros a. destruct (Hsmall a) as (Ho & Hp & Hi).
    destruct (Hexit a) as [Hov _]. specialize (Hr a). rewrite Heff in Hov.
    autorewrite with vnth. lia.
  - unfold Machine.place_centred, place_centred.
    assert (Hob : forall a, 0 <= vnth a overlap <= 2 ^ 24)
      by (intros a; destruct (Hsmall a) as (Ho & Hp & Hi); lia).
    destruct (machine_loop_exact (below_overlap overlap) (below_overlap overlap) eff
                (loop_state image overlap eff overlap)) with (fuel := fuel) (ov := ov0) (n := n0)
      as [Eloop Hexit].
    { intros ov n Hinv.
      destruct (loop_state_step _ _ image patch overlap overlap ov n Hsmall
                  (below_overlap_axiswise overlap) Hob)
        as (E1 & E2 & E3); [|exact Hinv|].
      - intros a o Hc. apply Z.ltb_lt in Hc. exact Hc.
      - split; [reflexivity|]. split; [exact E1|split; [exact E2|intros _; exact E3]]. }
    { apply Hov0. intros a. apply Hob. }
    rewrite Eloop.
    destruct (extra_patch_loop fuel _ eff ov0 n0) as [[ov n]|e] eqn:El; [|reflexivity].
    specialize (Hexit ov n eq_refl). simpl.
    assert (Estart : Machine.vneg64 (vmap Machine.ceil_int
                        (vmap (fun o => Machine.true_div o 2) ov0))
                     = vneg (vmap Qceiling (vmap (fun o => true_div o 2) ov0))).
    { apply vec3_ext. intros a. destruct (Hsmall a) as (Ho & Hp & Hi).
      pose proof (Hn0 a) as Hn0a. pose proof (Heff a) as He.
      autorewrite with vnth. subst ov0. rewrite vnth_initial_overflow.
      rewrite machine_half_exact by lia.
      pose proof (Qceiling_half (vnth a eff * vnth a n0 - vnth a image + vnth a overlap)).
      apply wrap_int64_small. lia. }
    rewrite Estart.
    rewrite (Hgrid _ ov n overlap Hob Hexit); [reflexivity|].
    intros a. destruct (Hsmall a) as (Ho & Hp & Hi).
    pose proof (Hn0 a) as Hn0a. pose proof (Heff a) as He.
    autorewrite with vnth. subst ov0. rewrite vnth_initial_overflow.
    pose proof (Qceiling_half (vnth a eff * vnth a n0 - vnth a image + vnth a overlap)).
    lia.
Qed.

(** * The claims *)

(** ** Planner *)

(** C2, counterexample.  With [randomize_offset=False], volume 32, patch 8 and
    overlap 0 are planned with overflow 0 on every axis, which is below a
    quarter of the patch.  And with [randomize_offset=True], volume 10, patch
    2^62 and overlap 2^60 + 9: the overflow 2^60 - 1 is below a quarter of the
    patch, yet [(2^60 - 1) / 2^62] rounds to 0.25 in float64 and no patch is
    added. *)
Lemma C2_no_minimum_overflow_without_randomization :
  (exists l g',
     Machine.calc_patch_indices 20 (vrepeat 32) (vrepeat 8) (vrepeat 0) false
       default_minimum_overflow_fraction (fun _ => 0) = Ok (l, vrepeat 0, g') /\
     ~ (default_minimum_overflow_fraction * inject_Z 8 <= inject_Z 0)%Q) /\
  (geometry_ok (vrepeat (2 ^ 62)) (vrepeat (2 ^ 60 + 9)) /\
   exists l g',
     Machine.calc_patch_indices 20 (vrepeat 10) (vrepeat (2 ^ 62)) (vrepeat (2 ^ 60 + 9)) true
       default_minimum_overflow_fraction (fun _ => 0) = Ok (l, vrepeat (2 ^ 60 - 1), g') /\
     ~ (default_minimum_overflow_fraction * inject_Z (2 ^ 62) <= inject_Z (2 ^ 60 - 1))%Q).
Proof.
  split.
  - eexists _, _. split.
    + vm_compute. reflexivity.
    + intros H. vm_compute in H. apply H. reflexivity.
  - split; [intros []; simpl; lia|]. eexists _, _. split.
    + vm_compute. reflexivity.
    + intros H. vm_compute in H. apply H. reflexivity.
Qed.

(** C2, amended: with [randomize_offset=True], the default fraction 0.25,
    [0 <= overlap < patch_shape] and no patch or volume extent above 2^24,
    every returned overflow is at least a quarter of the patch on every axis;
    the call returns when the volume is wider than the overlap; and for volume
    32, patch 8, overlap 0 a fifth patch is forced on every axis, with
    overflow 8. *)
Theorem C2_minimum_overflow_when_randomized (fuel : nat) (image patch overlap : vec3 Z) :
  small_extents image patch overlap ->
  (forall g l ov g',
      Machine.calc_patch_indices fuel image patch overlap true
        default_minimum_overflow_fraction g = Ok (l, ov, g') ->
      forall a, (default_minimum_overflow_fraction * inject_Z (vnth a patch)
                 <= inject_Z (vnth a ov))%Q) /\
  (enough_fuel fuel (loop_bound true patch overlap) ->
   (forall a, vnth a overlap < vnth a image) ->
   forall g, exists l ov g',
       Machine.calc_patch_indices fuel image patch overlap true
         default_minimum_overflow_fraction g = Ok (l, ov, g')) /\
  (image = vrepeat 32 -> patch = vrepeat 8 -> overlap = vrepeat 0 ->
   forall g l ov g',
       Machine.calc_patch_indices fuel image patch overlap true
         default_minimum_overflow_fraction g = Ok (l, ov, g') ->
       ov = vrepeat 8 /\ length l = 125%nat).
Proof.
  intros Hsmall.
  destruct (exact_minimum_overflow fuel image patch overlap
              (small_extents_geometry _ _ _ Hsmall)) as (H1 & H2 & H3).
  split; [|split].
  - intros g l ov g' H. rewrite machine_planner_exact in H by exact Hsmall.
    exact (H1 g l ov g' H).
  - intros Hfuel Himg g. rewrite machine_planner_exact by exact Hsmall.
    exact (H2 Hfuel Himg g).
  - intros Ei Ep Eo g l ov g' H. rewrite machine_planner_exact in H by exact Hsmall.
    exact (H3 Ei Ep Eo g l ov g' H).
Qed.

Lemma C2_minimum_overflow_witness :
  exists l ov g',
    Machine.calc_patch_indices 32 (V3 30 20 10) (vrepeat 8) (vrepeat 2) true
      default_minimum_overflow_fraction demo_rng = Ok (l, ov, g') /\
    forall a, (default_minimum_overflow_fraction * inject_Z (vnth a (vrepeat 8%Z))
               <= inject_Z (vnth a ov))%Q.
Proof.
  assert (Hsmall : small_extents (V3 30 20 10) (vrepeat 8) (vrepeat 2))
    by (intros []; simpl; lia).
  destruct (C2_minimum_overflow_when_randomized 32 (V3 30 20 10) (vrepeat 8) (vrepeat 2)
              Hsmall) as (H1 & H2 & _).
  destruct (H2 ltac:(reflexivity) ltac:(intros []; simpl; lia) demo_rng)
    as (l & ov & g' & H).
  exists l, ov, g'. split; [exact H|]. exact (H1 demo_rng l ov g' H).
Defined.

(** C5, counterexample: volume (2^60 + 2, 4, 4) and patch (2^60, 4, 4), with
    overlap 0 and [randomize_offset=False].  Step 2 computes [2 / 2^60 + 1],
    which is 1 in float64, so one patch is planned where two are needed; the
    overflow is -2 and the start +1.  The loop then adds a patch, but the start
    is not computed again: the placements begin at 1 and at 2^60 + 1, and the
    voxel at the origin lies in none. *)
Lemma C5_origin_uncovered_beyond_float64 :
  (forall a, 1 <= vnth a (V3 (2 ^ 60) 4 4) <= vnth a (V3 (2 ^ 60 + 2) 4 4)) /\
  exists l ov g',
    Machine.calc_patch_indices 20 (V3 (2 ^ 60 + 2) 4 4) (V3 (2 ^ 60) 4 4) (vrepeat 0) false
      default_minimum_overflow_fraction (fun _ => 0) = Ok (l, ov, g') /\
    l = [V3 1 0 0; V3 (2 ^ 60 + 1) 0 0] /\
    (forall a, 0 <= vnth a (vrepeat 0) < vnth a (V3 (2 ^ 60 + 2) 4 4)) /\
    ~ exists p, In p l /\
        forall a, vnth a p <= vnth a (vrepeat 0) < vnth a p + vnth a (V3 (2 ^ 60) 4 4).
Proof.
  split; [intros []; simpl; lia|].
  eexists _, _, _. split; [vm_compute; reflexivity|]. split; [reflexivity|].
  split; [intros []; simpl; lia|].
  intros (p & [<-|[<-|[]]] & H); specialize (H Ax0); simpl in H; lia.
Qed.

(** C5, amended: with overlap 0 and [randomize_offset=False], for a patch no
    larger than the volume and a volume of extent at most 2^24 on every axis,
    planning returns placements such that every voxel coordinate of the volume
    lies inside some placement, and a placement that ends before the far edge
    of an axis is followed, exactly one patch further on that axis, by another
    placement: adjacent patches abut without a gap. *)
Theorem C5_placements_cover_volume (fuel : nat) (image patch : vec3 Z) (g : rng) :
  (forall a, 1 <= vnth a patch <= vnth a image /\ vnth a image <= 2 ^ 24) ->
  (0 < fuel)%nat ->
  exists l ov g',
    Machine.calc_patch_indices fuel image patch (vrepeat 0) false
      default_minimum_overflow_fraction g = Ok (l, ov, g') /\
    (forall c, (forall a, 0 <= vnth a c < vnth a image) ->
       exists p, In p l /\ forall a, vnth a p <= vnth a c < vnth a p + vnth a patch) /\
    (forall p a, In p l -> vnth a p + vnth a patch < vnth a image ->
       In (vset a (vnth a p + vnth a patch) p) l).
Proof.
  intros Hsize Hfuel.
  assert (Hsmall : small_extents image patch (vrepeat 0)).
  { intros a. specialize (Hsize a). destruct a; simpl in *; lia. }
  rewrite machine_planner_exact by exact Hsmall.
  apply exact_placements_cover; [|exact Hfuel].
  intros a. specialize (Hsize a). lia.
Qed.

Lemma C5_placements_cover_witness :
  exists l ov g',
    Machine.calc_patch_indices 3 (V3 30 20 10) (V3 8 8 4) (vrepeat 0) false
      default_minimum_overflow_fraction (fun _ => 0) = Ok (l, ov, g') /\
    (forall c, (forall a, 0 <= vnth a c < vnth a (V3 30 20 10)) ->
       exists p, In p l /\ forall a, vnth a p <= vnth a c < vnth a p + vnth a (V3 8 8 4)) /\
    (forall p a, In p l -> vnth a p + vnth a (V3 8 8 4) < vnth a (V3 30 20 10) ->
       In (vset a (vnth a p + vnth a (V3 8 8 4)) p) l).
Proof.
  apply (C5_placements_cover_volume 3 (V3 30 20 10) (V3 8 8 4) (fun _ => 0)).
  - intros []; simpl; lia.
  - lia.
Defined.

(** C9, counterexample.  Volume 2, patch 8, overlap 5 satisfy
    [0 <= overlap < patch_shape], yet step 2 gives [n_patches = -1] on every
    axis and the randomized plan has no placement at all.  And volume 3, patch
    2^60, overlap 0: [(3 - 2^60) / 2^60 + 1] is 0 in float64, so step 2 gives
    [n_patches = 0]. *)
Lemma C9_no_patch_when_overlap_covers_volume :
  (geometry_ok (vrepeat 8) (vrepeat 5) /\
   Machine.initial_n_patches (vrepeat 2) (vrepeat 8)
     (Machine.vsub64 (vrepeat 8) (vrepeat 5)) = vrepeat (-1) /\
   exists ov g',
     Machine.calc_patch_indices 32 (vrepeat 2) (vrepeat 8) (vrepeat 5) true
       default_minimum_overflow_fraction (fun _ => 0) = Ok ([], ov, g')) /\
  (geometry_ok (vrepeat (2 ^ 60)) (vrepeat 0) /\
   (forall a, vnth a (vrepeat 0) < vnth a (vrepeat 3)) /\
   Machine.initial_n_patches (vrepeat 3) (vrepeat (2 ^ 60))
     (Machine.vsub64 (vrepeat (2 ^ 60)) (vrepeat 0)) = vrepeat 0).
Proof.
  split.
  - split; [intros []; simpl; lia|]. split; [vm_compute; reflexivity|].
    eexists _, _. vm_compute. reflexivity.
  - split; [intros []; simpl; lia|]. split; [intros []; simpl; lia|].
    vm_compute. reflexivity.
Qed.

(** C9, amended: for [0 <= overlap < patch_shape], no patch or volume extent
    above 2^24, and a volume wider than the overlap on every axis (the patch
    may still exceed the volume), step 2 yields [n_patches >= 1] on every axis,
    planning returns at least one placement, and the overflow is non-negative
    and at least the excess of the patch over the volume. *)
Theorem C9_at_least_one_patch (fuel : nat) (image patch overlap : vec3 Z)
    (rand : bool) (g : rng) :
  small_extents image patch overlap ->
  (forall a, vnth a overlap < vnth a image) ->
  enough_fuel fuel (loop_bound rand patch overlap) ->
  (forall a, 1 <= vnth a (Machine.initial_n_patches image patch
                            (Machine.vsub64 patch overlap))) /\
  exists l ov g',
    Machine.calc_patch_indices fuel image patch overlap rand
      default_minimum_overflow_fraction g = Ok (l, ov, g') /\
    (1 <= length l)%nat /\
    forall a, 0 <= vnth a ov /\ vnth a patch - vnth a image <= vnth a ov.
Proof.
  intros Hsmall Himg Hfuel.
  rewrite machine_initial_n_patches_exact, machine_planner_exact by exact Hsmall.
  apply exact_at_least_one_patch; [|exact Himg|exact Hfuel].
  exact (small_extents_geometry _ _ _ Hsmall).
Qed.

Lemma C9_at_least_one_patch_witness :
  (forall a, 1 <= vnth a (Machine.initial_n_patches (V3 6 9 30) (vrepeat 8)
                            (Machine.vsub64 (vrepeat 8) (vrepeat 2)))) /\
  exists l ov g',
    Machine.calc_patch_indices 32 (V3 6 9 30) (vrepeat 8) (vrepeat 2) true
      default_minimum_overflow_fraction (fun _ => 5) = Ok (l, ov, g') /\
    (1 <= length l)%nat /\
    forall a, 0 <= vnth a ov /\ vnth a (vrepeat 8) - vnth a (V3 6 9 30) <= vnth a ov.
Proof.
  apply (C9_at_least_one_patch 32 (V3 6 9 30) (vrepeat 8) (vrepeat 2) true (fun _ => 5)).
  - intros []; simpl; lia.
  - intros []; simpl; lia.
  - reflexivity.
Defined.

(** ** The example datasets exist *)

Lemma dataset_of_Ok (r : result (@MRISegmentation Z * rng)) :
  match r with Ok _ => true | Raise _ => false end = true ->
  exists g', r = Ok (dataset_of r, g').
Proof. destruct r as [[ds g]|e]; [intros _; exists g; reflexivity|discriminate]. Qed.

Lemma result_map_Ok {A B : Type} (f : A -> B) (r : result A) (y : B) :
  result_map f r = Ok y -> exists x, r = Ok x /\ f x = y.
Proof.
  destruct r as [x|e]; simpl; intros H; [|discriminate].
  inversion H. exists x. split; reflexivity.
Qed.

Lemma small_dataset_reachable :
  reachable to_int64 32 small_volumes [] (Integral 8) (Integral 2) true pad_constant_rule 0
    small_dataset.
Proof.
  destruct (dataset_of_Ok (init to_int64 32 small_volumes [] (Integral 8) (Integral 2) true
                             pad_constant_rule 0 demo_rng)) as [g' H].
  - vm_compute. reflexivity.
  - eapply reach_init. exact H.
Qed.

Lemma small_dataset_epoch2_reachable :
  reachable to_int64 32 small_volumes [] (Integral 8) (Integral 2) true pad_constant_rule 0
    small_dataset_epoch2.
Proof.
  destruct (dataset_of_Ok (initialize_patch_indices 32 small_dataset demo_rng2)) as [g' H].
  - vm_compute. reflexivity.
  - eapply reach_epoch; [exact small_dataset_reachable|exact H].
Qed.

Lemma edge_dataset_reachable :
  reachable to_int64 32 [ramp_volume (V3 14 14 14)] [] (Integral 10) (Integral 0) false
    pad_constant_rule 0 edge_dataset.
Proof.
  destruct (dataset_of_Ok (init to_int64 32 [ramp_volume (V3 14 14 14)] [] (Integral 10)
                             (Integral 0) false pad_constant_rule 0 demo_rng)) as [g' H].
  - vm_compute. reflexivity.
  - eapply reach_init. exact H.
Qed.

Lemma small_geometry : geometry_ok (as_vec3 (Integral 8)) (as_vec3 (Integral 2)).
Proof. intros []; simpl; lia. Qed.

Lemma small_volumes_fit : volumes_fit small_volumes (as_vec3 (Integral 8)).
Proof.
  intros vol [<-|[<-|[]]] []; simpl; lia.
Qed.

(** ** Dataset object *)

(** C1, the failing input: a dataset constructed with patch 8 and overlap 0 from
    one volume of shape (65544, 8, 8).  Flat index 8191 is in range; its stored
    start 65528 becomes -8 in 16 bits, the slice [-8:0] is empty and the first
    shape assertion fires. *)
Lemma C1_assertion_fires_beyond_int16 :
  (exists g', init to_int64 32 [ramp_volume (V3 65544 8 8)] [] (Integral 8) (Integral 0) false
                pad_constant_rule 0 demo_rng = Ok (long_dataset, g')) /\
  geometry_ok (as_vec3 (Integral 8)) (as_vec3 (Integral 0)) /\
  0 <= 8191 < len long_dataset /\
  py_index (patch_indices long_dataset) 8191 = Ok (O, V3 65528 0 0) /\
  getitem keep long_dataset 8191 = Raise AssertionError.
Proof.
  split; [|split; [|split; [|split]]].
  - apply dataset_of_Ok. vm_compute. reflexivity.
  - intros []; simpl; lia.
  - split; [lia|]. apply Z.ltb_lt. vm_compute. reflexivity.
  - vm_compute. reflexivity.
  - vm_compute. reflexivity.
Qed.

(** C3: in every state of a dataset constructed with valid geometry, each
    volume is padded by the planned overflow on both sides of every axis, the
    padded shape is the unpadded shape plus the two pads, planning that volume
    returns for every stream of random draws, always with that same overflow,
    and every placement of every such plan (hence every stored row) translates
    into the padded array: [0 <= start + pad_low] and
    [start + patch_shape + pad_low <= padded_shape] on every axis. *)
Theorem C3_padding_covers_every_placement {V : Type} (astype_int64 : V -> V)
    (fuel : nat) (vols : list loaded_volume) (cc : list Z) (ps po : int_or_vec)
    (rand : bool) (mode : pad_rule) (c : V) (ds : MRISegmentation) :
  reachable astype_int64 fuel vols cc ps po rand mode c ds ->
  geometry_ok (as_vec3 ps) (as_vec3 po) ->
  forall j vol, vols !! j = Some vol ->
    exists pw sig lab,
      padding_boundary ds !! j = Some (Some pw) /\
      data ds !! j = Some sig /\ labels ds !! j = Some lab /\
      unpadded_data_shape ds !! j = Some (vol_shape vol) /\
      shape sig = vadd (vadd (vol_shape vol) (column0 pw)) (column1 pw) /\
      shape lab = vadd (vadd (vol_shape vol) (column0 pw)) (column1 pw) /\
      (forall g, exists l ov g',
          calc_patch_indices fuel (vol_shape vol) (as_vec3 ps) (as_vec3 po) rand
            default_minimum_overflow_fraction g = Ok (l, ov, g')) /\
      (forall g l ov g',
          calc_patch_indices fuel (vol_shape vol) (as_vec3 ps) (as_vec3 po) rand
            default_minimum_overflow_fraction g = Ok (l, ov, g') ->
          column0 pw = ov /\ column1 pw = ov /\
          forall p, In p l ->
            forall a, 0 <= vnth a p + vnth a (column0 pw) /\
                      vnth a p + vnth a (as_vec3 ps) + vnth a (column0 pw)
                      <= vnth a (shape sig)) /\
      (forall p, In (j, p) (patch_indices ds) ->
         forall a, 0 <= vnth a p + vnth a (column0 pw) /\
                   vnth a p + vnth a (as_vec3 ps) + vnth a (column0 pw)
                   <= vnth a (shape sig)).
Proof.
  intros Hreach Hgeo j vol Hv.
  apply reachable_consistent in Hreach as [Hc (Hps & Hpo & Hr & _)].
  rewrite <- Hps, <- Hpo, <- Hr in *.
  pose proof Hc as [Hshapes _ _ Hvol _].
  destruct (Hvol _ _ Hv) as (ov & sig & lab & Hb & (g0 & l0 & g0' & Hplan) & Hpads & Hd & Hpadl & Hl).
  apply np_pad_Ok in Hpads as (_ & Hss & _). apply np_pad_Ok in Hpadl as (_ & Hsl & _).
  rewrite column0_stack, column1_stack in Hss, Hsl.
  change (shape (signal_volume vol)) with (vol_shape vol) in Hss.
  change (shape (label_volume vol)) with (vol_shape vol) in Hsl.
  assert (Hswap : vadd (vadd ov (vol_shape vol)) ov = vadd (vadd (vol_shape vol) ov) ov).
  { apply vec3_ext. intros a. autorewrite with vnth. lia. }
  exists (stack_columns ov ov), sig, (astype astype_int64 lab).
  rewrite column0_stack, column1_stack.
  split; [exact Hb|]. split; [exact Hd|]. split; [exact Hl|].
  split; [rewrite Hshapes, list_lookup_fmap, Hv; reflexivity|].
  split; [rewrite Hss; exact Hswap|].
  split; [cbn [astype shape]; rewrite Hsl; exact Hswap|]. split; [|split].
  - intros g. destruct (calc_patch_indices_rng_indep _ _ _ _ _ _ _ g _ _ _ Hplan)
      as (l & g' & H). eauto.
  - intros g l ov' g' H.
    assert (ov' = ov) by (eapply calc_patch_indices_overflow_det; eauto). subst ov'.
    split; [reflexivity|]. split; [reflexivity|]. intros p Hp a.
    destruct (calc_patch_indices_bounds _ _ _ _ _ _ _ _ _ Hgeo H) as [_ Hbounds].
    specialize (Hbounds p Hp a). rewrite Hss. autorewrite with vnth. lia.
  - intros p Hp a.
    destruct (consistent_row astype_int64 fuel vols ds (j, p) Hc Hgeo Hp)
      as (vol' & ov' & _ & _ & Hv' & _ & Hb' & _ & _ & _ & _ & Hbounds).
    simpl in Hv', Hb', Hbounds.
    assert (vol' = vol) by congruence. subst vol'.
    assert (ov' = ov).
    { assert (E : stack_columns ov ov = stack_columns ov' ov') by congruence.
      apply (f_equal column0) in E. rewrite !column0_stack in E. congruence. }
    subst ov'. specialize (Hbounds a). rewrite Hss. autorewrite with vnth. lia.
Qed.

Lemma C3_padding_covers_witness :
  exists pw sig lab,
    padding_boundary small_dataset_epoch2 !! 1%nat = Some (Some pw) /\
    data small_dataset_epoch2 !! 1%nat = Some sig /\
    labels small_dataset_epoch2 !! 1%nat = Some lab /\
    unpadded_data_shape small_dataset_epoch2 !! 1%nat = Some (V3 9 9 9) /\
    shape sig = vadd (vadd (V3 9 9 9) (column0 pw)) (column1 pw) /\
    shape lab = vadd (vadd (V3 9 9 9) (column0 pw)) (column1 pw) /\
    (forall g, exists l ov g',
        calc_patch_indices 32 (V3 9 9 9) (vrepeat 8) (vrepeat 2) true
          default_minimum_overflow_fraction g = Ok (l, ov, g')) /\
    (forall g l ov g',
        calc_patch_indices 32 (V3 9 9 9) (vrepeat 8) (vrepeat 2) true
          default_minimum_overflow_fraction g = Ok (l, ov, g') ->
        column0 pw = ov /\ column1 pw = ov /\
        forall p, In p l ->
          forall a, 0 <= vnth a p + vnth a (column0 pw) /\
                    vnth a p + vnth a (vrepeat 8) + vnth a (column0 pw)
                    <= vnth a (shape sig)) /\
    (forall p, In (1%nat, p) (patch_indices small_dataset_epoch2) ->
       forall a, 0 <= vnth a p + vnth a (column0 pw) /\
                 vnth a p + vnth a (vrepeat 8) + vnth a (column0 pw)
                 <= vnth a (shape sig)).
Proof.
  apply (C3_padding_covers_every_placement to_int64 32 small_volumes [] (Integral 8)
           (Integral 2) true pad_constant_rule 0 small_dataset_epoch2
           small_dataset_epoch2_reachable small_geometry 1%nat (ramp_volume (V3 9 9 9))).
  reflexivity.
Defined.

(** C4, counterexample: a volume whose labels are 0.5.  The constructor stores
    the padded labels cast to int64 (line 69), so [get_original] returns the
    label 0 where 0.5 was loaded. *)
Lemma C4_labels_returned_as_int64 :
  exists ds g' s l,
    init int64_of_float 32 [half_labels] [] (Integral 2) (Integral 0) false
      pad_constant_rule 0%Q demo_rng = Ok (ds, g') /\
    get_original ds 0 = Ok (s, l) /\
    vol_label half_labels 0 0 0 = (1 # 2)%Q /\
    voxel l 0 0 0 = 0%Q /\
    ~ (voxel l 0 0 0 == vol_label half_labels 0 0 0)%Q.
Proof.
  destruct (init_total int64_of_float 32 [half_labels] [] (Integral 2) (Integral 0) false
              0%Q demo_rng) as (ds & g' & H).
  - intros []; simpl; lia.
  - unfold enough_fuel. simpl. lia.
  - intros vol [<-|[]] []; simpl; lia.
  - pose proof (init_consistent int64_of_float 32 [half_labels] [] (Integral 2) (Integral 0)
                  false pad_constant_rule 0%Q demo_rng ds g' H) as [Hc _].
    destruct (get_original_spec int64_of_float 32 [half_labels] ds 0 half_labels Hc eq_refl)
      as (s & l & Hget & _ & Hshape & Hvox).
    { intros []; simpl; lia. }
    exists ds, g', s, l. split; [exact H|]. split; [exact Hget|]. split; [reflexivity|].
    assert (E : voxel l 0 0 0 = 0%Q).
    { rewrite Hvox; [reflexivity| | |]; rewrite Hshape; simpl; lia. }
    split; [exact E|]. rewrite E. discriminate.
Qed.

(** C4, amended: for every volume of a constructed dataset, whatever the pad
    constant, [get_original] returns the signal volume exactly as loaded and
    the label volume as loaded and cast to int64; for labels that are int64
    class indices already (the cast leaves them alone) the label volume is
    exactly the one loaded. *)
Theorem C4_get_original_round_trip {V : Type} (astype_int64 : V -> V)
    (fuel : nat) (vols : list loaded_volume) (cc : list Z) (ps po : int_or_vec)
    (rand : bool) (mode : pad_rule) (c : V) (ds : MRISegmentation)
    (j : nat) (vol : loaded_volume) :
  reachable astype_int64 fuel vols cc ps po rand mode c ds ->
  vols !! j = Some vol ->
  (forall a, 0 <= vnth a (vol_shape vol)) ->
  exists s l,
    get_original ds (Z.of_nat j) = Ok (s, l) /\
    array_eq s (signal_volume vol) /\
    array_eq l (astype astype_int64 (label_volume vol)) /\
    ((forall x y z, astype_int64 (vol_label vol x y z) = vol_label vol x y z) ->
     array_eq l (label_volume vol)).
Proof.
  intros Hreach Hv Hshape.
  apply reachable_consistent in Hreach as [Hc _].
  destruct (get_original_spec astype_int64 fuel vols ds j vol Hc Hv Hshape)
    as (s & l & Hget & Hs & Hl).
  exists s, l. split; [exact Hget|]. split; [exact Hs|]. split; [exact Hl|].
  intros Hint. destruct Hl as [Hl1 Hl2]. split; [exact Hl1|].
  intros x y z Hx Hy Hz. rewrite (Hl2 x y z Hx Hy Hz). simpl. apply Hint.
Qed.

Lemma C4_get_original_witness :
  exists s l,
    get_original small_dataset_epoch2 (Z.of_nat 0) = Ok (s, l) /\
    array_eq s (signal_volume (ramp_volume (V3 30 20 10))) /\
    array_eq l (label_volume (ramp_volume (V3 30 20 10))).
Proof.
  destruct (C4_get_original_round_trip to_int64 32 small_volumes [] (Integral 8) (Integral 2)
              true pad_constant_rule 0 small_dataset_epoch2 0 (ramp_volume (V3 30 20 10))
              small_dataset_epoch2_reachable eq_refl ltac:(intros []; simpl; lia))
    as (s & l & Hget & Hs & _ & Hl).
  exists s, l. split; [exact Hget|]. split; [exact Hs|]. apply Hl.
  intros x y z. cbn [vol_label ramp_volume]. unfold to_int64.
  pose proof (Z.mod_pos_bound (x + y + z) 3 ltac:(lia)).
  rewrite Z.mod_small; lia.
Defined.

(** C7: on a constructed dataset, in any of its states, re-invoking
    [initialize_patch_indices] returns, leaves [padding_boundary], [data],
    [labels] and [unpadded_data_shape] as they were, and builds the new patch
    index from scratch: the result does not depend on the old index. *)
Theorem C7_reinitialization_keeps_padding {V : Type} (astype_int64 : V -> V)
    (fuel : nat) (vols : list loaded_volume) (cc : list Z) (ps po : int_or_vec)
    (rand : bool) (mode : pad_rule) (c : V) (ds : MRISegmentation) (g : rng) :
  reachable astype_int64 fuel vols cc ps po rand mode c ds ->
  exists ds' g',
    initialize_patch_indices fuel ds g = Ok (ds', g') /\
    padding_boundary ds' = padding_boundary ds /\
    data ds' = data ds /\
    labels ds' = labels ds /\
    unpadded_data_shape ds' = unpadded_data_shape ds /\
    forall old, initialize_patch_indices fuel (set_patch_indices old ds) g = Ok (ds', g').
Proof.
  intros Hreach. apply reachable_consistent in Hreach as [Hc _].
  destruct (reinit_total astype_int64 fuel vols ds g Hc) as (ds' & g' & H).
  destruct (reinit_spec astype_int64 fuel vols ds g ds' g' Hc H)
    as (_ & (_ & _ & _ & _ & _ & Hd & Hl & Hu & _) & Hpb).
  exists ds', g'. split; [exact H|]. split; [exact Hpb|]. split; [exact Hd|].
  split; [exact Hl|]. split; [exact Hu|]. intros old. exact H.
Qed.

Lemma C7_reinitialization_witness :
  exists ds' g',
    initialize_patch_indices 32 small_dataset demo_rng2 = Ok (ds', g') /\
    padding_boundary ds' = padding_boundary small_dataset /\
    data ds' = data small_dataset /\
    labels ds' = labels small_dataset /\
    unpadded_data_shape ds' = unpadded_data_shape small_dataset /\
    forall old,
      initialize_patch_indices 32 (set_patch_indices old small_dataset) demo_rng2
      = Ok (ds', g').
Proof.
  apply (C7_reinitialization_keeps_padding to_int64 32 small_volumes [] (Integral 8)
           (Integral 2) true pad_constant_rule 0 small_dataset demo_rng2
           small_dataset_reachable).
Defined.

(** C6, the failing input: one volume of shape (40960, 4, 4) and patch
    (8192, 4, 4).  The row at flat index 4 starts at 32768 and lies entirely
    inside the volume, so the formula of the claim gives the valid region
    [0, patch_shape); the call returns (32768, 32768) on the first axis, computed
    from the 16-bit start -32768. *)
Lemma C6_valid_region_from_wrapped_start :
  (exists g', init to_int64 32 [ramp_volume (V3 40960 4 4)] [] (Vector (V3 8192 4 4))
                (Integral 0) false pad_constant_rule 0 demo_rng = Ok (wide_dataset, g')) /\
  0 <= 4 < len wide_dataset /\
  py_index (patch_indices wide_dataset) 4 = Ok (O, V3 32768 0 0) /\
  py_index (unpadded_data_shape wide_dataset) 0 = Ok (V3 40960 4 4) /\
  (vsub (clip0 (V3 40960 4 4) (V3 32768 0 0)) (V3 32768 0 0),
   vsub (clip0 (V3 40960 4 4) (vadd (V3 32768 0 0) (V3 8192 4 4))) (V3 32768 0 0))
  = (V3 0 0 0, V3 8192 4 4) /\
  exists item,
    getitem keep wide_dataset 4 = Ok item /\
    item_patch_valid item = (V3 32768 0 0, V3 32768 4 4).
Proof.
  split; [|split; [|split; [|split; [|split]]]].
  - apply dataset_of_Ok. vm_compute. reflexivity.
  - split; [lia|]. apply Z.ltb_lt. vm_compute. reflexivity.
  - vm_compute. reflexivity.
  - vm_compute. reflexivity.
  - reflexivity.
  - destruct (result_map_Ok item_patch_valid (getitem keep wide_dataset 4)
                (V3 32768 0 0, V3 32768 4 4)) as (item & Hget & Hvalid).
    + vm_compute. reflexivity.
    + exists item. split; assumption.
Qed.

(** C8, the failing input: one volume of shape (73728, 4, 4) and patch
    (8192, 4, 4) give 9 patches; flat index 7 is in range, yet the call neither
    returns a tuple nor raises [IndexError]: the stored start 57344 becomes
    -8192 in 16 bits, the slice is empty and the shape assertion fires. *)
Lemma C8_in_range_access_fails_beyond_int16 :
  (exists g', init to_int64 32 [ramp_volume (V3 73728 4 4)] [] (Vector (V3 8192 4 4))
                (Integral 0) false pad_constant_rule 0 demo_rng = Ok (tall_dataset, g')) /\
  len tall_dataset = 9 /\
  py_index (patch_indices tall_dataset) 7 = Ok (O, V3 57344 0 0) /\
  getitem keep tall_dataset 7 = Raise AssertionError.
Proof.
  split; [|split; [|split]].
  - apply dataset_of_Ok. vm_compute. reflexivity.
  - vm_compute. reflexivity.
  - vm_compute. reflexivity.
  - vm_compute. reflexivity.
Qed.

(** C10, counterexample: in the dataset over one volume of shape
    (65544, 8, 8) with patch 8, the row at flat index 4095 starts at 32760,
    which fits in 16 bits.  Its end 32768 does not, and the claim has it wrap to
    -32768; the call returns the end 32768: the end is the sum of the 16-bit
    start and the 64-bit patch shape (line 126), computed in 64 bits. *)
Lemma C10_end_not_wrapped :
  py_index (patch_indices long_dataset) 4095 = Ok (O, V3 32760 0 0) /\
  patch_shape long_dataset = vrepeat 8 /\
  (forall a, fits_int16 (vnth a (V3 32760 0 0))) /\
  ~ fits_int16 (32760 + 8) /\
  wrap_int16 (32760 + 8) = -32768 /\
  exists item,
    getitem keep long_dataset 4095 = Ok item /\
    item_patch_index item = (V3 32760 0 0, V3 32768 8 8).
Proof.
  split; [vm_compute; reflexivity|]. split; [vm_compute; reflexivity|].
  split; [intros []; unfold fits_int16; simpl; lia|].
  split; [unfold fits_int16; lia|]. split; [reflexivity|].
  destruct (result_map_Ok item_patch_index (getitem keep long_dataset 4095)
              (V3 32760 0 0, V3 32768 8 8)) as (item & Hget & Hidx).
  - vm_compute. reflexivity.
  - exists item. split; assumption.
Qed.

(** C10, amended: whenever [__getitem__] returns, the start it worked with is
    the stored start converted to 16 bits: a value in [-32768, 32767] congruent
    to the stored one modulo 65536, and the stored start itself when that fits.
    The end is that start plus the patch shape, computed in 64 bits and not
    wrapped.  The returned bounds are this start and this end; the valid region
    and both slices are computed from them. *)
Theorem C10_start_converted_to_int16 {V : Type} (astype_float32 : V -> V)
    (ds : MRISegmentation) (index : Z) (item : patch_item) :
  getitem astype_float32 ds index = Ok item ->
  exists row image lab unpadded pw,
    py_index (patch_indices ds) index = Ok row /\
    data ds !! fst row = Some image /\
    labels ds !! fst row = Some lab /\
    unpadded_data_shape ds !! fst row = Some unpadded /\
    padding_boundary ds !! fst row = Some (Some pw) /\
    let start := vmap wrap_int16 (snd row) in
    let stop := vadd start (patch_shape ds) in
    (forall a, fits_int16 (vnth a start) /\
               exists q, vnth a start = vnth a (snd row) + q * 65536) /\
    item_patch_index item = (start, stop) /\
    item_patch_valid item
      = (vsub (clip0 unpadded start) start, vsub (clip0 unpadded stop) start) /\
    image_patch item
      = [astype astype_float32
           (slice3 image (vadd start (column0 pw)) (vadd stop (column0 pw)))] /\
    labels_patch item
      = [slice3 lab (vadd start (column0 pw)) (vadd stop (column0 pw))] /\
    ((forall a, fits_int16 (vnth a (snd row))) ->
     item_patch_index item = (snd row, vadd (snd row) (patch_shape ds))).
Proof.
  intros H.
  destruct (getitem_Ok astype_float32 ds index item H)
    as (row & image & lab & unpadded & pw & Hrow & Hd & Hl & Hu & Hb
        & _ & Hidx & Hvalid & Himg & Hlab & _).
  exists row, image, lab, unpadded, pw.
  split; [exact Hrow|]. split; [exact Hd|]. split; [exact Hl|]. split; [exact Hu|].
  split; [exact Hb|]. cbv zeta.
  split; [|split; [exact Hidx|split; [exact Hvalid|split; [exact Himg|split; [exact Hlab|]]]]].
  - intros a. rewrite vnth_vmap. split; [apply wrap_int16_range|apply wrap_int16_congruent].
  - intros Hfit. rewrite Hidx.
    replace (vmap wrap_int16 (snd row)) with (snd row); [reflexivity|].
    apply vec3_ext. intros a. rewrite vnth_vmap. symmetry. apply wrap_int16_fits. apply Hfit.
Qed.

Lemma C10_start_converted_witness :
  exists item row,
    getitem keep wide_dataset 4 = Ok item /\
    py_index (patch_indices wide_dataset) 4 = Ok row /\
    snd row = V3 32768 0 0 /\
    item_patch_index item = (V3 (-32768) 0 0, V3 (-24576) 4 4).
Proof.
  destruct (result_map_Ok item_dataset_index (getitem keep wide_dataset 4) O)
    as (item & E & _).
  - vm_compute. reflexivity.
  - destruct (C10_start_converted_to_int16 keep wide_dataset 4 item E)
      as (row & _ & _ & _ & _ & Hrow & _ & _ & _ & _ & _ & Hidx & _).
    exists item, row. split; [exact E|]. split; [exact Hrow|].
    vm_compute in Hrow. inversion Hrow; subst row. split; [reflexivity|].
    rewrite Hidx. vm_compute. reflexivity.
Defined.

(** * Further properties of the planner *)

(** One axis of the general coverage argument: patches of extent [patch]
    placed every [eff <= patch] voxels from [start]. *)
Lemma axis_cover_stride (patch eff start n c : Z) :
  0 < eff <= patch -> 1 <= n -> start <= 0 -> 0 <= c ->
  c < (n - 1) * eff + start + patch ->
  exists k, 0 <= k < n /\ k * eff + start <= c < k * eff + start + patch.
Proof.
  intros He Hn Hs Hc Hend.
  destruct (Z_lt_le_dec c (n * eff + start)) as [Hlt|Hge].
  - exists ((c - start) / eff).
    pose proof (Z.div_pos (c - start) eff ltac:(lia) ltac:(lia)).
    pose proof (Z.mul_div_le (c - start) eff ltac:(lia)).
    pose proof (Z.mul_succ_div_gt (c - start) eff ltac:(lia)).
    assert ((c - start) / eff < n) by (apply Z.div_lt_upper_bound; lia).
    lia.
  - exists (n - 1). lia.
Qed.

(** In exact arithmetic: for every overlap and both placement modes, with
    valid geometry, volume extents above the overlap and enough fuel, the
    planner returns and every voxel of the volume lies in at least one placed
    patch. *)
Lemma exact_every_plan_covers (fuel : nat) (image patch overlap : vec3 Z)
    (rand : bool) (g : rng) :
  geometry_ok patch overlap ->
  (forall a, vnth a overlap < vnth a image) ->
  enough_fuel fuel (loop_bound rand patch overlap) ->
  exists l ov g',
    calc_patch_indices fuel image patch overlap rand
      default_minimum_overflow_fraction g = Ok (l, ov, g') /\
    forall c, (forall a, 0 <= vnth a c < vnth a image) ->
      exists p, In p l /\ forall a, vnth a p <= vnth a c < vnth a p + vnth a patch.
Proof.
  intros Hgeo Himg Hfuel.
  destruct (calc_patch_indices_total fuel image patch overlap rand g Hgeo Hfuel Himg)
    as (l & ov & g' & H).
  exists l, ov, g'. split; [exact H|].
  destruct (calc_patch_indices_plan _ _ _ _ _ _ _ _ _ Hgeo H) as (start & n & Hgrid & Hplan).
  apply mgrid3_stride_sizes in Hgrid as (_ & _ & Hin & _).
  intros c Hc.
  assert (Hk : forall a, exists k, 0 <= k < vnth a n /\
              k * vnth a (vsub patch overlap) + vnth a start <= vnth a c
              < k * vnth a (vsub patch overlap) + vnth a start + vnth a patch).
  { intros a. destruct (Hplan a) as [H0 Hs Heq _ Hgrow _ _ _].
    specialize (Hgeo a). specialize (Hc a). rewrite vnth_vsub.
    pose proof (n_patches_positive (vnth a image) (vnth a patch) (vnth a overlap)
                  ltac:(lia) (Himg a)) as Hn0.
    apply axis_cover_stride; try lia; nia. }
  destruct (Hk Ax0) as (k0 & Hk0 & Hc0). destruct (Hk Ax1) as (k1 & Hk1 & Hc1).
  destruct (Hk Ax2) as (k2 & Hk2 & Hc2).
  exists (V3 (k0 * ax0 (vsub patch overlap) + ax0 start)
             (k1 * ax1 (vsub patch overlap) + ax1 start)
             (k2 * ax2 (vsub patch overlap) + ax2 start)).
  split.
  - apply Hin. intros a.
    destruct a; [exists k0|exists k1|exists k2]; simpl in *; split; lia.
  - intros []; simpl in *; lia.
Qed.

(** X1: for every overlap and both placement modes, with valid geometry, no
    patch or volume extent above 2^24, volume extents above the overlap and
    enough fuel, the planner returns and every voxel of the volume lies in at
    least one placed patch. *)
Theorem X1_every_plan_covers_volume (fuel : nat) (image patch overlap : vec3 Z)
    (rand : bool) (g : rng) :
  small_extents image patch overlap ->
  (forall a, vnth a overlap < vnth a image) ->
  enough_fuel fuel (loop_bound rand patch overlap) ->
  exists l ov g',
    Machine.calc_patch_indices fuel image patch overlap rand
      default_minimum_overflow_fraction g = Ok (l, ov, g') /\
    forall c, (forall a, 0 <= vnth a c < vnth a image) ->
      exists p, In p l /\ forall a, vnth a p <= vnth a c < vnth a p + vnth a patch.
Proof.
  intros Hsmall Himg Hfuel. rewrite machine_planner_exact by exact Hsmall.
  apply exact_every_plan_covers; [|exact Himg|exact Hfuel].
  exact (small_extents_geometry _ _ _ Hsmall).
Qed.

Lemma NoDup_grid_axis (start step size : Z) : step <> 0 -> List.NoDup (grid_axis start step size).
Proof.
  intros Hs. unfold grid_axis. apply Finite.Injective_map_NoDup.
  - intros i j H. nia.
  - apply seq_NoDup.
Qed.

Lemma NoDup_flat_map_disjoint {A B : Type} (f : A -> list B) (l : list A) :
  List.NoDup l ->
  (forall x, In x l -> List.NoDup (f x)) ->
  (forall x y b, In x l -> In y l -> In b (f x) -> In b (f y) -> x = y) ->
  List.NoDup (flat_map f l).
Proof.
  induction l as [|x l IH]; intros Hl Hf Hd; simpl; [constructor|].
  inversion Hl as [|? ? Hx Hl']; subst.
  apply List.NoDup_app.
  - apply Hf. left. reflexivity.
  - apply IH; [exact Hl'| |].
    + intros y Hy. apply Hf. right. exact Hy.
    + intros y z b Hy Hz. apply Hd; right; assumption.
  - intros b Hb Hb'. apply in_flat_map in Hb' as (y & Hy & Hby).
    assert (x = y).
    { apply (Hd x y b); [left; reflexivity|right; exact Hy|exact Hb|exact Hby]. }
    subst y. apply Hx. exact Hy.
Qed.

Lemma mgrid3_NoDup (start stop step : vec3 Z) (l : list (vec3 Z)) :
  mgrid3 start stop step = Ok l -> List.NoDup l.
Proof.
  intros H. pose proof (mgrid3_Ok _ _ _ _ H) as (Hs & _ & _ & _).
  unfold mgrid3 in H.
  destruct (vany (vmap (Z.eqb 0) step)); [discriminate|].
  destruct (vany _); [discriminate|]. inversion H; subst l; clear H.
  apply NoDup_flat_map_disjoint.
  - apply NoDup_grid_axis. exact (Hs Ax0).
  - intros x _. apply NoDup_flat_map_disjoint.
    + apply NoDup_grid_axis. exact (Hs Ax1).
    + intros y _. apply Finite.Injective_map_NoDup.
      * intros z z' E. congruence.
      * apply NoDup_grid_axis. exact (Hs Ax2).
    + intros y y' b _ _ Hb Hb'.
      apply in_map_iff in Hb as (z & <- & _). apply in_map_iff in Hb' as (z' & E & _).
      congruence.
  - intros x x' b _ _ Hb Hb'.
    apply in_flat_map in Hb as (y & _ & Hb). apply in_map_iff in Hb as (z & <- & _).
    apply in_flat_map in Hb' as (y' & _ & Hb'). apply in_map_iff in Hb' as (z' & E & _).
    congruence.
Qed.

(** In exact arithmetic: the placements of a plan are pairwise distinct, and
    their number is the product over the axes of the patch counts n, where on
    each axis stride * n = image + overflow - overlap. *)
Lemma exact_placements_distinct (fuel : nat) (image patch overlap : vec3 Z)
    (rand : bool) (g : rng) (l : list (vec3 Z)) (ov : vec3 Z) (g' : rng) :
  geometry_ok patch overlap ->
  calc_patch_indices fuel image patch overlap rand
    default_minimum_overflow_fraction g = Ok (l, ov, g') ->
  List.NoDup l /\
  exists n : vec3 Z,
    (forall a, 0 <= vnth a n /\
               (vnth a patch - vnth a overlap) * vnth a n
               = vnth a image + vnth a ov - vnth a overlap) /\
    Z.of_nat (length l) = ax0 n * ax1 n * ax2 n.
Proof.
  intros Hgeo H.
  destruct (calc_patch_indices_plan _ _ _ _ _ _ _ _ _ Hgeo H) as (start & n & Hgrid & Hplan).
  split; [eapply mgrid3_NoDup; exact Hgrid|].
  apply mgrid3_stride_sizes in Hgrid as (_ & Hn & _ & Hlen).
  exists n. split.
  - intros a. split; [apply Hn|]. destruct (Hplan a) as [_ _ Heq _ _ _ _ _]. lia.
  - rewrite Hlen. pose proof (Hn Ax0). pose proof (Hn Ax1). pose proof (Hn Ax2).
    simpl in *. rewrite !Nat2Z.inj_mul, !Z2Nat.id by lia. lia.
Qed.

(** X2: with valid geometry and no patch or volume extent above 2^24, the
    placements of a plan are pairwise distinct, and their number is the
    product over the axes of the patch counts n, where on each axis
    stride * n = image + overflow - overlap. *)
Theorem X2_placements_distinct_and_counted (fuel : nat) (image patch overlap : vec3 Z)
    (rand : bool) (g : rng) (l : list (vec3 Z)) (ov : vec3 Z) (g' : rng) :
  small_extents image patch overlap ->
  Machine.calc_patch_indices fuel image patch overlap rand
    default_minimum_overflow_fraction g = Ok (l, ov, g') ->
  List.NoDup l /\
  exists n : vec3 Z,
    (forall a, 0 <= vnth a n /\
               (vnth a patch - vnth a overlap) * vnth a n
               = vnth a image + vnth a ov - vnth a overlap) /\
    Z.of_nat (length l) = ax0 n * ax1 n * ax2 n.
Proof.
  intros Hsmall H. rewrite machine_planner_exact in H by exact Hsmall.
  exact (exact_placements_distinct fuel image patch overlap rand g l ov g'
           (small_extents_geometry _ _ _ Hsmall) H).
Qed.

(** In exact arithmetic: the returned overflow is bounded on each axis.
    Randomized: at least a quarter of the patch extent and less than that
    quarter plus one stride.  Not randomized: at least the overlap and less
    than the patch extent. *)
Lemma exact_overflow_bounds (fuel : nat) (image patch overlap : vec3 Z) (rand : bool)
    (g : rng) (l : list (vec3 Z)) (ov : vec3 Z) (g' : rng) :
  geometry_ok patch overlap ->
  calc_patch_indices fuel image patch overlap rand
    default_minimum_overflow_fraction g = Ok (l, ov, g') ->
  forall a,
    if rand
    then vnth a patch <= 4 * vnth a ov /\
         4 * vnth a ov < vnth a patch + 4 * (vnth a patch - vnth a overlap)
    else vnth a overlap <= vnth a ov /\ vnth a ov < vnth a patch.
Proof.
  intros Hgeo H a. apply calc_patch_indices_Ok in H as (start & n & Hplace & _).
  pose proof (Hgeo a) as Ha.
  pose proof (overflow_range (vnth a image) (vnth a patch) (vnth a overlap) ltac:(lia)) as Hov0.
  destruct rand.
  - unfold place_random in Hplace.
    destruct (vany (vmap (Z.eqb 0) patch)); [discriminate|].
    destruct (extra_patch_loop _ _ _ _ _) as [[ov1 n1]|] eqn:Eloop; [|discriminate].
    simpl in Hplace.
    destruct (random_offsets ov1 g) as [[r g1]|]; [|discriminate].
    simpl in Hplace. inversion Hplace; subst; clear Hplace.
    destruct (extra_patch_loop_Ok _ _ _ (below_fraction_axiswise patch _) _ _ _ _ _ Eloop a)
      as [Hstop (k & Hk & Hov & _ & Hprev)].
    rewrite vnth_initial_overflow, vnth_initial_n_patches in Hov.
    autorewrite with vnth in Hov, Hprev.
    unfold default_minimum_overflow_fraction in Hstop, Hprev.
    rewrite Qltb_true_div in Hstop by lia. apply Z.ltb_ge in Hstop.
    destruct Hprev as [->|Hprev]; [lia|].
    rewrite Qltb_true_div in Hprev by lia. apply Z.ltb_lt in Hprev. lia.
  - unfold place_centred in Hplace.
    destruct (extra_patch_loop _ _ _ _ _) as [[ov1 n1]|] eqn:Eloop; [|discriminate].
    simpl in Hplace. inversion Hplace; subst; clear Hplace.
    destruct (extra_patch_loop_Ok _ _ _ (below_overlap_axiswise overlap) _ _ _ _ _ Eloop a)
      as [Hstop (k & Hk & Hov & _ & Hprev)].
    rewrite vnth_initial_overflow, vnth_initial_n_patches in Hov.
    autorewrite with vnth in Hov, Hprev. apply Z.ltb_ge in Hstop.
    destruct Hprev as [->|Hprev]; [lia|]. apply Z.ltb_lt in Hprev. lia.
Qed.

(** X3: with valid geometry and no patch or volume extent above 2^24, the
    returned overflow is bounded on each axis.  Randomized: at least a quarter
    of the patch extent and less than that quarter plus one stride.  Not
    randomized: at least the overlap and less than the patch extent. *)
Theorem X3_overflow_bounds (fuel : nat) (image patch overlap : vec3 Z) (rand : bool)
    (g : rng) (l : list (vec3 Z)) (ov : vec3 Z) (g' : rng) :
  small_extents image patch overlap ->
  Machine.calc_patch_indices fuel image patch overlap rand
    default_minimum_overflow_fraction g = Ok (l, ov, g') ->
  forall a,
    if rand
    then vnth a patch <= 4 * vnth a ov /\
         4 * vnth a ov < vnth a patch + 4 * (vnth a patch - vnth a overlap)
    else vnth a overlap <= vnth a ov /\ vnth a ov < vnth a patch.
Proof.
  intros Hsmall H. rewrite machine_planner_exact in H by exact Hsmall.
  exact (exact_overflow_bounds fuel image patch overlap rand g l ov g'
           (small_extents_geometry _ _ _ Hsmall) H).
Qed.

(** Without randomization a planning call neither reads nor advances the
    random source. *)
Lemma calc_patch_indices_centred_rng (fuel : nat) (image patch overlap : vec3 Z) (f : Q)
    (g : rng) (l : list (vec3 Z)) (ov : vec3 Z) (g' : rng) :
  calc_patch_indices fuel image patch overlap false f g = Ok (l, ov, g') ->
  g' = g /\
  forall g2, calc_patch_indices fuel image patch overlap false f g2 = Ok (l, ov, g2).
Proof.
  unfold calc_patch_indices. intros H.
  destruct (vany (vmap (Z.eqb 0) (vsub patch overlap))); [discriminate|].
  unfold place_centred in *.
  destruct (extra_patch_loop _ _ _ _ _) as [[ov1 n1]|]; [|discriminate].
  simpl in *. destruct (mgrid3 _ _ _) as [grid|]; [|discriminate].
  simpl in *. inversion H; subst. split; reflexivity.
Qed.

(** The number of placements of a plan does not depend on the random draws. *)
Lemma calc_patch_indices_length_det (fuel : nat) (image patch overlap : vec3 Z)
    (rand : bool) (f : Q) (g1 g2 : rng) l1 l2 ov1 ov2 g1' g2' :
  calc_patch_indices fuel image patch overlap rand f g1 = Ok (l1, ov1, g1') ->
  calc_patch_indices fuel image patch overlap rand f g2 = Ok (l2, ov2, g2') ->
  length l1 = length l2.
Proof.
  intros H1 H2.
  apply calc_patch_indices_Ok in H1 as (s1 & n1 & Hp1 & Hg1).
  apply calc_patch_indices_Ok in H2 as (s2 & n2 & Hp2 & Hg2).
  assert (n1 = n2).
  { destruct rand.
    - unfold place_random in *.
      destruct (vany (vmap (Z.eqb 0) patch)); [discriminate|].
      destruct (extra_patch_loop _ _ _ _ _) as [[o n]|]; [|discriminate].
      simpl in *.
      destruct (random_offsets o g1) as [[r1 h1]|]; [|discriminate].
      destruct (random_offsets o g2) as [[r2 h2]|]; [|discriminate].
      simpl in *. congruence.
    - unfold place_centred in *.
      destruct (extra_patch_loop _ _ _ _ _) as [[o n]|]; [|discriminate].
      simpl in *. congruence. }
  subst n2.
  apply mgrid3_stride_sizes in Hg1 as (_ & _ & _ & E1).
  apply mgrid3_stride_sizes in Hg2 as (_ & _ & _ & E2). congruence.
Qed.

Lemma random_offsets_draws (m : vec3 Z) (g : rng) (r : vec3 Z) (g' : rng) :
  random_offsets m g = Ok (r, g') ->
  r = V3 (g 0%nat mod (ax0 m + 1)) (g 1%nat mod (ax1 m + 1)) (g 2%nat mod (ax2 m + 1)) /\
  g' = (fun k => g (S (S (S k)))).
Proof.
  unfold random_offsets, random_choice. intros H.
  destruct (ax0 m + 1 <=? 0); [discriminate|]. simpl in H.
  destruct (ax1 m + 1 <=? 0); [discriminate|]. simpl in H.
  destruct (ax2 m + 1 <=? 0); [discriminate|]. simpl in H.
  inversion H. split; reflexivity.
Qed.

(** X4: a randomized planning call consumes exactly three draws, one per
    axis; its start index is minus the draw reduced modulo overflow + 1, so it
    lies in [-overflow, 0]; every placement is the start plus a non-negative
    multiple of the stride on each axis, and the start itself is a placement
    whenever there is one. *)
Theorem X4_random_start_from_three_draws (fuel : nat) (image patch overlap : vec3 Z)
    (f : Q) (g : rng) (l : list (vec3 Z)) (ov : vec3 Z) (g' : rng) :
  calc_patch_indices fuel image patch overlap true f g = Ok (l, ov, g') ->
  g' = (fun k => g (S (S (S k)))) /\
  let start := V3 (- (g 0%nat mod (ax0 ov + 1))) (- (g 1%nat mod (ax1 ov + 1)))
                  (- (g 2%nat mod (ax2 ov + 1))) in
  (forall a, - vnth a ov <= vnth a start <= 0) /\
  (forall p, In p l ->
     forall a, exists k, 0 <= k /\
       vnth a p = vnth a start + k * (vnth a patch - vnth a overlap)) /\
  (l <> [] -> In start l).
Proof.
  intros H.
  apply calc_patch_indices_Ok in H as (start & n & Hplace & Hgrid).
  unfold place_random in Hplace.
  destruct (vany (vmap (Z.eqb 0) patch)); [discriminate|].
  destruct (extra_patch_loop _ _ _ _ _) as [[ov1 n1]|]; [|discriminate].
  simpl in Hplace.
  destruct (random_offsets ov1 g) as [[r g1]|] eqn:Er; [|discriminate].
  simpl in Hplace. inversion Hplace; subst; clear Hplace.
  pose proof (random_offsets_Ok _ _ _ _ Er) as Hr.
  apply random_offsets_draws in Er as [-> ->].
  split; [reflexivity|]. cbv zeta.
  apply mgrid3_stride_sizes in Hgrid as (_ & Hn & Hin & Hlen).
  change (vneg (V3 (g 0%nat mod (ax0 ov + 1)) (g 1%nat mod (ax1 ov + 1))
                   (g 2%nat mod (ax2 ov + 1))))
    with (V3 (- (g 0%nat mod (ax0 ov + 1))) (- (g 1%nat mod (ax1 ov + 1)))
             (- (g 2%nat mod (ax2 ov + 1)))) in *.
  set (start := V3 (- (g 0%nat mod (ax0 ov + 1))) (- (g 1%nat mod (ax1 ov + 1)))
                   (- (g 2%nat mod (ax2 ov + 1)))) in *.
  split; [|split].
  - intros a. specialize (Hr a). destruct a; simpl in *; lia.
  - intros p Hp a. destruct (proj1 (Hin p) Hp a) as (k & Hk & E).
    exists k. rewrite vnth_vsub in E. split; [lia|lia].
  - intros Hne. apply Hin. intros a. exists 0. split; [|lia].
    destruct (Z_le_gt_dec (vnth a n) 0) as [Hz|Hz]; [|pose proof (Hn a); lia].
    exfalso. apply Hne. apply length_zero_iff_nil. rewrite Hlen.
    assert (vnth a n = 0) by (pose proof (Hn a); lia).
    destruct a; simpl in *; rewrite H; simpl; lia.
Qed.

(** * Further properties of the dataset object *)

(** ** The structure of the patch index *)

Lemma tagged_plans_length (i : nat) (plans : list (list (vec3 Z))) :
  length (tagged_plans i plans) = list_sum (map (@length _) plans).
Proof.
  revert i. induction plans as [|l plans IH]; intros i; simpl; [reflexivity|].
  rewrite length_app, length_map, IH. reflexivity.
Qed.

Lemma tagged_plans_In (i : nat) (plans : list (list (vec3 Z))) (row : index_row) :
  In row (tagged_plans i plans) <->
  exists k l, plans !! k = Some l /\ fst row = (i + k)%nat /\ In (snd row) l.
Proof.
  revert i. induction plans as [|l plans IH]; intros i; simpl.
  - split; [intros []|intros (k & l & H & _); destruct k; discriminate].
  - rewrite in_app_iff, in_map_iff, IH. split.
    + intros [(p & <- & Hp)|(k & l' & Hk & Hf & Hp)].
      * exists O, l. simpl. repeat split; [lia|exact Hp].
      * exists (S k), l'. simpl. repeat split; [exact Hk|lia|exact Hp].
    + intros (k & l' & Hk & Hf & Hp). destruct k as [|k]; simpl in Hk.
      * inversion Hk; subst l'. left. exists (snd row). split; [|exact Hp].
        destruct row as [j p]. simpl in *. f_equal. lia.
      * right. exists k, l'. repeat split; [exact Hk|lia|exact Hp].
Qed.

(** Rows come in blocks, one per volume, in volume order. *)
Lemma tagged_plans_sorted (plans : list (list (vec3 Z))) :
  forall (i a b : nat) (ra rb : index_row),
    tagged_plans i plans !! a = Some ra ->
    tagged_plans i plans !! b = Some rb ->
    (a <= b)%nat -> (fst ra <= fst rb)%nat.
Proof.
  induction plans as [|l plans IH]; intros i a b ra rb Ha Hb Hab; simpl in *.
  - destruct a; discriminate.
  - destruct (lt_dec b (length l)) as [Hlt|Hge].
    + rewrite lookup_app_l in Ha, Hb by (rewrite length_map; lia).
      rewrite list_lookup_fmap in Ha, Hb.
      destruct (l !! a); [|discriminate]. destruct (l !! b); [|discriminate].
      simpl in *. inversion Ha; inversion Hb; subst. simpl. lia.
    + rewrite lookup_app_r in Hb by (rewrite length_map; lia).
      assert (Hrb : (S i <= fst rb)%nat).
      { assert (Hin : In rb (tagged_plans (S i) plans))
          by (apply list_elem_of_In; eapply list_elem_of_lookup_2; exact Hb).
        apply tagged_plans_In in Hin as (k & _ & _ & E & _). lia. }
      destruct (lt_dec a (length l)) as [Hlt'|Hge'].
      * rewrite lookup_app_l in Ha by (rewrite length_map; lia).
        rewrite list_lookup_fmap in Ha.
        destruct (l !! a); [|discriminate]. simpl in Ha. inversion Ha; subst. simpl. lia.
      * rewrite lookup_app_r in Ha by (rewrite length_map; lia).
        rewrite length_map in Ha, Hb.
        apply (IH (S i) (a - length l)%nat (b - length l)%nat ra rb Ha Hb). lia.
Qed.

Section IndexStructure.

Context {V : Type}.
Variable astype_int64 : V -> V.
Variable fuel : nat.

Local Abbreviation array := (@ndarray V).
Local Abbreviation dataset := (@MRISegmentation V).
Local Abbreviation volume := (@loaded_volume V).

(** The loop of [initialize_patch_indices] appends, volume after volume, the
    tagged placements of one planning call each. *)
Lemma initialize_loop_plans (images : list array) :
  forall (i : nat) (self : dataset) (g : rng) (self' : dataset) (g' : rng),
    initialize_loop fuel images i self g = Ok (self', g') ->
    exists plans,
      length plans = length images /\
      patch_indices self' = patch_indices self ++ tagged_plans i plans /\
      forall k l, plans !! k = Some l ->
        exists image g0 ov g0',
          unpadded_data_shape self !! (i + k)%nat = Some image /\
          calc_patch_indices fuel image (patch_shape self) (patch_overlap self)
            (randomize_patch_offsets self) default_minimum_overflow_fraction g0
          = Ok (l, ov, g0').
Proof.
  induction images as [|im images IH]; intros i self g self' g' H; simpl in H.
  - inversion H; subst. exists []. split; [reflexivity|].
    split; [simpl; rewrite app_nil_r; reflexivity|]. intros k l Hk. destruct k; discriminate.
  - destruct (py_index (unpadded_data_shape self) (Z.of_nat i)) as [image|] eqn:Eshape;
      [simpl in H|discriminate].
    apply py_index_nat in Eshape.
    destruct (calc_patch_indices fuel image (patch_shape self) (patch_overlap self)
                (randomize_patch_offsets self) default_minimum_overflow_fraction g)
      as [[[l ov] g1]|] eqn:Ecalc; [simpl in H|discriminate].
    destruct (py_index (padding_boundary self) (Z.of_nat i)) as [boundary|] eqn:Eb;
      [simpl in H|discriminate].
    apply IH in H as (plans & Hlen & Hrows & Hplans). clear IH.
    exists (l :: plans). split; [simpl; lia|]. split.
    + rewrite Hrows. destruct boundary; simpl; rewrite <- app_assoc; reflexivity.
    + intros k l' Hk. destruct k as [|k]; simpl in Hk.
      * inversion Hk; subst l'. exists image, g, ov, g1.
        rewrite Nat.add_0_r. split; assumption.
      * destruct (Hplans k l' Hk) as (image' & g0 & ov0 & g0' & Hs & Hc).
        exists image', g0, ov0, g0'. replace (i + S k)%nat with (S i + k)%nat by lia.
        destruct boundary; simpl in *; split; assumption.
Qed.

Lemma initialize_index_of_plans (vols : list volume) (self : dataset) (g : rng)
    (self' : dataset) (g' : rng) :
  unpadded_data_shape self = map vol_shape vols ->
  length (data self) = length vols ->
  initialize_patch_indices fuel self g = Ok (self', g') ->
  exists plans, index_of_plans fuel vols self' plans.
Proof.
  intros Hu Hd H. unfold initialize_patch_indices in H.
  pose proof (initialize_loop_spec fuel _ _ _ _ _ _ H) as ((Hps & Hpo & Hr & _) & _).
  apply initialize_loop_plans in H as (plans & Hlen & Hrows & Hplans).
  simpl in *. exists plans. split; [lia|]. split; [exact Hrows|].
  intros k l Hk. destruct (Hplans k l Hk) as (image & g0 & ov & g0' & Hs & Hc).
  rewrite Hu, list_lookup_fmap in Hs.
  destruct (vols !! k) as [vol|]; [|discriminate]. simpl in Hs. inversion Hs; subst image.
  exists vol, g0, ov, g0'. split; [reflexivity|]. rewrite Hps, Hpo, Hr. exact Hc.
Qed.

Lemma reachable_index_of_plans vols cc ps po rand mode c (ds : dataset) :
  reachable astype_int64 fuel vols cc ps po rand mode c ds ->
  exists plans, index_of_plans fuel vols ds plans.
Proof.
  intros H. destruct H as [g ds g' H|ds g ds' g' Hr H].
  - unfold init in H. destruct (existsb squeezes vols); [discriminate|].
    match type of H with
    | bind (initialize_patch_indices fuel ?s g) _ = _ => set (self0 := s) in *
    end.
    destruct (initialize_patch_indices fuel self0 g) as [[self1 g1]|] eqn:E1;
      [simpl in H|discriminate].
    destruct (padding_loop astype_int64 (data self1) 0 self1) as [self2|] eqn:E2;
      [simpl in H|discriminate].
    destruct (initialize_index_of_plans vols self0 g self1 g1) as (plans & Hl & Hrows & Hp).
    + reflexivity.
    + subst self0. simpl. apply length_map.
    + exact E1.
    + inversion H; subst; clear H.
      apply padding_loop_spec in E2 as ((Hps & Hpo & Hrd & _ & _ & _ & _ & Hi & _) & _).
      exists plans. split; [exact Hl|]. split; [congruence|].
      intros k l Hk. destruct (Hp k l Hk) as (vol & g0 & ov & g0' & Hv & Hc).
      exists vol, g0, ov, g0'. split; [exact Hv|]. rewrite Hps, Hpo, Hrd. exact Hc.
  - apply reachable_consistent in Hr as [[Hshapes _ Hdlen _ _] _].
    eapply initialize_index_of_plans; eauto.
Qed.

End IndexStructure.

Lemma list_sum_lengths_eq {A : Type} (xs ys : list (list A)) :
  length xs = length ys ->
  (forall k x y, xs !! k = Some x -> ys !! k = Some y -> length x = length y) ->
  list_sum (map (@length _) xs) = list_sum (map (@length _) ys).
Proof.
  revert ys. induction xs as [|x xs IH]; intros [|y ys] Hlen H; simpl in *; try lia.
  rewrite (H O x y eq_refl eq_refl). f_equal. apply IH; [lia|].
  intros k x' y' Hx Hy. apply (H (S k) x' y'); assumption.
Qed.

Lemma initialize_loop_centred_rng {V : Type} (fuel : nat) (images : list (@ndarray V)) :
  forall (i : nat) (self : @MRISegmentation V) (g : rng) self' g',
    randomize_patch_offsets self = false ->
    initialize_loop fuel images i self g = Ok (self', g') -> g' = g.
Proof.
  induction images as [|im images IH]; intros i self g self' g' Hr H; simpl in H.
  - inversion H; reflexivity.
  - destruct (py_index (unpadded_data_shape self) (Z.of_nat i)) as [image|];
      [simpl in H|discriminate].
    rewrite Hr in H.
    destruct (calc_patch_indices fuel image (patch_shape self) (patch_overlap self)
                false default_minimum_overflow_fraction g)
      as [[[l ov] g1]|] eqn:Ecalc; [simpl in H|discriminate].
    apply calc_patch_indices_centred_rng in Ecalc as [-> _].
    destruct (py_index (padding_boundary self) (Z.of_nat i)) as [boundary|];
      [simpl in H|discriminate].
    apply IH in H; [exact H|]. destruct boundary; exact Hr.
Qed.

(** The patch index of every reachable state, in terms of the constructor's
    arguments. *)
Lemma reachable_plans {V : Type} (astype_int64 : V -> V) (fuel : nat)
    (vols : list loaded_volume) (cc : list Z) (ps po : int_or_vec) (rand : bool)
    (mode : pad_rule) (c : V) (ds : MRISegmentation) :
  reachable astype_int64 fuel vols cc ps po rand mode c ds ->
  exists plans : list (list (vec3 Z)),
    length plans = length vols /\
    patch_indices ds = tagged_plans 0 plans /\
    forall k l, plans !! k = Some l ->
      exists vol g0 ov g0',
        vols !! k = Some vol /\
        calc_patch_indices fuel (vol_shape vol) (as_vec3 ps) (as_vec3 po) rand
          default_minimum_overflow_fraction g0 = Ok (l, ov, g0').
Proof.
  intros Hreach.
  destruct (reachable_index_of_plans _ _ _ _ _ _ _ _ _ _ Hreach) as (plans & Hl & Hrows & Hp).
  apply reachable_consistent in Hreach as [_ (Hps & Hpo & Hr & _)].
  exists plans. split; [exact Hl|]. split; [exact Hrows|].
  intros k l Hk. destruct (Hp k l Hk) as (vol & g0 & ov & g0' & Hv & Hc).
  exists vol, g0, ov, g0'. rewrite <- Hps, <- Hpo, <- Hr. split; assumption.
Qed.

(** X5: in every state of a dataset the patch index is the concatenation, in
    volume order, of the placements of one planning call per volume, each row
    tagged with the position of its volume; so [__len__] is the sum of the
    sizes of the plans and the rows are sorted by volume index. *)
Theorem X5_patch_index_is_concatenation {V : Type} (astype_int64 : V -> V) (fuel : nat)
    (vols : list loaded_volume) (cc : list Z) (ps po : int_or_vec) (rand : bool)
    (mode : pad_rule) (c : V) (ds : MRISegmentation) :
  reachable astype_int64 fuel vols cc ps po rand mode c ds ->
  exists plans : list (list (vec3 Z)),
    length plans = length vols /\
    patch_indices ds = tagged_plans 0 plans /\
    (forall k l, plans !! k = Some l ->
       exists vol g0 ov g0',
         vols !! k = Some vol /\
         calc_patch_indices fuel (vol_shape vol) (as_vec3 ps) (as_vec3 po) rand
           default_minimum_overflow_fraction g0 = Ok (l, ov, g0')) /\
    len ds = Z.of_nat (list_sum (map (@length _) plans)) /\
    (forall a b ra rb,
       patch_indices ds !! a = Some ra -> patch_indices ds !! b = Some rb ->
       (a <= b)%nat -> (fst ra <= fst rb)%nat).
Proof.
  intros Hreach.
  destruct (reachable_plans _ _ _ _ _ _ _ _ _ _ Hreach) as (plans & Hl & Hrows & Hp).
  exists plans. split; [exact Hl|]. split; [exact Hrows|]. split; [exact Hp|]. split.
  - unfold len. rewrite Hrows, tagged_plans_length. reflexivity.
  - rewrite Hrows. apply tagged_plans_sorted.
Qed.

(** X6: the number of patches does not depend on the random draws: any two
    states of datasets constructed from the same volumes with the same
    arguments report the same length. *)
Theorem X6_patch_count_independent_of_draws {V : Type} (astype_int64 : V -> V)
    (fuel : nat) (vols : list loaded_volume) (cc : list Z) (ps po : int_or_vec)
    (rand : bool) (mode : pad_rule) (c : V) (ds1 ds2 : MRISegmentation) :
  reachable astype_int64 fuel vols cc ps po rand mode c ds1 ->
  reachable astype_int64 fuel vols cc ps po rand mode c ds2 ->
  len ds1 = len ds2.
Proof.
  intros H1 H2.
  destruct (reachable_plans _ _ _ _ _ _ _ _ _ _ H1) as (p1 & Hl1 & E1 & Hp1).
  destruct (reachable_plans _ _ _ _ _ _ _ _ _ _ H2) as (p2 & Hl2 & E2 & Hp2).
  unfold len. rewrite E1, E2, !tagged_plans_length. f_equal.
  apply list_sum_lengths_eq; [lia|].
  intros k x y Hx Hy.
  destruct (Hp1 k x Hx) as (vol & g0 & ov & g0' & Hv & Hc).
  destruct (Hp2 k y Hy) as (vol' & h0 & ov' & h0' & Hv' & Hc').
  assert (vol' = vol) by congruence. subst vol'.
  eapply calc_patch_indices_length_det; eauto.
Qed.

(** X7: without randomization, rebuilding the patch index changes nothing:
    [initialize_patch_indices] returns the same dataset and leaves the
    generator untouched. *)
Theorem X7_rebuild_without_randomization_is_identity {V : Type} (astype_int64 : V -> V)
    (fuel : nat) (vols : list loaded_volume) (cc : list Z) (ps po : int_or_vec)
    (mode : pad_rule) (c : V) (ds : MRISegmentation) (g : rng) :
  reachable astype_int64 fuel vols cc ps po false mode c ds ->
  initialize_patch_indices fuel ds g = Ok (ds, g).
Proof.
  intros Hreach.
  pose proof (reachable_consistent _ _ _ _ _ _ _ _ _ _ Hreach) as [Hc (_ & _ & Hr & _)].
  destruct (reinit_total astype_int64 fuel vols ds g Hc) as (ds' & g' & H).
  assert (Hreach' : reachable astype_int64 fuel vols cc ps po false mode c ds')
    by (eapply reach_epoch; eauto).
  destruct (reinit_spec astype_int64 fuel vols ds g ds' g' Hc H)
    as (_ & (Hps & Hpo & Hrd & Hm & Hcst & Hd & Hl & Hu & Hcc) & Hpb).
  assert (g' = g).
  { unfold initialize_patch_indices in H.
    eapply initialize_loop_centred_rng; [|exact H]. exact Hr. }
  subst g'.
  destruct (reachable_plans _ _ _ _ _ _ _ _ _ _ Hreach) as (p1 & Hl1 & E1 & Hp1).
  destruct (reachable_plans _ _ _ _ _ _ _ _ _ _ Hreach') as (p2 & Hl2 & E2 & Hp2).
  assert (p2 = p1).
  { apply list_eq. intros k.
    destruct (p1 !! k) as [x|] eqn:Ex, (p2 !! k) as [y|] eqn:Ey.
    - destruct (Hp1 k x Ex) as (vol & g0 & ov & g0' & Hv & Hc1).
      destruct (Hp2 k y Ey) as (vol' & h0 & ov' & h0' & Hv' & Hc2).
      assert (vol' = vol) by congruence. subst vol'.
      apply calc_patch_indices_centred_rng in Hc1 as [_ Hc1].
      specialize (Hc1 h0). congruence.
    - apply lookup_lt_Some in Ex. apply lookup_ge_None in Ey. lia.
    - apply lookup_lt_Some in Ey. apply lookup_ge_None in Ex. lia.
    - reflexivity. }
  subst p2. rewrite H. f_equal. f_equal.
  destruct ds, ds'. simpl in *. congruence.
Qed.

(** ** The content of a patch *)

Section PatchContent.

Context {V : Type}.
Variable astype_int64 : V -> V.
Variable fuel : nat.

Local Abbreviation array := (@ndarray V).
Local Abbreviation dataset := (@MRISegmentation V).
Local Abbreviation volume := (@loaded_volume V).

(** Every voxel of a padded array: the original in the centre, the constant
    elsewhere. *)
Lemma np_pad_voxel (a : array) (pw : pad_table) (mode : pad_rule) (c : V) (a' : array) :
  np_pad a pw mode c = Ok a' ->
  forall i j k,
    voxel a' i j k =
    if inside (ax0 (column0 pw)) (ax0 (shape a)) i
       && inside (ax1 (column0 pw)) (ax1 (shape a)) j
       && inside (ax2 (column0 pw)) (ax2 (shape a)) k
    then voxel a (i - ax0 (column0 pw)) (j - ax1 (column0 pw)) (k - ax2 (column0 pw))
    else c.
Proof.
  unfold np_pad. destruct (vany _); [discriminate|]. destruct mode; [|discriminate].
  intros H. inversion H; subst a'. reflexivity.
Qed.

(** A returned item, voxel by voxel, in terms of the padded volumes. *)
Lemma getitem_content (astype_float32 : V -> V) (vols : list volume) (ds : dataset)
    (index : Z) :
  consistent astype_int64 fuel vols ds ->
  geometry_ok (patch_shape ds) (patch_overlap ds) ->
  0 <= index < len ds ->
  (forall row, py_index (patch_indices ds) index = Ok row ->
               forall a, fits_int16 (vnth a (snd row))) ->
  exists item row vol ov sig lab x y,
    getitem astype_float32 ds index = Ok item /\
    py_index (patch_indices ds) index = Ok row /\
    vols !! fst row = Some vol /\
    np_pad (signal_volume vol) (stack_columns ov ov) (pad_mode ds) (pad_constant ds) = Ok sig /\
    np_pad (label_volume vol) (stack_columns ov ov) (pad_mode ds) (pad_constant ds) = Ok lab /\
    item_patch_valid item
      = (vsub (clip0 (vol_shape vol) (snd row)) (snd row),
         vsub (clip0 (vol_shape vol) (vadd (snd row) (patch_shape ds))) (snd row)) /\
    image_patch item = [x] /\ labels_patch item = [y] /\
    forall i j k,
      voxel x i j k
      = astype_float32 (voxel sig (ax0 (snd row) + ax0 ov + i) (ax1 (snd row) + ax1 ov + j)
                          (ax2 (snd row) + ax2 ov + k)) /\
      voxel y i j k
      = astype_int64 (voxel lab (ax0 (snd row) + ax0 ov + i) (ax1 (snd row) + ax1 ov + j)
                        (ax2 (snd row) + ax2 ov + k)).
Proof.
  intros Hc Hgeo Hidx Hfit.
  destruct (getitem_in_range astype_int64 fuel astype_float32 vols ds index Hc Hgeo Hidx Hfit)
    as (item & _ & _ & Hget & _).
  destruct (getitem_Ok astype_float32 ds index item Hget)
    as (row & image & lab & unpadded & pw & Hrow & Hd & Hl & Hu & Hb
        & _ & _ & Hvalid & Himg & Hlab & _).
  assert (Hwrap : vmap wrap_int16 (snd row) = snd row).
  { apply vec3_ext. intros a. rewrite vnth_vmap. apply wrap_int16_fits. apply (Hfit row Hrow). }
  rewrite Hwrap in *.
  assert (Hin : In row (patch_indices ds)).
  { destruct (py_index_in_range _ _ Hidx) as (row' & Hrow' & Hlook).
    assert (row' = row) by congruence. subst row'.
    apply list_elem_of_In. eapply list_elem_of_lookup_2. exact Hlook. }
  destruct (consistent_row astype_int64 fuel vols ds row Hc Hgeo Hin)
    as (vol & ov & sig0 & lab0 & Hv & Hu' & Hb' & Hd' & Hl' & Hss & Hsl & Hbounds).
  destruct Hc as [_ _ _ Hvol _].
  destruct (Hvol _ _ Hv) as (ov2 & sig & lab2 & Hb2 & _ & Hps & Hd2 & Hpl & Hl2).
  assert (ov2 = ov).
  { assert (E : stack_columns ov2 ov2 = stack_columns ov ov) by congruence.
    apply (f_equal column0) in E. rewrite !column0_stack in E. exact E. }
  subst ov2.
  assert (pw = stack_columns ov ov) by congruence. subst pw.
  assert (image = sig) by congruence. subst image.
  assert (lab = astype astype_int64 lab2) by congruence. subst lab.
  assert (unpadded = vol_shape vol) by congruence. subst unpadded.
  assert (sig0 = sig) by congruence. subst sig0.
  rewrite column0_stack in Himg, Hlab.
  assert (Hslice : forall arr : array,
            shape arr = vadd (vadd ov (vol_shape vol)) ov ->
            forall i j k,
              voxel (slice3 arr (vadd (snd row) ov)
                       (vadd (vadd (snd row) (patch_shape ds)) ov)) i j k
              = voxel arr (ax0 (snd row) + ax0 ov + i) (ax1 (snd row) + ax1 ov + j)
                  (ax2 (snd row) + ax2 ov + k)).
  { intros arr Hs. destruct (slice3_inside arr (vadd (snd row) ov)
                               (vadd (vadd (snd row) (patch_shape ds)) ov)) as [_ E].
    - intros a. rewrite Hs. autorewrite with vnth.
      specialize (Hbounds a). specialize (Hgeo a). lia.
    - intros i j k. rewrite E. destruct (snd row), ov. reflexivity. }
  exists item, row, vol, ov, sig, lab2. eexists _, _.
  split; [exact Hget|]. split; [exact Hrow|]. split; [exact Hv|].
  split; [exact Hps|]. split; [exact Hpl|]. split; [exact Hvalid|].
  split; [exact Himg|]. split; [exact Hlab|].
  intros i j k. split.
  - cbn [astype voxel]. rewrite (Hslice sig Hss). reflexivity.
  - rewrite (Hslice (astype astype_int64 lab2)); [reflexivity|].
    cbn [astype shape]. rewrite Hl' in Hl2. inversion Hl2 as [E]. rewrite E in Hsl.
    exact Hsl.
Qed.

End PatchContent.

Lemma inside_true (lo len i : Z) : inside lo len i = true <-> lo <= i < lo + len.
Proof. unfold inside. rewrite andb_true_iff, Z.leb_le, Z.ltb_lt. tauto. Qed.

Lemma inside_false (lo len i : Z) : ~ (lo <= i < lo + len) -> inside lo len i = false.
Proof.
  intros H. destruct (inside lo len i) eqn:E; [|reflexivity].
  apply inside_true in E. contradiction.
Qed.

(** On one axis: a patch-local coordinate lies between the clipped bounds
    iff it maps into the volume. *)
Lemma valid_axis (s p u t : Z) :
  0 <= t < p ->
  (Z.min (Z.max 0 s) u - s <= t < Z.min (Z.max 0 (s + p)) u - s <-> 0 <= s + t < u).
Proof. lia. Qed.

Lemma valid_axis_inside (s p u t : Z) :
  Z.min (Z.max 0 s) u - s <= t < Z.min (Z.max 0 (s + p)) u - s -> 0 <= s + t < u.
Proof. lia. Qed.

(** X8: inside the valid region, a patch holds the loaded volume: voxel
    (i, j, k) of the image patch is the float32 cast of the signal at
    start + (i, j, k), and the label patch the int64 cast (applied once, at
    construction) of the label there. *)
Theorem X8_patch_holds_volume_inside_valid_region {V : Type}
    (astype_float32 astype_int64 : V -> V)
    (fuel : nat) (vols : list loaded_volume) (cc : list Z) (ps po : int_or_vec)
    (rand : bool) (mode : pad_rule) (c : V) (ds : MRISegmentation) (index : Z) :
  reachable astype_int64 fuel vols cc ps po rand mode c ds ->
  geometry_ok (as_vec3 ps) (as_vec3 po) ->
  0 <= index < len ds ->
  (forall row, py_index (patch_indices ds) index = Ok row ->
               forall a, fits_int16 (vnth a (snd row))) ->
  exists item row vol x y,
    getitem astype_float32 ds index = Ok item /\
    py_index (patch_indices ds) index = Ok row /\
    vols !! fst row = Some vol /\
    image_patch item = [x] /\ labels_patch item = [y] /\
    forall i j k,
      let lo := fst (item_patch_valid item) in
      let hi := snd (item_patch_valid item) in
      ax0 lo <= i < ax0 hi -> ax1 lo <= j < ax1 hi -> ax2 lo <= k < ax2 hi ->
      voxel x i j k
      = astype_float32 (vol_signal vol (ax0 (snd row) + i) (ax1 (snd row) + j)
                          (ax2 (snd row) + k)) /\
      voxel y i j k
      = astype_int64 (vol_label vol (ax0 (snd row) + i) (ax1 (snd row) + j)
                        (ax2 (snd row) + k)).
Proof.
  intros Hreach Hgeo Hidx Hfit.
  apply reachable_consistent in Hreach as [Hc (Hps & Hpo & _)].
  rewrite <- Hps, <- Hpo in *.
  destruct (getitem_content astype_int64 fuel astype_float32 vols ds index Hc Hgeo Hidx Hfit)
    as (item & row & vol & ov & sig & lab & x & y & Hget & Hrow & Hv & Hsig & Hlab
        & Hvalid & Hx & Hy & Hvox).
  exists item, row, vol, x, y.
  split; [exact Hget|]. split; [exact Hrow|]. split; [exact Hv|].
  split; [exact Hx|]. split; [exact Hy|].
  intros i j k. rewrite Hvalid. cbn [fst snd]. unfold clip0.
  destruct (snd row) as [s0 s1 s2] eqn:Es.
  destruct (patch_shape ds) as [p0 p1 p2].
  destruct (vol_shape vol) as [u0 u1 u2] eqn:Eu. destruct ov as [o0 o1 o2].
  cbn [vmap vmap2 vsub vadd ax0 ax1 ax2]. intros Hi Hj Hk.
  destruct (Hvox i j k) as [Ex Ey]. rewrite Ex, Ey. cbn [ax0 ax1 ax2].
  rewrite (np_pad_voxel _ _ _ _ _ Hsig), (np_pad_voxel _ _ _ _ _ Hlab).
  rewrite !column0_stack.
  change (shape (signal_volume vol)) with (vol_shape vol).
  change (shape (label_volume vol)) with (vol_shape vol).
  rewrite Eu. cbn [ax0 ax1 ax2].
  apply valid_axis_inside in Hi, Hj, Hk.
  assert (I0 : inside o0 u0 (s0 + o0 + i) = true) by (apply inside_true; lia).
  assert (I1 : inside o1 u1 (s1 + o1 + j) = true) by (apply inside_true; lia).
  assert (I2 : inside o2 u2 (s2 + o2 + k) = true) by (apply inside_true; lia).
  rewrite I0, I1, I2. cbn [andb signal_volume label_volume voxel astype].
  replace (s0 + o0 + i - o0) with (s0 + i) by lia.
  replace (s1 + o1 + j - o1) with (s1 + j) by lia.
  replace (s2 + o2 + k - o2) with (s2 + k) by lia.
  split; reflexivity.
Qed.


(** X10: the valid region is exactly the part of the patch that lies in the
    unpadded volume: on each axis its bounds are ordered, and a patch-local
    coordinate t lies between them iff start + t is a coordinate of the
    loaded volume. *)
Theorem X10_valid_region_is_the_volume_part {V : Type}
    (astype_float32 astype_int64 : V -> V)
    (fuel : nat) (vols : list loaded_volume) (cc : list Z) (ps po : int_or_vec)
    (rand : bool) (mode : pad_rule) (c : V) (ds : MRISegmentation) (index : Z) :
  reachable astype_int64 fuel vols cc ps po rand mode c ds ->
  geometry_ok (as_vec3 ps) (as_vec3 po) ->
  0 <= index < len ds ->
  (forall row, py_index (patch_indices ds) index = Ok row ->
               forall a, fits_int16 (vnth a (snd row))) ->
  exists item row vol,
    getitem astype_float32 ds index = Ok item /\
    py_index (patch_indices ds) index = Ok row /\
    vols !! fst row = Some vol /\
    forall a,
      let lo := vnth a (fst (item_patch_valid item)) in
      let hi := vnth a (snd (item_patch_valid item)) in
      lo <= hi /\
      forall t, 0 <= t < vnth a (as_vec3 ps) ->
                (lo <= t < hi <-> 0 <= vnth a (snd row) + t < vnth a (vol_shape vol)).
Proof.
  intros Hreach Hgeo Hidx Hfit.
  apply reachable_consistent in Hreach as [Hc (Hps & Hpo & _)].
  rewrite <- Hps, <- Hpo in *.
  destruct (getitem_content astype_int64 fuel astype_float32 vols ds index Hc Hgeo Hidx Hfit)
    as (item & row & vol & ov & sig & lab & x & y & Hget & Hrow & Hv & _ & _
        & Hvalid & _).
  exists item, row, vol.
  split; [exact Hget|]. split; [exact Hrow|]. split; [exact Hv|].
  intros a. rewrite Hvalid. cbn [fst snd]. unfold clip0. autorewrite with vnth.
  cbv zeta. specialize (Hgeo a). split; [lia|]. intros t Ht. apply valid_axis. exact Ht.
Qed.

(** ** Negative indices *)

Lemma py_index_negative {A : Type} (l : list A) (i : Z) :
  - Z.of_nat (length l) <= i < 0 -> py_index l i = py_index l (i + Z.of_nat (length l)).
Proof.
  intros Hi. unfold py_index.
  assert (E1 : (i <? 0) = true) by (apply Z.ltb_lt; lia).
  assert (E2 : (i + Z.of_nat (length l) <? 0) = false) by (apply Z.ltb_ge; lia).
  cbv zeta. rewrite E1, !E2. reflexivity.
Qed.

Lemma py_index_below {A : Type} (l : list A) (i : Z) :
  i < - Z.of_nat (length l) -> py_index l i = Raise IndexError.
Proof.
  intros Hi. unfold py_index.
  assert (E1 : (i <? 0) = true) by (apply Z.ltb_lt; lia).
  assert (E2 : (i + Z.of_nat (length l) <? 0) = true) by (apply Z.ltb_lt; lia).
  cbv zeta. rewrite E1, !E2. reflexivity.
Qed.

Section Lengths.

Context {V : Type}.
Variable astype_int64 : V -> V.
Variable fuel : nat.

Local Abbreviation dataset := (@MRISegmentation V).
Local Abbreviation volume := (@loaded_volume V).

(** The label list keeps one entry per loaded volume. *)
Lemma reachable_labels_length (vols : list volume) cc ps po rand mode c (ds : dataset) :
  reachable astype_int64 fuel vols cc ps po rand mode c ds ->
  length (labels ds) = length vols.
Proof.
  induction 1 as [g ds g' H|ds g ds' g' Hr IH H].
  - unfold init in H. destruct (existsb squeezes vols); [discriminate|].
    match type of H with
    | context [initialize_patch_indices fuel ?s g] => set (self0 := s) in H
    end.
    destruct (initialize_patch_indices fuel self0 g) as [[self1 g1]|] eqn:E1;
      [simpl in H|discriminate].
    destruct (padding_loop astype_int64 (data self1) 0 self1) as [self2|] eqn:E2;
      [simpl in H|discriminate].
    inversion H; subst; clear H.
    unfold initialize_patch_indices in E1.
    apply initialize_loop_spec in E1 as (Hsame & _).
    apply padding_loop_spec in E2 as (_ & _ & Hll & _).
    destruct Hsame as (_ & _ & _ & _ & _ & _ & Hl & _).
    rewrite Hll, Hl. subst self0. simpl. apply length_map.
  - apply reachable_consistent in Hr as [Hc _].
    destruct (reinit_spec astype_int64 fuel vols ds g ds' g' Hc H) as (_ & Hs & _).
    destruct Hs as (_ & _ & _ & _ & _ & _ & Hl & _). rewrite Hl. exact IH.
Qed.

End Lengths.

(** X12: [get_original] follows Python's list indexing on the volume index:
    with N volumes loaded, an index outside [-N, N) raises [IndexError], and an
    index in [-N, 0) returns what index + N returns. *)
Theorem X12_get_original_index_range {V : Type} (astype_int64 : V -> V)
    (fuel : nat) (vols : list loaded_volume) (cc : list Z) (ps po : int_or_vec)
    (rand : bool) (mode : pad_rule) (c : V) (ds : MRISegmentation) (v : Z) :
  reachable astype_int64 fuel vols cc ps po rand mode c ds ->
  let N := Z.of_nat (length vols) in
  (v < - N \/ N <= v -> get_original ds v = Raise IndexError) /\
  (- N <= v < 0 -> get_original ds v = get_original ds (v + N)).
Proof.
  intros Hreach N.
  pose proof (reachable_labels_length astype_int64 fuel vols cc ps po rand mode c ds Hreach)
    as Hll.
  apply reachable_consistent in Hreach as [[Hshapes Hblen Hdlen _ _] _].
  assert (Hul : length (unpadded_data_shape ds) = length vols)
    by (rewrite Hshapes; apply length_map).
  subst N. split.
  - intros [Hv|Hv]; unfold get_original.
    + rewrite py_index_below by lia. reflexivity.
    + rewrite py_index_beyond by lia. reflexivity.
  - intros Hv. unfold get_original.
    rewrite (py_index_negative (unpadded_data_shape ds) v) by lia.
    rewrite (py_index_negative (padding_boundary ds) v) by lia.
    rewrite (py_index_negative (data ds) v) by lia.
    rewrite (py_index_negative (labels ds) v) by lia.
    rewrite Hul, Hblen, Hdlen, Hll. reflexivity.
Qed.

(** ** Patches within the 16-bit range *)

(** X15: in every state of a dataset constructed with
    [0 <= overlap < patch_shape] (after construction and after any number of
    rebuilds of the patch index), for every flat index in range whose stored
    start coordinates fit in 16 bits, [__getitem__] returns and the signal and
    label patches have exactly the patch shape, so neither assertion fires.
    The stored coordinates fit whenever every volume extent plus twice the
    patch extent is at most 32767. *)
Theorem X15_patches_have_patch_shape {V : Type} (astype_float32 astype_int64 : V -> V)
    (fuel : nat) (vols : list loaded_volume) (cc : list Z) (ps po : int_or_vec)
    (rand : bool) (mode : pad_rule) (c : V) (ds : MRISegmentation) :
  reachable astype_int64 fuel vols cc ps po rand mode c ds ->
  geometry_ok (as_vec3 ps) (as_vec3 po) ->
  forall index, 0 <= index < len ds ->
    (volumes_fit vols (as_vec3 ps) ->
     forall row, py_index (patch_indices ds) index = Ok row ->
                 forall a, fits_int16 (vnth a (snd row))) /\
    ((forall row, py_index (patch_indices ds) index = Ok row ->
                  forall a, fits_int16 (vnth a (snd row))) ->
     exists item x y,
       getitem astype_float32 ds index = Ok item /\
       image_patch item = [x] /\ labels_patch item = [y] /\
       shape x = as_vec3 ps /\ shape y = as_vec3 ps).
Proof.
  intros Hreach Hgeo index Hidx.
  apply reachable_consistent in Hreach as [Hc (Hps & Hpo & _)].
  rewrite <- Hps, <- Hpo in *. split.
  - intros Hfit row Hrow.
    destruct (py_index_in_range _ _ Hidx) as (row' & Hrow' & Hlook).
    assert (row' = row) by congruence. subst row'.
    apply (consistent_row_fits astype_int64 fuel vols ds row Hc Hgeo Hfit).
    apply list_elem_of_In. eapply list_elem_of_lookup_2. exact Hlook.
  - intros Hfit.
    exact (getitem_in_range astype_int64 fuel astype_float32 vols ds index Hc Hgeo Hidx Hfit).
Qed.

(** ** The constructor *)


(** ** Instances on the examples *)

Lemma X1_every_plan_covers_volume_witness :
  exists l ov g',
    Machine.calc_patch_indices 32 (V3 30 20 10) (vrepeat 8) (vrepeat 2) true
      default_minimum_overflow_fraction demo_rng = Ok (l, ov, g') /\
    forall c, (forall a, 0 <= vnth a c < vnth a (V3 30 20 10)) ->
      exists p, In p l /\ forall a, vnth a p <= vnth a c < vnth a p + vnth a (vrepeat 8).
Proof.
  apply (X1_every_plan_covers_volume 32 (V3 30 20 10) (vrepeat 8) (vrepeat 2) true demo_rng).
  - intros []; simpl; lia.
  - intros []; simpl; lia.
  - unfold enough_fuel. simpl. lia.
Defined.

(** The plan of the first example volume, with and without randomization. *)
Lemma small_plan (rand : bool) :
  exists l ov g',
    calc_patch_indices 32 (V3 30 20 10) (vrepeat 8) (vrepeat 2) rand
      default_minimum_overflow_fraction demo_rng = Ok (l, ov, g').
Proof.
  apply calc_patch_indices_total.
  - intros []; simpl; lia.
  - unfold enough_fuel. destruct rand; simpl; lia.
  - intros []; simpl; lia.
Defined.

Lemma small_plan_extents : small_extents (V3 30 20 10) (vrepeat 8) (vrepeat 2).
Proof. intros []; simpl; lia. Defined.

Lemma small_plan_machine (rand : bool) :
  exists l ov g',
    Machine.calc_patch_indices 32 (V3 30 20 10) (vrepeat 8) (vrepeat 2) rand
      default_minimum_overflow_fraction demo_rng = Ok (l, ov, g').
Proof.
  rewrite machine_planner_exact by exact small_plan_extents. apply small_plan.
Defined.

Lemma X2_placements_distinct_and_counted_witness :
  exists l ov g',
    Machine.calc_patch_indices 32 (V3 30 20 10) (vrepeat 8) (vrepeat 2) true
      default_minimum_overflow_fraction demo_rng = Ok (l, ov, g') /\
    List.NoDup l /\
    exists n : vec3 Z,
      (forall a, 0 <= vnth a n /\
                 (vnth a (vrepeat 8) - vnth a (vrepeat 2)) * vnth a n
                 = vnth a (V3 30 20 10) + vnth a ov - vnth a (vrepeat 2)) /\
      Z.of_nat (length l) = ax0 n * ax1 n * ax2 n.
Proof.
  destruct (small_plan_machine true) as (l & ov & g' & H).
  exists l, ov, g'. split; [exact H|].
  exact (X2_placements_distinct_and_counted 32 (V3 30 20 10) (vrepeat 8) (vrepeat 2) true
           demo_rng l ov g' small_plan_extents H).
Defined.

Lemma X3_overflow_bounds_witness :
  exists l ov g',
    Machine.calc_patch_indices 32 (V3 30 20 10) (vrepeat 8) (vrepeat 2) false
      default_minimum_overflow_fraction demo_rng = Ok (l, ov, g') /\
    forall a, vnth a (vrepeat 2) <= vnth a ov /\ vnth a ov < vnth a (vrepeat 8).
Proof.
  destruct (small_plan_machine false) as (l & ov & g' & H).
  exists l, ov, g'. split; [exact H|].
  exact (X3_overflow_bounds 32 (V3 30 20 10) (vrepeat 8) (vrepeat 2) false
           demo_rng l ov g' small_plan_extents H).
Defined.

Lemma X4_random_start_from_three_draws_witness :
  exists l ov g',
    calc_patch_indices 32 (V3 30 20 10) (vrepeat 8) (vrepeat 2) true
      default_minimum_overflow_fraction demo_rng = Ok (l, ov, g') /\
    g' = (fun k => demo_rng (S (S (S k)))) /\
    (l <> [] ->
     In (V3 (- (demo_rng 0%nat mod (ax0 ov + 1))) (- (demo_rng 1%nat mod (ax1 ov + 1)))
            (- (demo_rng 2%nat mod (ax2 ov + 1)))) l).
Proof.
  destruct (small_plan true) as (l & ov & g' & H).
  exists l, ov, g'. split; [exact H|].
  destruct (X4_random_start_from_three_draws 32 (V3 30 20 10) (vrepeat 8) (vrepeat 2)
              default_minimum_overflow_fraction demo_rng l ov g' H) as (Hg & _ & _ & Hin).
  split; [exact Hg|exact Hin].
Defined.

Lemma X5_patch_index_is_concatenation_witness :
  exists plans : list (list (vec3 Z)),
    length plans = length small_volumes /\
    patch_indices small_dataset_epoch2 = tagged_plans 0 plans /\
    len small_dataset_epoch2 = Z.of_nat (list_sum (map (@length _) plans)).
Proof.
  destruct (X5_patch_index_is_concatenation to_int64 32 small_volumes [] (Integral 8)
              (Integral 2) true pad_constant_rule 0 small_dataset_epoch2
              small_dataset_epoch2_reachable) as (plans & Hl & Hrows & _ & Hlen & _).
  exists plans. split; [exact Hl|]. split; [exact Hrows|exact Hlen].
Defined.

Lemma X6_patch_count_independent_of_draws_witness :
  len small_dataset = len small_dataset_epoch2.
Proof.
  exact (X6_patch_count_independent_of_draws to_int64 32 small_volumes [] (Integral 8)
           (Integral 2) true pad_constant_rule 0 small_dataset small_dataset_epoch2
           small_dataset_reachable small_dataset_epoch2_reachable).
Defined.

Lemma X7_rebuild_without_randomization_witness :
  initialize_patch_indices 32 edge_dataset demo_rng2 = Ok (edge_dataset, demo_rng2).
Proof.
  exact (X7_rebuild_without_randomization_is_identity to_int64 32 [ramp_volume (V3 14 14 14)]
           [] (Integral 10) (Integral 0) pad_constant_rule 0 edge_dataset demo_rng2
           edge_dataset_reachable).
Defined.

(** The first row of the one-volume example and its range. *)
Lemma edge_row0 : py_index (patch_indices edge_dataset) 0 = Ok (O, V3 (-3) (-3) (-3)).
Proof. vm_compute. reflexivity. Qed.

Lemma edge_geometry : geometry_ok (as_vec3 (Integral 10)) (as_vec3 (Integral 0)).
Proof. intros []; simpl; lia. Qed.

Lemma edge_index0 : 0 <= 0 < len edge_dataset.
Proof. split; [lia|]. apply Z.ltb_lt. vm_compute. reflexivity. Qed.

Lemma edge_row0_fits (row : index_row) :
  py_index (patch_indices edge_dataset) 0 = Ok row -> forall a, fits_int16 (vnth a (snd row)).
Proof.
  intros Hrow. rewrite edge_row0 in Hrow. inversion Hrow; subst row.
  intros []; unfold fits_int16; simpl; lia.
Qed.

Lemma edge_item0_valid (item : @patch_item Z) :
  getitem keep edge_dataset 0 = Ok item ->
  item_patch_valid item = (V3 3 3 3, V3 10 10 10).
Proof.
  intros Hget.
  destruct (getitem_Ok keep edge_dataset 0 item Hget)
    as (row & _ & _ & unpadded & _ & Hrow & _ & _ & Hu & _ & _ & _ & Hvalid & _).
  rewrite edge_row0 in Hrow. inversion Hrow; subst row.
  vm_compute in Hu. inversion Hu; subst unpadded.
  rewrite Hvalid. reflexivity.
Qed.

Lemma X8_patch_holds_volume_witness :
  exists item x y,
    getitem keep edge_dataset 0 = Ok item /\
    image_patch item = [x] /\ labels_patch item = [y] /\
    voxel x 3 4 5 = keep (vol_signal (ramp_volume (V3 14 14 14)) 0 1 2) /\
    voxel y 3 4 5 = to_int64 (vol_label (ramp_volume (V3 14 14 14)) 0 1 2).
Proof.
  destruct (X8_patch_holds_volume_inside_valid_region keep to_int64 32
              [ramp_volume (V3 14 14 14)] [] (Integral 10) (Integral 0) false
              pad_constant_rule 0 edge_dataset 0 edge_dataset_reachable edge_geometry
              edge_index0 edge_row0_fits)
    as (item & row & vol & x & y & Hget & Hrow & Hv & Hx & Hy & Hvox).
  rewrite edge_row0 in Hrow. inversion Hrow; subst row.
  simpl in Hv. inversion Hv; subst vol.
  pose proof (edge_item0_valid item Hget) as Hvalid.
  exists item, x, y. split; [exact Hget|]. split; [exact Hx|]. split; [exact Hy|].
  apply (Hvox 3 4 5); rewrite Hvalid; simpl; lia.
Defined.


Lemma X10_valid_region_witness :
  exists item row vol,
    getitem keep edge_dataset 0 = Ok item /\
    py_index (patch_indices edge_dataset) 0 = Ok row /\
    [ramp_volume (V3 14 14 14)] !! fst row = Some vol /\
    forall a,
      vnth a (fst (item_patch_valid item)) <= vnth a (snd (item_patch_valid item)) /\
      forall t, 0 <= t < vnth a (as_vec3 (Integral 10)) ->
                (vnth a (fst (item_patch_valid item)) <= t
                   < vnth a (snd (item_patch_valid item))
                 <-> 0 <= vnth a (snd row) + t < vnth a (vol_shape vol)).
Proof.
  exact (X10_valid_region_is_the_volume_part keep to_int64 32
           [ramp_volume (V3 14 14 14)] [] (Integral 10) (Integral 0) false
           pad_constant_rule 0 edge_dataset 0 edge_dataset_reachable edge_geometry
           edge_index0 edge_row0_fits).
Defined.

Lemma X12_get_original_index_range_witness :
  get_original small_dataset 2 = Raise IndexError /\
  get_original small_dataset (-1) = get_original small_dataset 1.
Proof.
  split.
  - apply (proj1 (X12_get_original_index_range to_int64 32 small_volumes [] (Integral 8)
                    (Integral 2) true pad_constant_rule 0 small_dataset 2
                    small_dataset_reachable)).
    unfold small_volumes. simpl. lia.
  - apply (proj2 (X12_get_original_index_range to_int64 32 small_volumes [] (Integral 8)
                    (Integral 2) true pad_constant_rule 0 small_dataset (-1)
                    small_dataset_reachable)).
    unfold small_volumes. simpl. lia.
Defined.


Lemma X15_patches_have_patch_shape_witness :
  exists item x y,
    getitem keep small_dataset_epoch2 17 = Ok item /\
    image_patch item = [x] /\ labels_patch item = [y] /\
    shape x = as_vec3 (Integral 8) /\ shape y = as_vec3 (Integral 8).
Proof.
  assert (Hidx : 0 <= 17 < len small_dataset_epoch2).
  { split; [lia|]. apply Z.ltb_lt. vm_compute. reflexivity. }
  destruct (X15_patches_have_patch_shape keep to_int64 32 small_volumes [] (Integral 8)
              (Integral 2) true pad_constant_rule 0 small_dataset_epoch2
              small_dataset_epoch2_reachable small_geometry 17 Hidx) as [Hfit Hget].
  apply Hget. apply Hfit. exact small_volumes_fit.
Defined.

